(** * sap_fs: a sandboxed filesystem accessor

    Shallow embedding of [src/src/fs.cpp] (class [sap::fs::Filesystem]) and of
    the parts of [std::filesystem] it calls, followed by the properties of the
    specification that concern path validation, existence checks, the
    write/read round trip, removal, directory creation, sizes and directory
    listings.

    Layout of the development:
    - [result]: the value-or-message type returned by every fallible operation;
    - path strings and the lexical operations of [std::filesystem::path]
      (POSIX flavour: the separator is the slash, there are no root names);
    - a disk: a tree of directories and regular files with a current working
      directory, and the operations of [std::filesystem] that consult or
      change it, after the wording of the C++ standard ([fs.op.funcs]) on a
      POSIX system, and after libstdc++ and libc++ where the wording leaves
      the behaviour open ([remove], the limit of [create_directories]);
    - the member functions of [Filesystem], each with the disk as an explicit
      argument, and with the new disk in the result when they change it;
    - the notions the statements use, the lemmas, one theorem per claim of
      the specification (C1 to C10), and further properties of the accessor
      (X1 to X20).

    What the model covers of the platform:
    - the limit [NAME_MAX] on a path component: resolution stops with
      [ENAMETOOLONG] at a component over the limit, the overloads without an
      error code throw, no entry is created under such a name;
    - the limit [PATH_MAX] on the string given to [weakly_canonical];
    - the limit of libstdc++ on the directories one call of
      [create_directories] creates;
    - what becomes of the bytes given to an output stream: all of them reach
      the file, or the stream reports a failure, or the stream reports
      nothing and the bytes are lost when it is flushed on destruction
      ([stream_fate]).
    What it leaves out: symbolic links, permissions, failures of the device
    other than on writing a file's bytes, trees so deep that the path of an
    entry reaches [PATH_MAX], and path strings that hold a NUL byte (the
    operating system reads a path up to its first NUL byte; the statements
    whose truth depends on how a string is read take [within_limits] or
    [no_nul] as a hypothesis, which excludes such strings). *)

From Stdlib Require Import String Ascii List Bool Arith Lia.
From Stdlib Require Import Init.Byte.
Import ListNotations.
Open Scope string_scope.
Open Scope list_scope.
Set Warnings "-register-all".

(* ================================================================== *)
(** ** Results *)

(** Modelled from the spec: [stl::result<T>] of [sap_core/result.h], which
    is not among the sources.  Section 3 words it as "either a success value
    or an error description"; the source builds every error with
    [stl::make_error] from a format string, so the description is a
    message. *)
Inductive result (A : Type) : Type :=
| Ok (value : A)
| Err (message : string).
Arguments Ok {A} value.
Arguments Err {A} message.

(** A call either returns or leaves through a C++ exception: the overloads of
    [std::filesystem] that take no [std::error_code] report errors by
    throwing [filesystem_error]. *)
Inductive outcome (A : Type) : Type :=
| Returns (r : A)
| Throws (what : string).
Arguments Returns {A} r.
Arguments Throws {A} what.

(** Modelled from the spec: the error kinds of section 7.  The source does
    not have them as a type: an error is only its message. *)
Inductive error_kind : Type :=
| InvalidPath
| PathEscapesRoot
| IoError
| NotADirectory.

Definition msg_empty_path : string := "Empty path".
Definition msg_escapes_root : string := "Path escapes root directory".
Definition msg_not_a_directory : string := "Not a directory".

(** Modelled from the spec: the classification of the source's messages into
    the error kinds of section 7 ([InvalidPath] for the empty input,
    [PathEscapesRoot] for a failed containment check, [NotADirectory] for a
    listing target that is not a directory, [IoError] for every failure of an
    underlying filesystem call, whose messages all start with "Failed to"). *)
Definition kind_of (msg : string) : option error_kind :=
  if msg =? msg_empty_path then Some InvalidPath
  else if msg =? msg_escapes_root then Some PathEscapesRoot
  else if msg =? msg_not_a_directory then Some NotADirectory
  else if prefix "Failed to " msg then Some IoError
  else None.

(** [fails_with r k]: [r] is an error of kind [k]. *)
Definition fails_with {A : Type} (r : result A) (k : error_kind) : Prop :=
  match r with
  | Ok _ => False
  | Err msg => kind_of msg = Some k
  end.

Definition is_ok {A : Type} (r : result A) : bool :=
  match r with Ok _ => true | Err _ => false end.

(** [returns_error o k]: the call returns, and what it returns is an error of
    kind [k]. *)
Definition returns_error {A : Type} (o : outcome (result A)) (k : error_kind)
  : Prop :=
  match o with
  | Returns r => fails_with r k
  | Throws _ => False
  end.

(** The call leaves through an exception. *)
Definition throws {A : Type} (o : outcome A) : bool :=
  match o with Throws _ => true | Returns _ => false end.

(* ================================================================== *)
(** ** Path strings: the lexical layer of [std::filesystem::path] *)

Module Path.

Definition sep : ascii := "/"%char.

(** The segments between separators; never the empty list. *)
Fixpoint split (s : string) : list string :=
  match s with
  | EmptyString => [EmptyString]
  | String c r =>
      if Ascii.eqb c sep then EmptyString :: split r
      else match split r with
           | h :: t => String c h :: t
           | [] => [String c EmptyString]
           end
  end.

Definition nonempty (s : string) : bool := negb (s =? "").

(** [path::is_absolute]: on POSIX, the path has a root directory. *)
Definition is_absolute (s : string) : bool :=
  match s with
  | String c _ => Ascii.eqb c sep
  | EmptyString => false
  end.

(** [path::has_filename]: the path does not end in a separator and is not
    empty. *)
Definition has_filename (s : string) : bool := nonempty (last (split s) "").

(** The filenames of the relative part, in order. *)
Definition names (s : string) : list string := filter nonempty (split s).

(** The path ends in a separator that follows a filename. *)
Definition trailing (s : string) : bool :=
  negb (has_filename s) && negb (Nat.eqb (List.length (names s)) 0).

(** The elements of path iteration ([path::begin] to [path::end]): the root
    directory, the filenames, and an empty element after a trailing
    separator. *)
Definition elements (s : string) : list string :=
  (if is_absolute s then ["/"] else [])
    ++ names s
    ++ (if trailing s then [""] else []).

(** The generic-format string of a path given by its parts. *)
Definition render (absolute : bool) (ns : list string) (trail : bool) : string :=
  (if absolute then "/" else "") ++ String.concat "/" ns
    ++ (if trail then "/" else "").

Definition render_abs (ns : list string) : string := render true ns false.

(** [operator/]: an absolute right operand replaces the left one; otherwise
    a separator is added after a filename and the right operand appended. *)
Definition join (l r : string) : string :=
  if is_absolute r then r
  else if has_filename l then l ++ "/" ++ r
  else l ++ r.

Definition is_dot (s : string) : bool := s =? ".".
Definition is_dotdot (s : string) : bool := s =? "..".

(** One filename of the normal-form algorithm of [fs.path.generic]: [acc] is
    the reversed list of filenames kept so far, [slash] tells whether the text
    built so far ends in a separator left behind by a removed filename. *)
Definition normal_step (absolute : bool) (st : list string * bool) (n : string)
  : list string * bool :=
  let (acc, slash) := st in
  if is_dot n then (acc, true)
  else if is_dotdot n then
    match acc with
    | top :: below =>
        if is_dotdot top then (n :: acc, false) else (below, true)
    | [] => if absolute then ([], true) else ([n], false)
    end
  else (n :: acc, false).

(** The normal form of a path given by its parts: with no filename left it
    is the root directory or a dot; a separator ends it when one was left
    behind or was there, unless the last filename is a dot-dot. *)
Definition normal_form (absolute : bool) (ns : list string) (trail : bool)
  : string :=
  let (acc, slash) := fold_left (normal_step absolute) ns ([], false) in
  match acc with
  | [] => if absolute then "/" else "."
  | top :: _ =>
      render absolute (rev acc) (negb (is_dotdot top) && (slash || trail))
  end.

(** [path::lexically_normal]. *)
Definition lexically_normal (s : string) : string :=
  if s =? "" then ""
  else normal_form (is_absolute s) (names s) (trailing s).

(** [std::mismatch] on two element sequences: the remainders from the first
    position where they differ. *)
Fixpoint mismatch (a b : list string) : list string * list string :=
  match a, b with
  | x :: a', y :: b' => if x =? y then mismatch a' b' else (a, b)
  | _, _ => (a, b)
  end.

Definition plain_name (s : string) : bool :=
  nonempty s && negb (is_dot s) && negb (is_dotdot s).

(** [path::lexically_relative]; the empty path is the failure value. *)
Definition lexically_relative (p base : string) : string :=
  if negb (Bool.eqb (is_absolute p) (is_absolute base)) then ""
  else
    let (a, b) := mismatch (elements p) (elements base) in
    match a, b with
    | [], [] => "."
    | _, _ =>
        let up := List.length (filter plain_name b) in
        let down := List.length (filter is_dotdot b) in
        if Nat.ltb up down then ""
        else if Nat.eqb up down
                && match a with [] => true | x :: _ => x =? "" end
        then "."
        else fold_left join (repeat ".." (up - down) ++ a) ""
    end.

(** [path::parent_path]: the path itself when it has no relative part,
    otherwise the path with one element fewer. *)
Definition parent_path (s : string) : string :=
  match names s with
  | [] => s
  | _ =>
      if trailing s then render (is_absolute s) (names s) false
      else render (is_absolute s) (removelast (names s)) false
  end.

Definition has_parent_path (s : string) : bool := nonempty (parent_path s).

(** The limits of the platform on a path component and on a whole path
    ([NAME_MAX] and [PATH_MAX] of POSIX, with the values of Linux). *)
Definition NAME_MAX : nat := 255.
Definition PATH_MAX : nat := 4096.

(** A component over the limit. *)
Definition long_name (c : string) : bool := Nat.ltb NAME_MAX (String.length c).

End Path.

(* ================================================================== *)
(** ** The disk *)

(** A filesystem entry: a regular file with its bytes, or a directory with
    its entries in enumeration order. *)
Inductive node : Type :=
| File (content : list byte)
| Dir (entries : list (string * node)).


(** The state the operating system holds: the entries of the root directory
    and the current working directory as a list of names from the root. *)
Record disk : Type := mkDisk {
  top : list (string * node);
  cwd : list string
}.

Module Disk.

Import Path.

Fixpoint find_entry (name : string) (es : list (string * node)) : option node :=
  match es with
  | [] => None
  | (n, x) :: rest => if n =? name then Some x else find_entry name rest
  end.

Fixpoint set_entry (name : string) (v : node) (es : list (string * node))
  : list (string * node) :=
  match es with
  | [] => [(name, v)]
  | (n, x) :: rest =>
      if n =? name then (n, v) :: rest else (n, x) :: set_entry name v rest
  end.

Fixpoint del_entry (name : string) (es : list (string * node))
  : list (string * node) :=
  match es with
  | [] => []
  | (n, x) :: rest =>
      if n =? name then rest else (n, x) :: del_entry name rest
  end.

(** The entry reached from [n] by a list of names. *)
Fixpoint lookup (n : node) (p : list string) : option node :=
  match p with
  | [] => Some n
  | c :: p' =>
      match n with
      | Dir es =>
          match find_entry c es with
          | Some m => lookup m p'
          | None => None
          end
      | File _ => None
      end
  end.

(** Change the entries of the directory at [p]. *)
Fixpoint update (n : node) (p : list string)
    (f : list (string * node) -> list (string * node)) : node :=
  match p with
  | [] => match n with Dir es => Dir (f es) | File _ => n end
  | c :: p' =>
      match n with
      | Dir es =>
          match find_entry c es with
          | Some m => Dir (set_entry c (update m p' f) es)
          | None => n
          end
      | File _ => n
      end
  end.

Definition root_node (d : disk) : node := Dir (top d).

Definition skip_segment (c : string) : bool := (c =? "") || is_dot c.

(** Pathname resolution: from the directory [cur], follow the segments.
    Every segment is looked up in a directory; an empty segment and a dot
    stay, a dot-dot goes to the parent (the root is its own parent). *)
Fixpoint walk (t : node) (cur : list string) (segs : list string)
  : option (list string) :=
  match segs with
  | [] => Some cur
  | c :: rest =>
      match lookup t cur with
      | Some (Dir _) =>
          if skip_segment c then walk t cur rest
          else if is_dotdot c then walk t (removelast cur) rest
          else match lookup t (cur ++ [c]) with
               | Some _ => walk t (cur ++ [c]) rest
               | None => None
               end
      | _ => None
      end
  end.

Definition start (d : disk) (s : string) : list string :=
  if is_absolute s then [] else cwd d.

(** The location a path string names, when it names an existing entry. *)
Definition resolve (d : disk) (s : string) : option (list string) :=
  if s =? "" then None else walk (root_node d) (start d s) (split s).

(** The errors of pathname resolution. *)
Inductive errno : Type := ENOENT | ENOTDIR | ENAMETOOLONG.

Definition strerror (e : errno) : string :=
  match e with
  | ENOENT => "No such file or directory"
  | ENOTDIR => "Not a directory"
  | ENAMETOOLONG => "File name too long"
  end.

(** The error that stops [walk], when one does: [ENOTDIR] when a segment is
    looked up in an entry that is not a directory; when the directory has no
    entry of that name, [ENAMETOOLONG] for a name over the limit and
    [ENOENT] otherwise.  (A directory of a real disk has no entry with a name
    over the limit, see [wf_node].) *)
Fixpoint walk_error (t : node) (cur : list string) (segs : list string)
  : option errno :=
  match segs with
  | [] => None
  | c :: rest =>
      match lookup t cur with
      | Some (Dir _) =>
          if skip_segment c then walk_error t cur rest
          else if is_dotdot c then walk_error t (removelast cur) rest
          else match lookup t (cur ++ [c]) with
               | Some _ => walk_error t (cur ++ [c]) rest
               | None => Some (if long_name c then ENAMETOOLONG else ENOENT)
               end
      | Some (File _) => Some ENOTDIR
      | None => Some ENOENT
      end
  end.

(** The error of resolving a path string; the empty path is [ENOENT]. *)
Definition resolve_error (d : disk) (s : string) : option errno :=
  if s =? "" then Some ENOENT
  else walk_error (root_node d) (start d s) (split s).

(** [std::filesystem::status]: the entry, or nothing ([file_type::not_found]). *)
Definition status (d : disk) (s : string) : option node :=
  match resolve d s with
  | Some c => lookup (root_node d) c
  | None => None
  end.

(** [std::filesystem::exists]. *)
Definition fs_exists (d : disk) (s : string) : bool :=
  match status d s with Some _ => true | None => false end.

(** [std::filesystem::is_directory]. *)
Definition is_directory (d : disk) (s : string) : bool :=
  match status d s with Some (Dir _) => true | _ => false end.

Definition is_file (n : node) : bool :=
  match n with File _ => true | Dir _ => false end.

(** What a [filesystem_error] of a name over the limit says. *)
Definition what_too_long : string :=
  "filesystem error: " ++ strerror ENAMETOOLONG.

(** [status(p)] without an error code throws on every error of resolution
    other than a missing entry ([ENOENT], [ENOTDIR]): here, on a component
    over the limit. *)
Definition status_throws (d : disk) (s : string) : bool :=
  match resolve_error d s with
  | Some ENAMETOOLONG => true
  | _ => false
  end.

(** [std::filesystem::exists(p)], the overload that throws. *)
Definition exists_or_throw (d : disk) (s : string) : outcome bool :=
  if status_throws d s then Throws what_too_long
  else Returns (fs_exists d s).

(** [std::filesystem::is_directory(p)], the overload that throws. *)
Definition is_directory_or_throw (d : disk) (s : string) : outcome bool :=
  if status_throws d s then Throws what_too_long
  else Returns (is_directory d s).

(** The loop of [weakly_canonical] that finds the leading elements of the
    path that exist: [result] is the path built so far. *)
Fixpoint existing_prefix (d : disk) (result : string) (els : list string)
  : string * list string :=
  match els with
  | [] => (result, [])
  | e :: rest =>
      let tmp := join result e in
      if fs_exists d tmp then existing_prefix d tmp rest else (result, els)
  end.

(** [std::filesystem::weakly_canonical(p)] throws when the status of the
    path cannot be told: the string is as long as [PATH_MAX] or longer, or
    resolution reaches a component over [NAME_MAX] in a directory that
    exists.  (The statuses of the leading elements, which the loop asks for,
    stop at the same component as the status of the whole path.) *)
Definition weakly_canonical_throws (d : disk) (p : string) : bool :=
  Nat.leb PATH_MAX (String.length p) || status_throws d p.

(** What [std::filesystem::weakly_canonical] returns when it returns:
    [canonical] of the whole path when it exists; otherwise [canonical] of
    the leading elements that exist, followed by the other elements, in
    normal form. *)
Definition weakly_canonical (d : disk) (p : string) : string :=
  match resolve d p with
  | Some c => render_abs c
  | None =>
      let (r, rest) := existing_prefix d "" (elements p) in
      let r' := match resolve d r with
                | Some c => render_abs c
                | None => r
                end in
      lexically_normal (fold_left join rest r')
  end.

(** [std::filesystem::relative]. *)
Definition relative (d : disk) (p base : string) : string :=
  lexically_relative (weakly_canonical d p) (weakly_canonical d base).

(** [create_directory] for every element that does not exist, from the
    first one down: the tree once the call is over, and the error that
    stopped it.  The directories created before the error stay. *)
Fixpoint mkdirs (t : node) (cur : list string) (segs : list string)
  : node * result unit :=
  match segs with
  | [] => (t, Ok tt)
  | c :: rest =>
      match lookup t cur with
      | Some (Dir _) =>
          if skip_segment c then mkdirs t cur rest
          else if is_dotdot c then mkdirs t (removelast cur) rest
          else match lookup t (cur ++ [c]) with
               | Some (Dir _) => mkdirs t (cur ++ [c]) rest
               | Some (File _) => (t, Err (strerror ENOTDIR))
               | None =>
                   if long_name c then (t, Err (strerror ENAMETOOLONG))
                   else mkdirs (update t cur (set_entry c (Dir [])))
                               (cur ++ [c]) rest
               end
      | Some (File _) => (t, Err (strerror ENOTDIR))
      | None => (t, Err (strerror ENOENT))
      end
  end.

(** The number of elements [create_directories] finds missing: the names
    of the path after the last one that names an entry.  (The path is in
    normal form wherever the accessor calls [create_directories].) *)
Fixpoint missing (t : node) (cur : list string) (segs : list string) : nat :=
  match segs with
  | [] => 0
  | c :: rest =>
      if skip_segment c then missing t cur rest
      else if is_dotdot c then missing t (removelast cur) rest
      else match lookup t (cur ++ [c]) with
           | Some _ => missing t (cur ++ [c]) rest
           | None => List.length (filter plain_name (c :: rest))
           end
  end.

(** libstdc++ gives up with [ENAMETOOLONG] when more directories than this
    are missing. *)
Definition MAX_MISSING : nat := 1000.

Definition with_top (d : disk) (t : node) : disk :=
  match t with
  | Dir es => mkDisk es (cwd d)
  | File _ => d
  end.

(** The number of directories that are missing on the way to a path. *)
Definition missing_directories (d : disk) (s : string) : nat :=
  missing (root_node d) (start d s) (split s).

(** [std::filesystem::create_directories(p, ec)], as libstdc++ implements
    it: the missing elements are collected from the last one up, with an
    error and nothing created when there are more than [MAX_MISSING]; then
    they are created from the first one down.  The result is the disk after
    the call and the message of the error code, if it is set. *)
Definition create_directories (d : disk) (s : string) : disk * result unit :=
  if s =? "" then (d, Err "Invalid argument")
  else if Nat.ltb MAX_MISSING (missing_directories d s)
  then (d, Err (strerror ENAMETOOLONG))
  else
    let (t, r) := mkdirs (root_node d) (start d s) (split s) in
    (with_top d t, r).

(** What becomes of the bytes given to an output stream that opened: all of
    them reach the file; or [file.write] reports a failure after [kept]
    bytes; or [file.write] reports nothing, and only [kept] bytes reach the
    file when the destructor of the stream flushes it (the accessor returns
    before that, and the destructor reports no error).  Which one it is, is
    up to the device, not to the program. *)
Inductive stream_fate : Type :=
| Stored
| Failed (kept : nat)
| Lost (kept : nat).

(** The bytes that reach the file. *)
Definition stored_bytes (fate : stream_fate) (content : list byte)
  : list byte :=
  match fate with
  | Stored => content
  | Failed kept | Lost kept => firstn kept content
  end.

(** The test of [file.write]: it fails when the stream reports that some
    byte did not go through. *)
Definition write_fails (fate : stream_fate) (content : list byte) : bool :=
  match fate with
  | Failed kept => Nat.ltb kept (List.length content)
  | _ => false
  end.

(** [std::ofstream file{p, binary | trunc}] and the bytes that reach the
    file: the file is created, or replaced and so emptied first, in an
    existing directory, and holds [reached] once the stream is gone; nothing
    happens when the stream cannot be opened, which is the case on a
    directory, on a name that is no filename, in a directory that does not
    exist, and for a new name over the limit. *)
Definition write_file (d : disk) (s : string) (reached : list byte)
  : option disk :=
  if s =? "" then None
  else
    let segs := split s in
    let name := last segs "" in
    if negb (plain_name name) then None
    else
      match walk (root_node d) (start d s) (removelast segs) with
      | Some pc =>
          match lookup (root_node d) pc, lookup (root_node d) (pc ++ [name]) with
          | Some (Dir _), Some (Dir _) => None
          | Some (Dir _), Some (File _) =>
              Some (with_top d
                      (update (root_node d) pc (set_entry name (File reached))))
          | Some (Dir _), None =>
              if long_name name then None
              else
                Some (with_top d
                        (update (root_node d) pc
                                (set_entry name (File reached))))
          | _, _ => None
          end
      | None => None
      end.

(** [std::filesystem::remove(p, ec)], as libstdc++ and libc++ implement it:
    POSIX [remove] is called on the path; when it succeeds the answer is
    [true]; when it fails with [ENOENT] there was nothing to remove, the
    error code is cleared and the answer is [false]; every other error is
    left in the error code.  So a path that runs through a regular file is
    an error ([ENOTDIR]), and so are a component over the limit
    ([ENAMETOOLONG]), a directory that is not empty, a final dot or dot-dot,
    and the root.  The result is [Ok true] when an entry was
    removed, [Ok false] when there was none, and the message of the error
    code otherwise. *)
Definition fs_remove (d : disk) (s : string) : disk * result bool :=
  match resolve d s with
  | None =>
      match resolve_error d s with
      | Some ENOTDIR => (d, Err (strerror ENOTDIR))
      | Some ENAMETOOLONG => (d, Err (strerror ENAMETOOLONG))
      | _ => (d, Ok false)
      end
  | Some c =>
      let name := last (split s) "" in
      if is_dot name then (d, Err "Invalid argument")
      else if is_dotdot name then (d, Err "Directory not empty")
      else
        match c, lookup (root_node d) c with
        | [], _ => (d, Err "Device or resource busy")
        | _, Some (Dir (_ :: _)) => (d, Err "Directory not empty")
        | _, _ =>
            (with_top d
               (update (root_node d) (removelast c) (del_entry (last c ""))),
             Ok true)
        end
  end.

(** The entries [directory_iterator] enumerates: each child of the
    directory, as the path of the directory joined with the child's name. *)
Definition dir_entries (dir : string) (es : list (string * node))
  : list (string * node) :=
  map (fun e => (join dir (fst e), snd e)) es.

(** The entries [recursive_directory_iterator] enumerates: each child,
    followed by the enumeration of the child when it is a directory. *)
Fixpoint tree_entries (dir : string) (n : node) {struct n}
  : list (string * node) :=
  match n with
  | File _ => []
  | Dir es =>
      (fix go (es : list (string * node)) : list (string * node) :=
         match es with
         | [] => []
         | (name, c) :: rest =>
             (join dir name, c) :: tree_entries (join dir name) c ++ go rest
         end) es
  end.

(** [std::filesystem::file_size(p, ec)]: the number of bytes of a regular
    file.  A directory is the error [EISDIR]; a path that names nothing is
    the error of its resolution. *)
Definition file_size (d : disk) (s : string) : result nat :=
  match status d s with
  | Some (File bytes) => Ok (List.length bytes)
  | Some (Dir _) => Err "Is a directory"
  | None =>
      match resolve_error d s with
      | Some e => Err (strerror e)
      | None => Err (strerror ENOENT)
      end
  end.

End Disk.

(* ================================================================== *)
(** ** The accessor: [class Filesystem] of [fs.cpp] *)

Module Filesystem.

Import Path Disk.

(** The object: its only member is the root, fixed by the constructor. *)
Record t : Type := new { m_Root : string }.

(** [Filesystem::validate_path] (fs.cpp, lines 11 to 27).  The call of
    [fs::weakly_canonical] on line 19 is the overload that throws, and
    nothing catches the exception.  (The definition follows the source on
    strings without a NUL byte; see the head of the file.) *)
Definition validate_path (self : t) (d : disk) (relative_path : string)
  : outcome (result string) :=
  if relative_path =? "" then Returns (Err "Empty path")
  else
    let abs_path := join (m_Root self) relative_path in
    if weakly_canonical_throws d abs_path then Throws what_too_long
    else
      let abs_path := weakly_canonical d abs_path in
      let root_str := m_Root self in
      let abs_str := abs_path in
      if Nat.ltb (String.length abs_str) (String.length root_str)
         || negb (substring 0 (String.length root_str) abs_str =? root_str)
      then Returns (Err "Path escapes root directory")
      else Returns (Ok abs_path).

(** [Filesystem::exists] (lines 29 to 34); [exists] is a keyword here.  An
    error value of [validate_path] becomes [false]; an exception of
    [validate_path], or of [fs::exists] on line 33, leaves the function. *)
Definition exists_ (self : t) (d : disk) (relative_path : string)
  : outcome bool :=
  match validate_path self d relative_path with
  | Throws what => Throws what
  | Returns (Err _) => Returns false
  | Returns (Ok path) => exists_or_throw d path
  end.

(** [Filesystem::read] (lines 36 to 52).  The stream opens on any existing
    entry; [fs::file_size] without an error code throws on a directory; the
    stream then delivers [size] bytes or fewer. *)
Definition read (self : t) (d : disk) (relative_path : string)
  : outcome (result (list byte)) :=
  match validate_path self d relative_path with
  | Throws what => Throws what
  | Returns (Err e) => Returns (Err e)
  | Returns (Ok path) =>
      match status d path with
      | None => Returns (Err ("Failed to open file: " ++ path))
      | Some (Dir _) => Throws "filesystem error: cannot get file size"
      | Some (File bytes) =>
          let size := List.length bytes in
          let content := firstn size bytes in
          if Nat.eqb (List.length content) size
          then Returns (Ok content)
          else Returns (Err "Failed to read file")
      end
  end.

(** [Filesystem::write] on bytes (lines 63 to 85): the directories of the
    parent path are created, the stream is opened, which empties the file,
    the bytes are given to the stream, and the function returns success
    unless [file.write] reports a failure; the stream is flushed and closed
    by its destructor after that.  [fate] is what the device makes of the
    bytes. *)
Definition write (self : t) (d : disk) (relative_path : string)
    (content : list byte) (fate : stream_fate)
  : disk * outcome (result unit) :=
  match validate_path self d relative_path with
  | Throws what => (d, Throws what)
  | Returns (Err e) => (d, Returns (Err e))
  | Returns (Ok abs_path) =>
      let (d1, made) :=
        if has_parent_path abs_path
        then create_directories d (parent_path abs_path)
        else (d, Ok tt) in
      match made with
      | Err m => (d1, Returns (Err ("Failed to create directories: " ++ m)))
      | Ok _ =>
          match write_file d1 abs_path (stored_bytes fate content) with
          | None =>
              (d1, Returns (Err ("Failed to open file for writing: "
                                   ++ abs_path)))
          | Some d2 =>
              if write_fails fate content
              then (d2, Returns (Err "Failed to write file"))
              else (d2, Returns (Ok tt))
          end
      end
  end.

(** [Filesystem::remove] (lines 92 to 105). *)
Definition remove (self : t) (d : disk) (relative_path : string)
  : disk * outcome (result unit) :=
  match validate_path self d relative_path with
  | Throws what => (d, Throws what)
  | Returns (Err e) => (d, Returns (Err e))
  | Returns (Ok path) =>
      match fs_remove d path with
      | (d', Err m) => (d', Returns (Err ("Failed to remove file: " ++ m)))
      | (d', Ok _) => (d', Returns (Ok tt))
      end
  end.

(** The first lines of both listings (lines 152 to 161): the directory the
    argument names. *)
Definition listing_target (self : t) (d : disk) (relative_dir : string)
  : outcome (result string) :=
  if relative_dir =? "" then Returns (Ok (m_Root self))
  else validate_path self d relative_dir.

(** The children of the directory a path names. *)
Definition children (d : disk) (dir_path : string) : list (string * node) :=
  match status d dir_path with
  | Some (Dir es) => es
  | _ => []
  end.

(** [Filesystem::list] (lines 151 to 183).  [fs::exists] and
    [fs::is_directory] on lines 162 and 165 are the overloads that throw.
    On a directory that exists neither the iterator nor [fs::relative] sets
    the error code, so the two tests of [ec] do not fire. *)
Definition list (self : t) (d : disk) (relative_dir : string)
  : outcome (result (Datatypes.list string)) :=
  match listing_target self d relative_dir with
  | Throws what => Throws what
  | Returns (Err e) => Returns (Err e)
  | Returns (Ok dir_path) =>
      match exists_or_throw d dir_path with
      | Throws what => Throws what
      | Returns false => Returns (Ok [])
      | Returns true =>
          match is_directory_or_throw d dir_path with
          | Throws what => Throws what
          | Returns false => Returns (Err "Not a directory")
          | Returns true =>
              Returns
                (Ok (map (fun entry => relative d (fst entry) (m_Root self))
                         (dir_entries dir_path (children d dir_path))))
          end
      end
  end.

(** [Filesystem::list_recursive] (lines 185 to 218). *)
Definition list_recursive (self : t) (d : disk) (relative_dir : string)
  : outcome (result (Datatypes.list string)) :=
  match listing_target self d relative_dir with
  | Throws what => Throws what
  | Returns (Err e) => Returns (Err e)
  | Returns (Ok dir_path) =>
      match exists_or_throw d dir_path with
      | Throws what => Throws what
      | Returns false => Returns (Ok [])
      | Returns true =>
          match is_directory_or_throw d dir_path with
          | Throws what => Throws what
          | Returns false => Returns (Err "Not a directory")
          | Returns true =>
              Returns
                (Ok (map (fun entry => relative d (fst entry) (m_Root self))
                         (filter (fun entry => is_file (snd entry))
                                 (tree_entries dir_path
                                               (Dir (children d dir_path))))))
          end
      end
  end.

(** [Filesystem::absolute] (line 233). *)
Definition absolute (self : t) (relative_path : string) : string :=
  join (m_Root self) relative_path.

(** [Filesystem::root] (fs.h, line 17). *)
Definition root (self : t) : string := m_Root self.

(** [Filesystem::read_string] (lines 54 to 61): the bytes [read] returns,
    each as one character. *)
Definition read_string (self : t) (d : disk) (relative_path : string)
  : outcome (result string) :=
  match read self d relative_path with
  | Throws what => Throws what
  | Returns (Err e) => Returns (Err e)
  | Returns (Ok bytes) => Returns (Ok (string_of_list_byte bytes))
  end.

(** [Filesystem::write] on a string (lines 87 to 90): the characters, each
    as one byte, go to [write]. *)
Definition write_string (self : t) (d : disk) (relative_path : string)
    (content : string) (fate : stream_fate)
  : disk * outcome (result unit) :=
  let bytes := list_byte_of_string content in
  write self d relative_path bytes fate.

(** [Filesystem::size] (lines 107 to 118). *)
Definition size (self : t) (d : disk) (relative_path : string)
  : outcome (result nat) :=
  match validate_path self d relative_path with
  | Throws what => Throws what
  | Returns (Err e) => Returns (Err e)
  | Returns (Ok path) =>
      match file_size d path with
      | Err m => Returns (Err ("Failed to get file size: " ++ m))
      | Ok sz => Returns (Ok sz)
      end
  end.

(** [Filesystem::mkdir] (lines 220 to 231).  The text of an error code is
    the platform's; the statements about [mkdir] use only that the result is
    an error. *)
Definition mkdir (self : t) (d : disk) (relative_path : string)
  : disk * outcome (result unit) :=
  match validate_path self d relative_path with
  | Throws what => (d, Throws what)
  | Returns (Err e) => (d, Returns (Err e))
  | Returns (Ok path) =>
      match create_directories d path with
      | (d', Err m) => (d', Returns (Err ("Failed to create directory: " ++ m)))
      | (d', Ok _) => (d', Returns (Ok tt))
      end
  end.

End Filesystem.

(* ================================================================== *)
(** ** Notions used in the statements *)

Module Spec.

Import Path Disk.

(** A string without a separator. *)
Fixpoint no_sep (s : string) : bool :=
  match s with
  | EmptyString => true
  | String c r => negb (Ascii.eqb c sep) && no_sep r
  end.

(** A name a directory entry can have: not empty, not a dot or a dot-dot,
    and free of separators. *)
Definition valid_name (n : string) : bool := plain_name n && no_sep n.

(** A filename as path iteration yields it: not empty and free of
    separators; it may be a dot or a dot-dot. *)
Definition segment_name (n : string) : bool := nonempty n && no_sep n.

(** Lexical resolution of one segment from the location [cur]. *)
Definition lex_step (cur : list string) (c : string) : list string :=
  if skip_segment c then cur
  else if is_dotdot c then removelast cur
  else cur ++ [c].

Definition lex (cur : list string) (segs : list string) : list string :=
  fold_left lex_step segs cur.

(** The location an absolute path string denotes: its names from the root
    once the dots and dot-dots are resolved. *)
Definition location (s : string) : list string := lex [] (split s).

(** [is_prefix a b]: the list [a] starts the list [b]. *)
Fixpoint is_prefix (a b : list string) : bool :=
  match a, b with
  | [], _ => true
  | x :: a', y :: b' => (x =? y) && is_prefix a' b'
  | _ :: _, [] => false
  end.

(** Containment by location: the candidate is the root directory or lies
    below it. *)
Definition inside (root candidate : string) : bool :=
  is_prefix (location root) (location candidate).

(** Containment as section 4.1 words it, on the two strings: equality, or
    the root's string followed by a separator starts the candidate. *)
Definition contained (root_str abs_str : string) : bool :=
  (abs_str =? root_str) || prefix (root_str ++ "/") abs_str.

(** The root is given in canonical form and names a directory of the disk. *)
Definition canonical_root (d : disk) (root : string) (rc : list string) : Prop :=
  root = render_abs rc
  /\ Forall (fun n => valid_name n = true) rc
  /\ exists es, lookup (root_node d) rc = Some (Dir es).

(** A name a directory entry has on a disk (POSIX adds the limit on its
    length to what [valid_name] asks). *)
Definition entry_name (n : string) : bool := valid_name n && negb (long_name n).

(** Directory entries have names that an entry can have, and no two entries
    of a directory share a name. *)
Inductive wf_node : node -> Prop :=
| wf_File : forall content, wf_node (File content)
| wf_Dir : forall es,
    NoDup (map fst es) ->
    Forall (fun e => entry_name (fst e) = true) es ->
    Forall (fun e => wf_node (snd e)) es ->
    wf_node (Dir es).

Definition wf_disk (d : disk) : Prop := wf_node (root_node d).

(** A string without a NUL byte. *)
Fixpoint no_nul (s : string) : bool :=
  match s with
  | EmptyString => true
  | String c r => negb (Ascii.eqb c Ascii.zero) && no_nul r
  end.

(** A path string within the limits of the platform, which the operating
    system reads as it stands: it is shorter than [PATH_MAX], none of its
    components is over [NAME_MAX], and it holds no NUL byte. *)
Definition within_limits (s : string) : bool :=
  Nat.ltb (String.length s) PATH_MAX
  && forallb (fun c => negb (long_name c)) (split s)
  && no_nul s.


(** What a lookup tells apart: nothing, a regular file with its bytes, a
    directory. *)
Definition entry_kind (o : option node) : option (option (list byte)) :=
  match o with
  | None => None
  | Some (File content) => Some (Some content)
  | Some (Dir _) => Some None
  end.




(** [sibling_extension rc l]: the location [l] is, or lies below, a sibling
    of the location [rc] whose name starts with the last name of [rc] and
    goes on after it. *)
Definition sibling_extension (rc l : list string) : Prop :=
  exists pre n n' rest,
    rc = pre ++ [n] /\ l = pre ++ n' :: rest
    /\ prefix n n' = true /\ n' <> n.

(** [keeps t t']: every entry of [t] is still in [t'], under the same names
    and of the same kind, a regular file with the same bytes. *)
Definition keeps (t t' : node) : Prop :=
  forall q, lookup t q <> None ->
            entry_kind (lookup t' q) = entry_kind (lookup t q).

(** A disk for the examples: the root [/a/b] with a file and a
    subdirectory, two siblings of the root whose names start like the
    root's, and [/etc/passwd]. *)
Definition sample_disk : disk :=
  mkDisk
    [("a", Dir [("b", Dir [("x.txt", File [x00; x01]);
                           ("sub", Dir [("y", File [])])]);
                ("b-evil", Dir [("secret", File [x41])]);
                ("bc", Dir [])]);
     ("etc", Dir [("passwd", File [x42])])]
    [].


(** A name of 256 bytes, one over the limit. *)
Definition name_of_256 : string := string_of_list_ascii (repeat "n"%char 256).

(** Well-formedness of a concrete tree, by its constructors. *)
Ltac solve_wf :=
  repeat first
    [ apply wf_File | apply wf_Dir | apply NoDup_cons | apply NoDup_nil
    | apply Forall_cons | apply Forall_nil | reflexivity
    | (simpl; intuition discriminate) ].

End Spec.

(* ================================================================== *)
(** ** Lemmas on path strings *)

Section PathStrings.

Import Path Spec.

Lemma append_empty_r (s : string) : (s ++ "")%string = s.
Proof. induction s as [|c s IH]; simpl; [reflexivity | now rewrite IH]. Qed.

Lemma append_assoc (a b c : string) :
  ((a ++ b) ++ c)%string = (a ++ (b ++ c))%string.
Proof. induction a as [|x a IH]; simpl; [reflexivity | now rewrite IH]. Qed.

Lemma split_not_nil (s : string) : split s <> [].
Proof.
  induction s as [|c s IH]; simpl; [discriminate|].
  destruct (Ascii.eqb c sep); [discriminate|].
  destruct (split s); discriminate.
Qed.

Lemma split_app_sep (a b : string) :
  split (a ++ String sep b)%string = split a ++ split b.
Proof.
  induction a as [|c a IH]; simpl.
  - reflexivity.
  - rewrite IH. destruct (Ascii.eqb c sep); [reflexivity|].
    destruct (split a) eqn:E; [now apply split_not_nil in E | reflexivity].
Qed.

Lemma split_no_sep (s : string) : no_sep s = true -> split s = [s].
Proof.
  induction s as [|c s IH]; simpl; [reflexivity|].
  intros H. apply andb_true_iff in H as [Hc Hs].
  apply negb_true_iff in Hc. rewrite Hc, (IH Hs). reflexivity.
Qed.

Lemma split_segments (s : string) : Forall (fun x => no_sep x = true) (split s).
Proof.
  induction s as [|c s IH]; simpl.
  - constructor; [reflexivity | constructor].
  - destruct (Ascii.eqb c sep) eqn:E.
    + constructor; [reflexivity | exact IH].
    + destruct (split s) as [|h t]; inversion IH; subst;
        constructor; simpl; try rewrite E; auto.
Qed.

Lemma concat_cons2 (x y : string) (r : list string) :
  String.concat "/" (x :: y :: r)
  = (x ++ String sep (String.concat "/" (y :: r)))%string.
Proof. reflexivity. Qed.

Lemma split_concat (ns : list string) :
  ns <> [] -> Forall (fun x => no_sep x = true) ns ->
  split (String.concat "/" ns) = ns.
Proof.
  induction ns as [|x r IH]; [congruence|]. intros _ H.
  inversion H as [|? ? Hx Hr]; subst.
  destruct r as [|y r].
  - simpl. now apply split_no_sep.
  - rewrite concat_cons2, split_app_sep, (split_no_sep _ Hx), IH;
      [reflexivity | discriminate | exact Hr].
Qed.

Lemma concat_split (s : string) : String.concat "/" (split s) = s.
Proof.
  induction s as [|c s IH]; [reflexivity|]. simpl.
  destruct (Ascii.eqb c sep) eqn:E.
  - apply Ascii.eqb_eq in E. subst c.
    destruct (split s) as [|h t] eqn:Es; [now apply split_not_nil in Es|].
    change (String.concat "/" ("" :: h :: t))
      with (String sep (String.concat "/" (h :: t))).
    now rewrite IH.
  - destruct (split s) as [|h t] eqn:Es; [now apply split_not_nil in Es|].
    destruct t as [|h' t]; simpl in *; now rewrite <- IH.
Qed.

Lemma valid_name_no_sep (n : string) : valid_name n = true -> no_sep n = true.
Proof. unfold valid_name. intros H. now apply andb_true_iff in H. Qed.

Lemma valid_name_plain (n : string) : valid_name n = true -> plain_name n = true.
Proof. unfold valid_name. intros H. now apply andb_true_iff in H. Qed.

Lemma plain_name_inv (n : string) :
  plain_name n = true ->
  (n =? "") = false /\ is_dot n = false /\ is_dotdot n = false.
Proof.
  unfold plain_name, nonempty. intros H.
  apply andb_true_iff in H as [H H3]. apply andb_true_iff in H as [H1 H2].
  repeat split; now apply negb_true_iff.
Qed.

Lemma plain_name_not_skip (n : string) :
  plain_name n = true -> Disk.skip_segment n = false /\ is_dotdot n = false.
Proof.
  intros H. destruct (plain_name_inv n H) as (H1 & H2 & H3).
  unfold Disk.skip_segment. now rewrite H1, H2.
Qed.

Lemma Forall_valid_no_sep (ns : list string) :
  Forall (fun n => valid_name n = true) ns ->
  Forall (fun x => no_sep x = true) ns.
Proof.
  intros H. eapply Forall_impl; [|exact H]. intros; now apply valid_name_no_sep.
Qed.

Lemma render_abs_eq (ns : list string) :
  render_abs ns = String sep (String.concat "/" ns).
Proof. unfold render_abs, render. simpl. now rewrite append_empty_r. Qed.

Lemma render_trail_eq (ns : list string) :
  render true ns true = String sep (String.concat "/" ns ++ "/")%string.
Proof. reflexivity. Qed.

Lemma split_render_abs (ns : list string) :
  ns <> [] -> Forall (fun x => no_sep x = true) ns ->
  split (render_abs ns) = "" :: ns.
Proof.
  intros Hn H. rewrite render_abs_eq. simpl. now rewrite split_concat.
Qed.

Lemma split_render_trail (ns : list string) :
  ns <> [] -> Forall (fun x => no_sep x = true) ns ->
  split (render true ns true) = "" :: ns ++ [""].
Proof.
  intros Hn H. rewrite render_trail_eq. simpl.
  change (String.concat "/" ns ++ "/")%string
    with (String.concat "/" ns ++ String sep "")%string.
  now rewrite split_app_sep, split_concat.
Qed.

(** The examples the C++ standard and the usual references give for the
    lexical operations. *)
Example operator_join_examples :
  join "foo" "" = "foo/"
  /\ join "foo" "/bar" = "/bar"
  /\ join "/a/b" "x/y" = "/a/b/x/y"
  /\ join "/a/b/" "x" = "/a/b/x"
  /\ join "" "x" = "x"
  /\ join "/" "x" = "/x".
Proof. repeat split. Qed.

Example elements_examples :
  elements "/a//b/" = ["/"; "a"; "b"; ""]
  /\ elements "a/b" = ["a"; "b"]
  /\ elements "/" = ["/"]
  /\ elements "" = [].
Proof. repeat split. Qed.

Example lexically_normal_examples :
  map lexically_normal
    ["a/./b/.."; "a/.///b/../"; "foo/./bar/.."; "foo/.///bar/../";
     "/a/b/../bc"; "/a/b/."; "/.."; "a/../.."; "./"; ""]
  = ["a/"; "a/"; "foo/"; "foo/"; "/a/bc"; "/a/b/"; "/"; ".."; "."; ""].
Proof. reflexivity. Qed.

Example lexically_relative_examples :
  lexically_relative "/a/d" "/a/b/c" = "../../d"
  /\ lexically_relative "/a/b/c" "/a/d" = "../b/c"
  /\ lexically_relative "a/b/c" "a" = "b/c"
  /\ lexically_relative "a/b/c" "a/b/c/x/y" = "../.."
  /\ lexically_relative "a/b/c" "a/b/c" = "."
  /\ lexically_relative "a/b" "c/d" = "../../a/b"
  /\ lexically_relative "a/b" "/a/b" = "".
Proof. repeat split. Qed.

Example parent_path_examples :
  parent_path "/var/tmp/example.txt" = "/var/tmp"
  /\ parent_path "/" = "/"
  /\ parent_path "/var/tmp/." = "/var/tmp"
  /\ has_parent_path "example.txt" = false.
Proof. repeat split. Qed.

End PathStrings.

(* ================================================================== *)
(** ** Lemmas on the disk tree and on pathname resolution *)

Section Resolution.

Import Path Disk Spec.

Lemma lookup_app (t : node) (a b : list string) :
  lookup t (a ++ b) =
  match lookup t a with Some n => lookup n b | None => None end.
Proof.
  revert t. induction a as [|c a IH]; intros t; simpl; [reflexivity|].
  destruct t as [?|es]; [reflexivity|].
  destruct (find_entry c es); [apply IH | reflexivity].
Qed.

Lemma lookup_below_dir (t : node) (a b : list string) (x : node) :
  b <> [] -> lookup t (a ++ b) = Some x ->
  exists es, lookup t a = Some (Dir es).
Proof.
  intros Hb H. rewrite lookup_app in H.
  destruct (lookup t a) as [[?|es]|]; try discriminate.
  - destruct b; [congruence | discriminate].
  - now exists es.
Qed.

Lemma lookup_removelast_dir (t : node) (cur : list string) (es : list (string * node)) :
  lookup t cur = Some (Dir es) ->
  exists es', lookup t (removelast cur) = Some (Dir es').
Proof.
  intros H. destruct cur as [|c cur] using rev_ind; [now exists es|].
  rewrite removelast_last. eapply lookup_below_dir; [|exact H]. discriminate.
Qed.

Lemma walk_app (t : node) (xs ys cur : list string) :
  walk t cur (xs ++ ys) =
  match walk t cur xs with Some c => walk t c ys | None => None end.
Proof.
  revert cur. induction xs as [|x xs IH]; intros cur; simpl; [reflexivity|].
  destruct (lookup t cur) as [[?|es]|]; try reflexivity.
  destruct (skip_segment x); [apply IH|].
  destruct (is_dotdot x); [apply IH|].
  destruct (lookup t (cur ++ [x])); [apply IH | reflexivity].
Qed.

(** In a tree without links the physical resolution, when it succeeds,
    ends where the lexical one does. *)
Lemma walk_lex (t : node) (segs cur c : list string) :
  walk t cur segs = Some c -> c = lex cur segs.
Proof.
  revert cur. induction segs as [|x segs IH]; intros cur; simpl.
  - congruence.
  - unfold lex in *. simpl. unfold lex_step at 2.
    destruct (lookup t cur) as [[?|es]|]; try discriminate.
    destruct (skip_segment x); [apply IH|].
    destruct (is_dotdot x); [apply IH|].
    destruct (lookup t (cur ++ [x])); [apply IH | discriminate].
Qed.

Lemma walk_exists (t : node) (segs cur c : list string) :
  walk t cur segs = Some c ->
  (exists x, lookup t cur = Some x) ->
  exists y, lookup t c = Some y.
Proof.
  revert cur. induction segs as [|x segs IH]; intros cur; simpl.
  - intros H. now inversion H; subst.
  - intros H _.
    destruct (lookup t cur) as [[?|es]|] eqn:Hc; try discriminate.
    destruct (skip_segment x); [apply (IH cur H); eauto|].
    destruct (is_dotdot x).
    + apply (IH _ H). destruct (lookup_removelast_dir _ _ _ Hc) as [es' He].
      eauto.
    + destruct (lookup t (cur ++ [x])) eqn:Hx; [|discriminate].
      apply (IH _ H). eauto.
Qed.

(** A location reached by a directory-only final segment is a directory. *)
Lemma walk_last_dir (t : node) (segs cur c : list string) (x : string) :
  walk t cur (segs ++ [x]) = Some c -> plain_name x = false ->
  exists es, lookup t c = Some (Dir es).
Proof.
  rewrite walk_app. destruct (walk t cur segs) as [c0|]; [|discriminate].
  simpl. intros H Hx.
  destruct (lookup t c0) as [[?|es]|] eqn:Hc; try discriminate.
  destruct (skip_segment x) eqn:Hs.
  - inversion H; subst. eauto.
  - destruct (is_dotdot x) eqn:Hd.
    + inversion H; subst. eapply lookup_removelast_dir; eauto.
    + exfalso. unfold plain_name, skip_segment, nonempty in *.
      apply orb_false_iff in Hs as [H1 H2]. now rewrite H1, H2, Hd in Hx.
Qed.

(** Existing entries under valid names are reached name by name. *)
Lemma walk_names (t : node) (ns cur : list string) (x : node) :
  Forall (fun n => plain_name n = true) ns ->
  lookup t (cur ++ ns) = Some x ->
  walk t cur ns = Some (cur ++ ns).
Proof.
  revert cur. induction ns as [|n ns IH]; intros cur Hv H; simpl.
  - now rewrite app_nil_r.
  - inversion Hv as [|? ? Hn Hns]; subst.
    destruct (lookup_below_dir t cur (n :: ns) x) as [es He];
      [discriminate | exact H |].
    rewrite He. destruct (plain_name_not_skip n Hn) as [-> ->].
    replace (cur ++ n :: ns) with ((cur ++ [n]) ++ ns) in *
      by now rewrite <- app_assoc.
    destruct ns as [|n' ns'].
    + rewrite app_nil_r in H. rewrite H. simpl. now rewrite app_nil_r.
    + destruct (lookup_below_dir t (cur ++ [n]) (n' :: ns') x) as [es' He'];
        [discriminate | exact H |].
      rewrite He'. now apply IH.
Qed.

(** Empty segments only ask for a directory, which the next segment asks
    for again: only a final empty segment matters. *)
Lemma walk_filter (t : node) (segs cur : list string) :
  segs <> [] ->
  walk t cur segs =
  walk t cur (filter nonempty segs
                ++ (if nonempty (last segs "") then [] else [""])).
Proof.
  revert cur. induction segs as [|c segs IH]; [congruence|]. intros cur _.
  destruct segs as [|c' r].
  - simpl. unfold nonempty. destruct (c =? "") eqn:E; simpl.
    + apply String.eqb_eq in E. now subst.
    + reflexivity.
  - assert (Hne : c' :: r <> []) by discriminate.
    specialize (IH cur Hne) as IHc.
    change (last (c :: c' :: r) "") with (last (c' :: r) "").
    change (filter nonempty (c :: c' :: r))
      with (if nonempty c then c :: filter nonempty (c' :: r)
            else filter nonempty (c' :: r)).
    unfold nonempty at 1. destruct (c =? "") eqn:E; simpl negb; cbv iota.
    + apply String.eqb_eq in E. subst c. rewrite <- IHc.
      change (walk t cur ("" :: c' :: r))
        with (match lookup t cur with
              | Some (Dir _) => walk t cur (c' :: r)
              | _ => None
              end).
      simpl. destruct (lookup t cur) as [[?|?]|]; reflexivity.
    + rewrite <- app_comm_cons.
      remember (c' :: r) as rest. simpl.
      destruct (lookup t cur) as [[?|?]|]; try reflexivity.
      destruct (skip_segment c); [now apply IH|].
      destruct (is_dotdot c); [now apply IH|].
      destruct (lookup t (cur ++ [c])); [now apply IH | reflexivity].
Qed.

End Resolution.

(* ================================================================== *)
(** ** Lemmas on the parts of a path and on [operator/] *)

Section PathParts.

Import Path Disk Spec.

Lemma segment_name_inv (n : string) :
  segment_name n = true -> nonempty n = true /\ no_sep n = true.
Proof. unfold segment_name. intros H. now apply andb_true_iff in H. Qed.

Lemma valid_segment_name (n : string) :
  valid_name n = true -> segment_name n = true.
Proof.
  unfold valid_name, segment_name, plain_name. intros H.
  apply andb_true_iff in H as [H1 H2]. apply andb_true_iff in H1 as [H1 _].
  apply andb_true_iff in H1 as [H1 _]. now rewrite H1, H2.
Qed.

Lemma Forall_valid_segment (ns : list string) :
  Forall (fun n => valid_name n = true) ns ->
  Forall (fun n => segment_name n = true) ns.
Proof.
  intros H. eapply Forall_impl; [|exact H]. intros; now apply valid_segment_name.
Qed.

Lemma Forall_valid_plain (ns : list string) :
  Forall (fun n => valid_name n = true) ns ->
  Forall (fun n => plain_name n = true) ns.
Proof.
  intros H. eapply Forall_impl; [|exact H]. intros; now apply valid_name_plain.
Qed.

Lemma Forall_segment_no_sep (ns : list string) :
  Forall (fun n => segment_name n = true) ns ->
  Forall (fun x => no_sep x = true) ns.
Proof.
  intros H. eapply Forall_impl; [|exact H].
  intros a Ha. now apply segment_name_inv in Ha.
Qed.

Lemma filter_segment_names (ns : list string) :
  Forall (fun n => segment_name n = true) ns -> filter nonempty ns = ns.
Proof.
  induction 1 as [|n ns Hn _ IH]; simpl; [reflexivity|].
  apply segment_name_inv in Hn as [-> _]. now rewrite IH.
Qed.

Lemma names_segment (s : string) :
  Forall (fun n => segment_name n = true) (names s).
Proof.
  unfold names. pose proof (split_segments s) as H.
  induction H as [|x l Hx _ IH]; simpl; [constructor|].
  destruct (nonempty x) eqn:E; [|exact IH].
  constructor; [|exact IH]. unfold segment_name. now rewrite E, Hx.
Qed.

Lemma segment_not_absolute (n : string) :
  segment_name n = true -> is_absolute n = false.
Proof.
  intros H. apply segment_name_inv in H as [H1 H2].
  destruct n as [|c n]; [reflexivity|]. simpl in *.
  apply andb_true_iff in H2 as [H2 _]. now apply negb_true_iff in H2.
Qed.

Lemma last_segment_nonempty (ns : list string) (dflt : string) :
  ns <> [] -> Forall (fun n => segment_name n = true) ns ->
  nonempty (last ns dflt) = true.
Proof.
  intros Hn H. destruct ns as [|x ns] using rev_ind; [congruence|].
  rewrite last_last. apply Forall_app in H as [_ H].
  inversion H; subst. now apply segment_name_inv.
Qed.

(** The parts of a rendered absolute path. *)
Lemma names_render (ns : list string) (tr : bool) :
  Forall (fun n => segment_name n = true) ns ->
  names (render true ns tr) = ns.
Proof.
  intros H. pose proof (Forall_segment_no_sep _ H) as Hs.
  destruct ns as [|n ns]; [now destruct tr|].
  unfold names. destruct tr.
  - rewrite split_render_trail by (auto; discriminate).
    change (filter nonempty ("" :: (n :: ns) ++ [""]))
      with (filter nonempty ((n :: ns) ++ [""])).
    rewrite filter_app. simpl (filter nonempty [""]).
    now rewrite app_nil_r, filter_segment_names.
  - change (render true (n :: ns) false) with (render_abs (n :: ns)).
    rewrite split_render_abs by (auto; discriminate).
    change (filter nonempty ("" :: n :: ns)) with (filter nonempty (n :: ns)).
    now apply filter_segment_names.
Qed.

Lemma has_filename_render (ns : list string) (tr : bool) :
  ns <> [] -> Forall (fun n => segment_name n = true) ns ->
  has_filename (render true ns tr) = negb tr.
Proof.
  intros Hn H. pose proof (Forall_segment_no_sep _ H) as Hs.
  unfold has_filename. destruct tr.
  - rewrite split_render_trail by auto.
    change ("" :: ns ++ [""]) with (("" :: ns) ++ [""]). now rewrite last_last.
  - change (render true ns false) with (render_abs ns).
    rewrite split_render_abs by auto.
    destruct ns as [|n ns]; [congruence|].
    change (last ("" :: n :: ns) "") with (last (n :: ns) "").
    now apply last_segment_nonempty.
Qed.

Lemma trailing_render (ns : list string) (tr : bool) :
  ns <> [] -> Forall (fun n => segment_name n = true) ns ->
  trailing (render true ns tr) = tr.
Proof.
  intros Hn H. unfold trailing.
  rewrite has_filename_render, names_render by auto.
  destruct ns; [congruence|]. now destruct tr.
Qed.

Lemma is_absolute_render (ns : list string) (tr : bool) :
  is_absolute (render true ns tr) = true.
Proof. reflexivity. Qed.

Lemma render_nonempty (ns : list string) (tr : bool) :
  (render true ns tr =? "") = false.
Proof. reflexivity. Qed.

Lemma concat_snoc (ns : list string) (n : string) :
  ns <> [] ->
  String.concat "/" (ns ++ [n])
  = (String.concat "/" ns ++ String sep n)%string.
Proof.
  induction ns as [|x r IH]; [congruence|]. intros _.
  destruct r as [|y r].
  - reflexivity.
  - change ((x :: y :: r) ++ [n]) with (x :: y :: (r ++ [n])).
    rewrite !concat_cons2.
    change (y :: r ++ [n]) with ((y :: r) ++ [n]).
    rewrite IH by discriminate. now rewrite append_assoc.
Qed.

Lemma join_render_name (pre : list string) (n : string) :
  Forall (fun n => segment_name n = true) pre -> segment_name n = true ->
  join (render_abs pre) n = render_abs (pre ++ [n]).
Proof.
  intros Hp Hn. unfold join. rewrite (segment_not_absolute n Hn).
  destruct pre as [|x pre].
  - simpl. rewrite render_abs_eq. reflexivity.
  - unfold render_abs at 1. rewrite has_filename_render by (auto; discriminate).
    simpl negb. cbv iota.
    change (render true (x :: pre) false) with (render_abs (x :: pre)).
    rewrite !render_abs_eq, concat_snoc by discriminate.
    reflexivity.
Qed.

Lemma join_render_empty (pre : list string) :
  pre <> [] -> Forall (fun n => segment_name n = true) pre ->
  join (render_abs pre) "" = render true pre true.
Proof.
  intros Hn Hp. unfold join. simpl is_absolute. cbv iota.
  unfold render_abs at 1. rewrite has_filename_render by auto.
  simpl negb. cbv iota.
  change (render true pre false) with (render_abs pre).
  rewrite render_abs_eq, render_trail_eq. reflexivity.
Qed.

Lemma fold_join_names (ns : list string) (pre : list string) :
  Forall (fun n => segment_name n = true) pre ->
  Forall (fun n => segment_name n = true) ns ->
  fold_left join ns (render_abs pre) = render_abs (pre ++ ns).
Proof.
  revert pre. induction ns as [|n ns IH]; intros pre Hp Hn; simpl.
  - now rewrite app_nil_r.
  - inversion Hn; subst. rewrite join_render_name by auto.
    rewrite IH; [now rewrite <- app_assoc | | auto].
    apply Forall_app. split; auto.
Qed.

Lemma fold_join_elements (ns pre : list string) (tr : bool) :
  Forall (fun n => segment_name n = true) pre ->
  Forall (fun n => segment_name n = true) ns ->
  pre ++ ns <> [] ->
  fold_left join (ns ++ (if tr then [""] else [])) (render_abs pre)
  = render true (pre ++ ns) tr.
Proof.
  intros Hp Hn Hne. rewrite fold_left_app, fold_join_names by auto.
  destruct tr; simpl; [|reflexivity].
  apply join_render_empty; [exact Hne|]. apply Forall_app. now split.
Qed.

(** The elements of an absolute path. *)
Lemma elements_absolute (s : string) :
  is_absolute s = true ->
  elements s = "/" :: names s ++ (if trailing s then [""] else []).
Proof. unfold elements. now intros ->. Qed.

Lemma absolute_not_empty (s : string) : is_absolute s = true -> (s =? "") = false.
Proof. destruct s; [discriminate | reflexivity]. Qed.

End PathParts.

(* ================================================================== *)
(** ** The normal form and [weakly_canonical] on absolute paths *)

Section WeaklyCanonical.

Import Path Disk Spec.

Lemma lex_filter (segs cur : list string) :
  lex cur (filter nonempty segs) = lex cur segs.
Proof.
  revert cur. induction segs as [|x segs IH]; intros cur; [reflexivity|].
  change (filter nonempty (x :: segs))
    with (if nonempty x then x :: filter nonempty segs
          else filter nonempty segs).
  change (lex cur (x :: segs)) with (lex (lex_step cur x) segs).
  unfold nonempty at 1. destruct (x =? "") eqn:E; simpl negb; cbv iota.
  - unfold lex_step, skip_segment. rewrite E. simpl orb. cbv iota. apply IH.
  - change (lex cur (x :: filter nonempty segs))
      with (lex (lex_step cur x) (filter nonempty segs)).
    apply IH.
Qed.

Lemma lex_app (xs ys cur : list string) :
  lex cur (xs ++ ys) = lex (lex cur xs) ys.
Proof. unfold lex. apply fold_left_app. Qed.

Lemma lex_plain (ns cur : list string) :
  Forall (fun n => plain_name n = true) ns -> lex cur ns = cur ++ ns.
Proof.
  revert cur. induction ns as [|n ns IH]; intros cur H.
  - now rewrite app_nil_r.
  - inversion H as [|? ? Hn Hns]; subst. unfold lex in *. simpl.
    unfold lex_step at 2. destruct (plain_name_not_skip n Hn) as [-> ->].
    rewrite IH by assumption. now rewrite <- app_assoc.
Qed.

Lemma Forall_removelast {A : Type} (P : A -> Prop) (l : list A) :
  Forall P l -> Forall P (removelast l).
Proof.
  intros H. destruct l as [|x l] using rev_ind; [constructor|].
  rewrite removelast_last. now apply Forall_app in H.
Qed.

Lemma segment_plain_valid (n : string) :
  segment_name n = true -> skip_segment n = false -> is_dotdot n = false ->
  valid_name n = true.
Proof.
  intros Hs Hk Hd. apply segment_name_inv in Hs as [H1 H2].
  unfold skip_segment in Hk. apply orb_false_iff in Hk as [_ Hk].
  unfold valid_name, plain_name. now rewrite H1, H2, Hk, Hd.
Qed.

Lemma lex_valid (segs cur : list string) :
  Forall (fun n => valid_name n = true) cur ->
  Forall (fun n => segment_name n = true) segs ->
  Forall (fun n => valid_name n = true) (lex cur segs).
Proof.
  revert cur. induction segs as [|x segs IH]; intros cur Hc Hs; [exact Hc|].
  inversion Hs; subst. unfold lex in *. simpl. apply IH; [|assumption].
  unfold lex_step. destruct (skip_segment x) eqn:Hk; [assumption|].
  destruct (is_dotdot x) eqn:Hd; [now apply Forall_removelast|].
  apply Forall_app. split; [assumption|].
  constructor; [|constructor]. now apply segment_plain_valid.
Qed.

Lemma normal_step_flag (absolute : bool) (acc : list string) (b b' : bool)
    (n : string) :
  normal_step absolute (acc, b) n = normal_step absolute (acc, b') n.
Proof. reflexivity. Qed.

Lemma normal_fold_flag (absolute : bool) (ns acc : list string) (b b' : bool) :
  ns <> [] ->
  fold_left (normal_step absolute) ns (acc, b)
  = fold_left (normal_step absolute) ns (acc, b').
Proof.
  destruct ns as [|n ns]; [congruence|]. intros _.
  change (fold_left (normal_step absolute) (n :: ns) (acc, b))
    with (fold_left (normal_step absolute) ns (normal_step absolute (acc, b) n)).
  now rewrite (normal_step_flag absolute acc b b').
Qed.

Lemma normal_step_dot (acc : list string) (b : bool) (n : string) :
  is_dot n = true -> normal_step true (acc, b) n = (acc, true).
Proof. unfold normal_step. now intros ->. Qed.

Lemma normal_step_plain (absolute : bool) (acc : list string) (b : bool) (n : string) :
  is_dot n = false -> is_dotdot n = false ->
  normal_step absolute (acc, b) n = (n :: acc, false).
Proof. unfold normal_step. now intros -> ->. Qed.

Lemma normal_step_up (acc : list string) (b : bool) (n top : string) :
  is_dot n = false -> is_dotdot n = true -> is_dotdot top = false ->
  normal_step true (top :: acc, b) n = (acc, true).
Proof. unfold normal_step. now intros -> -> ->. Qed.

Lemma normal_step_up_root (b : bool) (n : string) :
  is_dot n = false -> is_dotdot n = true ->
  normal_step true ([], b) n = ([], true).
Proof. unfold normal_step. now intros -> ->. Qed.

Lemma fold_left_cons {A B : Type} (f : A -> B -> A) (x : B) (l : list B) (a : A) :
  fold_left f (x :: l) a = fold_left f l (f a x).
Proof. reflexivity. Qed.

Lemma lex_cons (cur : list string) (x : string) (segs : list string) :
  lex cur (x :: segs) = lex (lex_step cur x) segs.
Proof. reflexivity. Qed.

(** On an absolute path the filenames kept by the normal form are the
    lexical location. *)
Lemma normal_fold_abs (ns acc : list string) (b : bool) :
  Forall (fun n => is_dotdot n = false) acc ->
  Forall (fun n => segment_name n = true) ns ->
  exists b', fold_left (normal_step true) ns (acc, b)
             = (rev (lex (rev acc) ns), b').
Proof.
  revert acc b. induction ns as [|n ns IH]; intros acc b Ha Hn.
  - exists b. simpl. now rewrite rev_involutive.
  - inversion Hn as [|? ? Hs Hns]; subst.
    rewrite fold_left_cons, lex_cons.
    apply segment_name_inv in Hs as [Hne _]. unfold nonempty in Hne.
    apply negb_true_iff in Hne.
    unfold lex_step, skip_segment. rewrite Hne. simpl orb.
    destruct (is_dot n) eqn:Hd.
    + rewrite normal_step_dot by assumption. now apply IH.
    + destruct (is_dotdot n) eqn:Hdd.
      * destruct acc as [|top below].
        -- rewrite normal_step_up_root by assumption.
           apply (IH [] true); [constructor | assumption].
        -- inversion Ha as [|? ? Htop Hbelow]; subst.
           rewrite normal_step_up by assumption.
           simpl rev. rewrite removelast_last. now apply IH.
      * rewrite normal_step_plain by assumption.
        replace (rev acc ++ [n]) with (rev (n :: acc)) by reflexivity.
        apply IH; [|assumption]. now constructor.
Qed.

Lemma normal_fold_snoc_plain (absolute : bool) (ns : list string) (x : string)
    (st : list string * bool) :
  is_dot x = false -> is_dotdot x = false ->
  snd (fold_left (normal_step absolute) (ns ++ [x]) st) = false.
Proof.
  intros H1 H2. rewrite fold_left_app. simpl.
  destruct (fold_left (normal_step absolute) ns st) as [acc b].
  now rewrite normal_step_plain.
Qed.

Lemma normal_fold_valid (c acc : list string) (b : bool) :
  c <> [] -> Forall (fun n => valid_name n = true) c ->
  fold_left (normal_step true) c (acc, b) = (rev c ++ acc, false).
Proof.
  revert acc b. induction c as [|n c IH]; [congruence|]. intros acc b _ H.
  inversion H as [|? ? Hn Hc]; subst. rewrite fold_left_cons.
  apply valid_name_plain, plain_name_inv in Hn as (_ & H1 & H2).
  rewrite normal_step_plain by assumption.
  destruct c as [|n' c]; [reflexivity|].
  rewrite IH by (assumption || discriminate).
  simpl. now rewrite <- !app_assoc.
Qed.

Lemma normal_form_valid (c : list string) (tr : bool) :
  c <> [] -> Forall (fun n => valid_name n = true) c ->
  normal_form true c tr = render true c tr.
Proof.
  intros Hne Hc. unfold normal_form.
  rewrite normal_fold_valid by assumption. rewrite app_nil_r.
  destruct (rev c) as [|top r] eqn:E.
  - apply (f_equal (@rev string)) in E. rewrite rev_involutive in E.
    simpl in E. congruence.
  - rewrite <- E. rewrite rev_involutive.
    assert (Htop : is_dotdot top = false).
    { assert (Hin : In top c) by (apply in_rev; rewrite E; now left).
      rewrite Forall_forall in Hc. specialize (Hc _ Hin).
      apply valid_name_plain, plain_name_inv in Hc. tauto. }
    now rewrite Htop.
Qed.

(** The normal form of an absolute path: the rendering of its lexical
    location, with or without a final separator. *)
Lemma normal_form_abs (ns : list string) (tr : bool) :
  Forall (fun n => segment_name n = true) ns ->
  normal_form true ns tr =
  match lex [] ns with
  | [] => "/"
  | _ :: _ =>
      render true (lex [] ns)
        (snd (fold_left (normal_step true) ns ([], false)) || tr)
  end.
Proof.
  intros H. unfold normal_form.
  destruct (normal_fold_abs ns [] false) as [b' Hb]; [constructor | exact H |].
  simpl (rev []) in Hb. rewrite Hb, rev_involutive. simpl snd.
  assert (Hv : Forall (fun n => valid_name n = true) (lex [] ns))
    by (apply lex_valid; [constructor | exact H]).
  destruct (rev (lex [] ns)) as [|top r] eqn:E.
  - apply (f_equal (@rev string)) in E. rewrite rev_involutive in E.
    simpl in E. now rewrite E.
  - assert (Htop : is_dotdot top = false).
    { assert (Hin : In top (lex [] ns)) by (apply in_rev; rewrite E; now left).
      rewrite Forall_forall in Hv. specialize (Hv _ Hin).
      apply valid_name_plain, plain_name_inv in Hv. tauto. }
    rewrite Htop. simpl negb. rewrite andb_true_l.
    destruct (lex [] ns); [discriminate | reflexivity].
Qed.

(** Canonicalising leading filenames first does not change the normal
    form when a filename follows. *)
Lemma normal_form_prefix (pre rest : list string) (tr : bool) :
  rest <> [] ->
  Forall (fun n => segment_name n = true) pre ->
  normal_form true (lex [] pre ++ rest) tr = normal_form true (pre ++ rest) tr.
Proof.
  intros Hr Hp. unfold normal_form. rewrite !fold_left_app.
  destruct (normal_fold_abs pre [] false) as [b1 H1]; [constructor | exact Hp |].
  simpl (rev []) in H1. rewrite H1.
  assert (Hv : Forall (fun n => valid_name n = true) (lex [] pre))
    by (apply lex_valid; [constructor | exact Hp]).
  destruct (lex [] pre) as [|x c] eqn:E.
  - simpl. now rewrite (normal_fold_flag true rest [] false b1).
  - rewrite normal_fold_valid by (assumption || discriminate).
    rewrite app_nil_r.
    now rewrite (normal_fold_flag true rest (rev (x :: c)) false b1).
Qed.

Lemma walk_exists_nonempty (t : node) (segs cur c : list string) :
  segs <> [] -> walk t cur segs = Some c -> exists y, lookup t c = Some y.
Proof.
  intros Hn H. apply (walk_exists t segs cur c H).
  destruct segs as [|x segs]; [congruence|]. simpl in H.
  destruct (lookup t cur) as [[?|es]|]; try discriminate. eauto.
Qed.

Lemma fs_exists_resolve (d : disk) (s : string) :
  fs_exists d s = match resolve d s with Some _ => true | None => false end.
Proof.
  unfold fs_exists, status. destruct (resolve d s) as [c|] eqn:E; [|reflexivity].
  unfold resolve in E. destruct (s =? ""); [discriminate|].
  destruct (walk_exists_nonempty _ _ _ _ (split_not_nil s) E) as [y ->].
  reflexivity.
Qed.

Lemma resolve_parts (d : disk) (s : string) :
  (s =? "") = false ->
  resolve d s =
  walk (root_node d) (start d s)
       (names s ++ (if has_filename s then [] else [""])).
Proof.
  intros H. unfold resolve. rewrite H.
  now rewrite walk_filter by apply split_not_nil.
Qed.

Lemma walk_root_skip (d : disk) (segs : list string) :
  walk (root_node d) [] ("" :: segs) = walk (root_node d) [] segs.
Proof. reflexivity. Qed.

Lemma resolve_render_abs (d : disk) (pre : list string) :
  Forall (fun n => segment_name n = true) pre ->
  resolve d (render_abs pre) = walk (root_node d) [] pre.
Proof.
  intros H. destruct pre as [|n pre]; [reflexivity|].
  unfold resolve. rewrite render_abs_eq at 1. simpl (_ =? _). cbv iota.
  rewrite split_render_abs
    by (try discriminate; now apply Forall_segment_no_sep).
  unfold start. rewrite render_abs_eq. simpl is_absolute. cbv iota.
  apply walk_root_skip.
Qed.

Lemma resolve_render_trail (d : disk) (pre : list string) :
  pre <> [] -> Forall (fun n => segment_name n = true) pre ->
  resolve d (render true pre true) = walk (root_node d) [] (pre ++ [""]).
Proof.
  intros Hn H. unfold resolve. rewrite render_nonempty.
  rewrite split_render_trail by (auto; now apply Forall_segment_no_sep).
  unfold start. rewrite is_absolute_render. apply walk_root_skip.
Qed.

Lemma trailing_has_filename (s : string) :
  names s <> [] -> trailing s = negb (has_filename s).
Proof.
  unfold trailing. destruct (names s); [congruence|]. intros _.
  simpl. now rewrite andb_true_r.
Qed.

Lemma names_nil_no_filename (s : string) : names s = [] -> has_filename s = false.
Proof.
  unfold names, has_filename. intros H.
  destruct (nonempty (last (split s) "")) eqn:E; [|reflexivity].
  assert (Hin : In (last (split s) "") (filter nonempty (split s))).
  { apply filter_In. split; [|exact E].
    destruct (split s) as [|x l] eqn:Es; [now apply split_not_nil in Es|].
    rewrite (app_removelast_last "" (l := x :: l)) at 2 by discriminate.
    apply in_or_app. right. now left. }
  rewrite H in Hin. destruct Hin.
Qed.

(** A path and the rendering of its parts name the same entry. *)
Lemma resolve_absolute_parts (d : disk) (s : string) :
  is_absolute s = true ->
  resolve d s
  = walk (root_node d) [] (names s ++ (if trailing s then [""] else [])).
Proof.
  intros Ha. rewrite resolve_parts by now apply absolute_not_empty.
  unfold start. rewrite Ha.
  destruct (names s) as [|n ns] eqn:En.
  - rewrite (names_nil_no_filename s En). unfold trailing. rewrite En.
    simpl. now rewrite andb_false_r.
  - rewrite trailing_has_filename by (rewrite En; discriminate).
    now destruct (has_filename s).
Qed.

Lemma lexically_normal_render (ns : list string) (tr : bool) :
  ns <> [] -> Forall (fun n => segment_name n = true) ns ->
  lexically_normal (render true ns tr) = normal_form true ns tr.
Proof.
  intros Hn H. unfold lexically_normal.
  now rewrite render_nonempty, is_absolute_render, names_render, trailing_render.
Qed.

Lemma walk_valid (d : disk) (pre c : list string) :
  Forall (fun n => segment_name n = true) pre ->
  walk (root_node d) [] pre = Some c ->
  Forall (fun n => valid_name n = true) c.
Proof.
  intros H Hw. apply walk_lex in Hw. subst c.
  apply lex_valid; [constructor | exact H].
Qed.

(** The second half of [weakly_canonical], started after leading filenames
    [pre] that exist. *)
Lemma existing_prefix_spec (d : disk) (tr : bool) (ns2 pre c : list string) :
  Forall (fun n => segment_name n = true) pre ->
  Forall (fun n => segment_name n = true) ns2 ->
  (tr = true -> pre ++ ns2 <> []) ->
  walk (root_node d) [] pre = Some c ->
  let (r, rest) :=
    existing_prefix d (render_abs pre) (ns2 ++ (if tr then [""] else [])) in
  let r' := match resolve d r with Some c => render_abs c | None => r end in
  match walk (root_node d) [] ((pre ++ ns2) ++ (if tr then [""] else [])) with
  | Some c' => rest = [] /\ r' = render_abs c'
  | None =>
      lexically_normal (fold_left join rest r')
      = normal_form true (pre ++ ns2) tr
  end.
Proof.
  revert pre c. induction ns2 as [|n ns2 IH]; intros pre c Hp Hn Htr Hw.
  - rewrite app_nil_r in *. destruct tr.
    + specialize (Htr eq_refl). simpl app at 1.
      unfold existing_prefix. rewrite join_render_empty by assumption.
      rewrite fs_exists_resolve, resolve_render_trail by assumption.
      destruct (walk (root_node d) [] (pre ++ [""])) as [c'|] eqn:E.
      * rewrite resolve_render_trail, E by assumption. now split.
      * rewrite resolve_render_abs, Hw by assumption.
        pose proof (walk_valid d pre c Hp Hw) as Hv.
        assert (Hc : c <> []).
        { intros ->. rewrite walk_app, Hw in E. discriminate. }
        simpl fold_left. rewrite join_render_empty
          by (auto; now apply Forall_valid_segment).
        rewrite lexically_normal_render
          by (auto; now apply Forall_valid_segment).
        rewrite normal_form_valid by assumption.
        apply walk_lex in Hw. rewrite normal_form_abs, <- Hw by assumption.
        destruct c; [congruence|]. now rewrite orb_true_r.
    + simpl. rewrite app_nil_r, Hw.
      rewrite resolve_render_abs, Hw by assumption. now split.
  - inversion Hn as [|? ? Hn1 Hn2]; subst.
    assert (Hp' : Forall (fun n => segment_name n = true) (pre ++ [n]))
      by (apply Forall_app; split; [assumption | now constructor]).
    change ((n :: ns2) ++ (if tr then [""] else []))
      with (n :: (ns2 ++ (if tr then [""] else []))).
    simpl existing_prefix. rewrite join_render_name by assumption.
    rewrite fs_exists_resolve, resolve_render_abs by assumption.
    replace ((pre ++ n :: ns2) ++ (if tr then [""] else []))
      with (((pre ++ [n]) ++ ns2) ++ (if tr then [""] else []))
      by now rewrite <- (app_assoc pre [n] ns2).
    destruct (walk (root_node d) [] (pre ++ [n])) as [c1|] eqn:E.
    + specialize (IH (pre ++ [n]) c1 Hp' Hn2).
      replace (pre ++ n :: ns2) with ((pre ++ [n]) ++ ns2)
        by now rewrite <- app_assoc.
      apply IH; [|exact E]. intros _. now destruct pre.
    + rewrite <- (app_assoc (pre ++ [n]) ns2), walk_app, E.
      rewrite resolve_render_abs, Hw by assumption.
      pose proof (walk_valid d pre c Hp Hw) as Hv.
      change (n :: ns2 ++ (if tr then [""] else []))
        with ((n :: ns2) ++ (if tr then [""] else [])).
      cbv zeta. rewrite fold_join_elements;
        [| now apply Forall_valid_segment | assumption | now destruct c].
      rewrite lexically_normal_render;
        [| now destruct c
         | apply Forall_app; split; [now apply Forall_valid_segment | assumption]].
      apply walk_lex in Hw. subst c.
      simpl app. apply normal_form_prefix; [discriminate | assumption].
Qed.

(** On an absolute path [weakly_canonical] is the canonical path of the
    entry when there is one, and the lexical normal form otherwise. *)
Theorem weakly_canonical_absolute (d : disk) (s : string) :
  is_absolute s = true ->
  weakly_canonical d s =
  match resolve d s with
  | Some c => render_abs c
  | None => lexically_normal s
  end.
Proof.
  intros Ha. unfold weakly_canonical.
  destruct (resolve d s) as [c|] eqn:E; [reflexivity|].
  rewrite elements_absolute by assumption.
  change (existing_prefix d "" ("/" :: names s ++ (if trailing s then [""] else [])))
    with (existing_prefix d (render_abs [])
            (names s ++ (if trailing s then [""] else []))).
  pose proof (existing_prefix_spec d (trailing s) (names s) [] []
                (Forall_nil _) (names_segment s)) as H.
  simpl app in H.
  rewrite resolve_absolute_parts in E by assumption.
  destruct (existing_prefix d (render_abs [])
              (names s ++ (if trailing s then [""] else []))) as [r rest].
  rewrite E in H. unfold lexically_normal.
  rewrite (absolute_not_empty s Ha), Ha.
  apply H; [|reflexivity].
  unfold trailing. destruct (names s); [|discriminate].
  simpl. now rewrite andb_false_r.
Qed.

End WeaklyCanonical.

(* ================================================================== *)
(** ** Lemmas on the limits of the platform *)

Section Limits.

Import Path Disk Spec.

(** [walk_error] tells why [walk] fails, and only then. *)
Lemma walk_error_some (t : node) (segs cur : list string) (e : errno) :
  walk_error t cur segs = Some e -> walk t cur segs = None.
Proof.
  revert cur. induction segs as [|x segs IH]; intros cur; simpl;
    [discriminate|].
  destruct (lookup t cur) as [[?|?]|]; try reflexivity.
  destruct (skip_segment x); [apply IH|].
  destruct (is_dotdot x); [apply IH|].
  destruct (lookup t (cur ++ [x])); [apply IH | reflexivity].
Qed.

Lemma walk_none_error (t : node) (segs cur : list string) :
  walk t cur segs = None -> exists e, walk_error t cur segs = Some e.
Proof.
  revert cur. induction segs as [|x segs IH]; intros cur; simpl;
    [discriminate|].
  destruct (lookup t cur) as [[?|?]|]; try (intros _; eexists; reflexivity).
  destruct (skip_segment x); [apply IH|].
  destruct (is_dotdot x); [apply IH|].
  destruct (lookup t (cur ++ [x])); [apply IH|].
  intros _. eexists; reflexivity.
Qed.

Lemma walk_error_app (t : node) (xs ys cur : list string) :
  walk_error t cur (xs ++ ys) =
  match walk t cur xs with
  | Some c => walk_error t c ys
  | None => walk_error t cur xs
  end.
Proof.
  revert cur. induction xs as [|x xs IH]; intros cur; simpl; [reflexivity|].
  destruct (lookup t cur) as [[?|?]|]; try reflexivity.
  destruct (skip_segment x); [apply IH|].
  destruct (is_dotdot x); [apply IH|].
  destruct (lookup t (cur ++ [x])); [apply IH | reflexivity].
Qed.

Lemma resolve_error_some (d : disk) (s : string) (e : errno) :
  resolve_error d s = Some e -> resolve d s = None.
Proof.
  unfold resolve_error, resolve. destruct (s =? ""); [reflexivity|].
  apply walk_error_some.
Qed.

Lemma resolve_none_error (d : disk) (s : string) :
  resolve d s = None -> exists e, resolve_error d s = Some e.
Proof.
  unfold resolve_error, resolve. destruct (s =? "");
    [intros _; eexists; reflexivity|].
  apply walk_none_error.
Qed.


Lemma entry_name_short (n : string) :
  entry_name n = true -> long_name n = false.
Proof.
  unfold entry_name. intros H. apply andb_true_iff in H as [_ H].
  now apply negb_true_iff in H.
Qed.

(** Resolution never stops with [ENAMETOOLONG] on components within the
    limit. *)
Lemma walk_error_short (t : node) (segs cur : list string) :
  Forall (fun c => long_name c = false) segs ->
  walk_error t cur segs <> Some ENAMETOOLONG.
Proof.
  revert cur. induction segs as [|x segs IH]; intros cur H; simpl;
    [discriminate|].
  inversion H as [|? ? Hx Hs]; subst.
  destruct (lookup t cur) as [[?|?]|]; try discriminate.
  destruct (skip_segment x); [now apply IH|].
  destruct (is_dotdot x); [now apply IH|].
  destruct (lookup t (cur ++ [x])); [now apply IH|].
  rewrite Hx. discriminate.
Qed.

Lemma short_segments (s : string) :
  forallb (fun c => negb (long_name c)) (split s) = true ->
  Forall (fun c => long_name c = false) (split s).
Proof.
  intros H. apply Forall_forall. intros c Hc.
  rewrite forallb_forall in H. specialize (H c Hc).
  now apply negb_true_iff in H.
Qed.

Lemma status_throws_short (d : disk) (s : string) :
  Forall (fun c => long_name c = false) (split s) ->
  status_throws d s = false.
Proof.
  intros H. unfold status_throws, resolve_error.
  destruct (s =? ""); [reflexivity|].
  pose proof (walk_error_short (root_node d) (split s) (start d s) H) as Hw.
  destruct (walk_error _ _ _) as [[| |]|]; congruence.
Qed.

(** The status of a path that names an entry is known. *)
Lemma status_throws_resolved (d : disk) (s : string) (c : list string) :
  resolve d s = Some c -> status_throws d s = false.
Proof.
  intros H. unfold status_throws.
  destruct (resolve_error d s) as [e|] eqn:E; [|reflexivity].
  apply resolve_error_some in E. congruence.
Qed.

Lemma within_limits_parts (s : string) :
  within_limits s = true ->
  String.length s < PATH_MAX
  /\ Forall (fun c => long_name c = false) (split s).
Proof.
  unfold within_limits. intros H.
  apply andb_true_iff in H as [H _]. apply andb_true_iff in H as [Hl Hs].
  split; [now apply Nat.ltb_lt | now apply short_segments].
Qed.

(** [weakly_canonical] returns on a path within the limits, whatever the
    disk holds. *)
Lemma within_limits_returns (d : disk) (s : string) :
  within_limits s = true -> weakly_canonical_throws d s = false.
Proof.
  intros H. apply within_limits_parts in H as [Hl Hs].
  unfold weakly_canonical_throws.
  rewrite (status_throws_short d s Hs), orb_false_r.
  apply Nat.leb_gt. exact Hl.
Qed.

End Limits.

(* ================================================================== *)
(** ** Lemmas on path validation *)

Section Validation.

Import Path Disk Spec.

Lemma resolve_location (d : disk) (s : string) (c : list string) :
  is_absolute s = true -> resolve d s = Some c -> c = location s.
Proof.
  intros Ha. unfold resolve, start. rewrite (absolute_not_empty s Ha), Ha.
  apply walk_lex.
Qed.

Lemma lexically_normal_absolute (s : string) :
  is_absolute s = true ->
  lexically_normal s =
  match location s with
  | [] => "/"
  | _ :: _ =>
      render true (location s)
        (snd (fold_left (normal_step true) (names s) ([], false)) || trailing s)
  end.
Proof.
  intros Ha. unfold lexically_normal.
  rewrite (absolute_not_empty s Ha), Ha.
  rewrite normal_form_abs by apply names_segment.
  unfold names at 1 2. rewrite lex_filter. reflexivity.
Qed.

Lemma prefix_length (r a : string) :
  prefix r a = true -> String.length r <= String.length a.
Proof.
  revert a. induction r as [|c r IH]; intros a H; simpl; [lia|].
  destruct a as [|c' a]; [discriminate|]. simpl in *.
  destruct (ascii_dec c c'); [|discriminate].
  specialize (IH a H). lia.
Qed.

Lemma substring_all (s : string) : substring 0 (String.length s) s = s.
Proof. induction s as [|c s IH]; simpl; [reflexivity | now rewrite IH]. Qed.

Lemma prefix_refl (s : string) : prefix s s = true.
Proof. apply prefix_correct. apply substring_all. Qed.

(** The test of lines 23 to 25 is a plain string-prefix test. *)
Lemma containment_test (root_str abs_str : string) :
  Nat.ltb (String.length abs_str) (String.length root_str)
  || negb (substring 0 (String.length root_str) abs_str =? root_str)
  = negb (prefix root_str abs_str).
Proof.
  destruct (prefix root_str abs_str) eqn:E.
  - pose proof (prefix_length _ _ E) as Hl.
    apply prefix_correct in E. rewrite E, String.eqb_refl.
    simpl. rewrite orb_false_r. apply Nat.ltb_ge. exact Hl.
  - destruct (substring 0 (String.length root_str) abs_str =? root_str) eqn:Es.
    + apply String.eqb_eq, prefix_correct in Es. congruence.
    + simpl. now rewrite orb_true_r.
Qed.

Lemma validate_path_unfold (self : Filesystem.t) (d : disk) (p : string) :
  Filesystem.validate_path self d p =
  if p =? "" then Returns (Err msg_empty_path)
  else if weakly_canonical_throws d (join (Filesystem.m_Root self) p)
  then Throws what_too_long
  else
    let abs_path := weakly_canonical d (join (Filesystem.m_Root self) p) in
    if prefix (Filesystem.m_Root self) abs_path then Returns (Ok abs_path)
    else Returns (Err msg_escapes_root).
Proof.
  unfold Filesystem.validate_path. destruct (p =? ""); [reflexivity|].
  destruct (weakly_canonical_throws _ _); [reflexivity|].
  cbv zeta. rewrite containment_test.
  now destruct (prefix _ _).
Qed.

(** [validate_path] on an input for which [weakly_canonical] returns. *)
Lemma validate_path_returns (self : Filesystem.t) (d : disk) (p : string) :
  (p =? "") = false ->
  weakly_canonical_throws d (join (Filesystem.m_Root self) p) = false ->
  Filesystem.validate_path self d p =
  let abs_path := weakly_canonical d (join (Filesystem.m_Root self) p) in
  if prefix (Filesystem.m_Root self) abs_path then Returns (Ok abs_path)
  else Returns (Err msg_escapes_root).
Proof. intros Hp Hw. now rewrite validate_path_unfold, Hp, Hw. Qed.

Lemma validate_path_ok (self : Filesystem.t) (d : disk) (p a : string) :
  Filesystem.validate_path self d p = Returns (Ok a) ->
  (p =? "") = false
  /\ a = weakly_canonical d (join (Filesystem.m_Root self) p)
  /\ prefix (Filesystem.m_Root self) a = true.
Proof.
  rewrite validate_path_unfold. destruct (p =? ""); [discriminate|].
  destruct (weakly_canonical_throws _ _); [discriminate|].
  cbv zeta. destruct (prefix _ _) eqn:E; [|discriminate].
  intros H. inversion H; subst. auto.
Qed.

(** [weakly_canonical] returned when [validate_path] did. *)
Lemma validate_path_returned (self : Filesystem.t) (d : disk) (p : string)
    (r : result string) :
  (p =? "") = false ->
  Filesystem.validate_path self d p = Returns r ->
  weakly_canonical_throws d (join (Filesystem.m_Root self) p) = false.
Proof.
  intros Hp. rewrite validate_path_unfold, Hp.
  now destruct (weakly_canonical_throws _ _).
Qed.

Lemma validate_path_err (self : Filesystem.t) (d : disk) (p m : string) :
  Filesystem.validate_path self d p = Returns (Err m) ->
  m = msg_empty_path \/ m = msg_escapes_root.
Proof.
  rewrite validate_path_unfold. destruct (p =? ""); [intros H; inversion H; auto|].
  destruct (weakly_canonical_throws _ _); [discriminate|].
  cbv zeta. destruct (prefix _ _); [discriminate|].
  intros H; inversion H; auto.
Qed.

Lemma join_absolute_left (root p : string) :
  is_absolute root = true -> (p =? "") = false ->
  is_absolute (join root p) = true.
Proof.
  intros Hr Hp. unfold join. destruct (is_absolute p) eqn:E; [exact E|].
  destruct root as [|c root]; [discriminate|].
  now destruct (has_filename (String c root)).
Qed.

(** When the lexical normal form of the joined path has no final
    separator, the outcome of [validate_path] is the same on every disk. *)
Lemma validate_path_lexical (d : disk) (root p a : string) :
  (p =? "") = false ->
  is_absolute (join root p) = true ->
  render_abs (location (join root p)) = a ->
  lexically_normal (join root p) = a ->
  within_limits (join root p) = true ->
  Filesystem.validate_path (Filesystem.new root) d p =
  if prefix root a then Returns (Ok a) else Returns (Err msg_escapes_root).
Proof.
  intros Hp Ha Hl Hn Hlim.
  rewrite validate_path_returns
    by (assumption || now apply within_limits_returns).
  cbv zeta.
  simpl Filesystem.m_Root. rewrite weakly_canonical_absolute by assumption.
  destruct (resolve d (join root p)) as [c|] eqn:E.
  - apply resolve_location in E; [|assumption]. subst c. now rewrite Hl.
  - now rewrite Hn.
Qed.

End Validation.

(* ================================================================== *)
(** ** Lemmas on updates of the disk and on write *)

Section Updates.

Import Path Disk Spec.

Lemma find_set_same (n : string) (v : node) (es : list (string * node)) :
  find_entry n (set_entry n v es) = Some v.
Proof.
  induction es as [|[m x] es IH]; simpl.
  - now rewrite String.eqb_refl.
  - destruct (m =? n) eqn:E; simpl; rewrite E; [reflexivity | exact IH].
Qed.

Lemma update_dir (es : list (string * node)) (p : list string)
    (f : list (string * node) -> list (string * node)) :
  exists es', update (Dir es) p f = Dir es'.
Proof.
  destruct p as [|c p]; simpl; [eauto|].
  destruct (find_entry c es); eauto.
Qed.

Lemma with_top_root (d : disk) : with_top d (root_node d) = d.
Proof. now destruct d. Qed.

(** After an entry is set in a directory it is found there. *)
Lemma lookup_update_set (t : node) (p : list string) (n : string) (v : node)
    (es : list (string * node)) :
  lookup t p = Some (Dir es) ->
  lookup (update t p (set_entry n v)) (p ++ [n]) = Some v.
Proof.
  revert t. induction p as [|c p IH]; intros t H; simpl in *.
  - inversion H; subst. simpl. now rewrite find_set_same.
  - destruct t as [?|es0]; [discriminate|].
    destruct (find_entry c es0) as [m|] eqn:E; [|discriminate].
    simpl. rewrite find_set_same. now apply IH.
Qed.

(** [create_directories] along directories that exist changes nothing. *)
Lemma mkdirs_existing (t : node) (ns cur : list string)
    (es : list (string * node)) :
  Forall (fun n => plain_name n = true) ns ->
  lookup t (cur ++ ns) = Some (Dir es) ->
  mkdirs t cur ns = (t, Ok tt).
Proof.
  revert cur. induction ns as [|n ns IH]; intros cur Hv H; simpl; [reflexivity|].
  inversion Hv as [|? ? Hn Hns]; subst.
  destruct (lookup_below_dir t cur (n :: ns) (Dir es)) as [es0 He];
    [discriminate | exact H |].
  rewrite He. destruct (plain_name_not_skip n Hn) as [-> ->].
  replace (cur ++ n :: ns) with ((cur ++ [n]) ++ ns) in H
    by now rewrite <- app_assoc.
  assert (Hd : exists es1, lookup t (cur ++ [n]) = Some (Dir es1)).
  { destruct ns as [|n' ns'].
    - rewrite app_nil_r in H. eauto.
    - eapply lookup_below_dir; [|exact H]. discriminate. }
  destruct Hd as [es1 ->]. now apply IH.
Qed.

(** Nothing is missing along a path that names an entry. *)
Lemma missing_existing (t : node) (ns cur : list string) (x : node) :
  Forall (fun n => plain_name n = true) ns ->
  lookup t (cur ++ ns) = Some x ->
  missing t cur ns = 0.
Proof.
  revert cur. induction ns as [|n ns IH]; intros cur Hv H; simpl; [reflexivity|].
  inversion Hv as [|? ? Hn Hns]; subst.
  destruct (plain_name_not_skip n Hn) as [-> ->].
  replace (cur ++ n :: ns) with ((cur ++ [n]) ++ ns) in H
    by now rewrite <- app_assoc.
  assert (Hd : exists y, lookup t (cur ++ [n]) = Some y).
  { destruct ns as [|n' ns'].
    - rewrite app_nil_r in H. eauto.
    - destruct (lookup_below_dir t (cur ++ [n]) (n' :: ns') x) as [es1 He];
        [discriminate | exact H | eauto]. }
  destruct Hd as [y ->]. now apply IH.
Qed.

Lemma create_directories_existing (d : disk) (p : list string)
    (es : list (string * node)) :
  Forall (fun n => valid_name n = true) p ->
  lookup (root_node d) p = Some (Dir es) ->
  create_directories d (render_abs p) = (d, Ok tt).
Proof.
  intros Hv H. unfold create_directories, missing_directories.
  destruct p as [|n p]; [now destruct d|].
  rewrite render_abs_eq at 1. simpl (_ =? _). cbv iota.
  rewrite split_render_abs by (try discriminate; now apply Forall_valid_no_sep).
  unfold start. rewrite render_abs_eq. simpl is_absolute. cbv iota.
  change (missing (root_node d) [] ("" :: n :: p))
    with (missing (root_node d) [] (n :: p)).
  rewrite (missing_existing (root_node d) (n :: p) [] (Dir es))
    by (try apply Forall_valid_plain; assumption).
  change (Nat.ltb MAX_MISSING 0) with false. cbv iota.
  change (mkdirs (root_node d) [] ("" :: n :: p))
    with (mkdirs (root_node d) [] (n :: p)).
  rewrite (mkdirs_existing (root_node d) (n :: p) [] es)
    by (try apply Forall_valid_plain; assumption).
  now rewrite with_top_root.
Qed.

Lemma parent_path_render (p : list string) (n : string) :
  Forall (fun n => valid_name n = true) (p ++ [n]) ->
  parent_path (render_abs (p ++ [n])) = render_abs p.
Proof.
  intros Hv. unfold parent_path, render_abs.
  rewrite names_render, trailing_render
    by (try apply Forall_valid_segment; try assumption; now destruct p).
  rewrite removelast_last. now destruct p.
Qed.

Lemma location_valid (s : string) :
  Forall (fun n => valid_name n = true) (location s).
Proof.
  unfold location. rewrite <- lex_filter.
  apply lex_valid; [constructor | apply names_segment].
Qed.

(** The two shapes of [weakly_canonical] on an absolute path. *)
Lemma weakly_canonical_forms (d : disk) (s : string) :
  is_absolute s = true ->
  weakly_canonical d s = render_abs (location s)
  \/ (location s <> [] /\ weakly_canonical d s = render true (location s) true).
Proof.
  intros Ha. rewrite weakly_canonical_absolute by assumption.
  destruct (resolve d s) as [c|] eqn:E.
  - left. now rewrite (resolve_location d s c Ha E).
  - rewrite lexically_normal_absolute by assumption.
    destruct (location s) as [|x l] eqn:El; [now left|].
    destruct (snd _ || trailing s); [right | left]; [|reflexivity].
    split; [discriminate | reflexivity].
Qed.

(** A path that names a regular file has no final separator in its
    normal form. *)
Lemma lexically_normal_of_file (d : disk) (s : string) (c : list string)
    (content : list byte) :
  is_absolute s = true ->
  resolve d s = Some c ->
  lookup (root_node d) c = Some (File content) ->
  lexically_normal s = render_abs (location s).
Proof.
  intros Ha Hr Hf.
  pose proof (resolve_location d s c Ha Hr) as Hc.
  unfold resolve, start in Hr. rewrite (absolute_not_empty s Ha), Ha in Hr.
  destruct (split s) as [|x0 l0] eqn:Es; [now apply split_not_nil in Es|].
  assert (Hsnoc : exists segs x, split s = segs ++ [x]).
  { exists (removelast (x0 :: l0)), (last (x0 :: l0) "").
    rewrite Es. apply app_removelast_last. discriminate. }
  destruct Hsnoc as (segs & x & Hs). rewrite <- Es, Hs in Hr.
  assert (Hx : plain_name x = true).
  { destruct (plain_name x) eqn:Hp; [reflexivity|].
    destruct (walk_last_dir _ _ _ _ _ Hr Hp) as [es He]. congruence. }
  destruct (plain_name_inv x Hx) as (Hne & Hd & Hdd).
  rewrite lexically_normal_absolute by assumption.
  assert (Ht : trailing s = false).
  { unfold trailing, has_filename. rewrite Hs, last_last.
    unfold nonempty. now rewrite Hne. }
  assert (Hfl : snd (fold_left (normal_step true) (names s) ([], false)) = false).
  { unfold names. rewrite Hs, filter_app. simpl filter.
    unfold nonempty at 2. rewrite Hne. simpl negb. cbv iota.
    now apply normal_fold_snoc_plain. }
  rewrite Ht, Hfl. simpl orb.
  destruct (location s) eqn:El; [|reflexivity].
  subst c. simpl in Hf. discriminate.
Qed.

(** The effect of a successful [write_file] on a canonical path. *)
Lemma write_file_render (d1 d2 : disk) (p : list string) (n : string)
    (content : list byte) :
  Forall (fun n => valid_name n = true) (p ++ [n]) ->
  write_file d1 (render_abs (p ++ [n])) content = Some d2 ->
  lookup (root_node d2) (p ++ [n]) = Some (File content)
  /\ (forall es, lookup (root_node d1) (p ++ [n]) <> Some (Dir es)).
Proof.
  intros Hv. unfold write_file.
  change (render_abs (p ++ [n]) =? "") with false. cbv iota.
  rewrite split_render_abs by (try apply Forall_valid_no_sep; auto; now destruct p).
  change ("" :: p ++ [n]) with (("" :: p) ++ [n]).
  rewrite last_last, removelast_last.
  apply Forall_app in Hv as [Hp Hn]. inversion Hn as [|? ? Hn1 _]; subst.
  rewrite (valid_name_plain n Hn1). simpl negb. cbv iota.
  unfold start. change (is_absolute (render_abs (p ++ [n]))) with true.
  cbv iota.
  change (walk (root_node d1) [] ("" :: p)) with (walk (root_node d1) [] p).
  destruct (walk (root_node d1) [] p) as [pc|] eqn:Ew; [|discriminate].
  apply walk_lex in Ew. rewrite lex_plain in Ew by now apply Forall_valid_plain.
  simpl in Ew. subst pc.
  destruct (lookup (root_node d1) p) as [[?|es]|] eqn:Ep; try discriminate.
  destruct (update_dir (top d1) p (set_entry n (File content))) as [es' Hu].
  fold (root_node d1) in Hu.
  assert (Hl : lookup (Dir es') (p ++ [n]) = Some (File content)).
  { rewrite <- Hu. eapply lookup_update_set. exact Ep. }
  destruct (lookup (root_node d1) (p ++ [n])) as [[?|?]|] eqn:En;
    try discriminate; try (destruct (long_name n); [discriminate|]);
    rewrite Hu; intros H; inversion H; subst;
    (split; [exact Hl | congruence]).
Qed.

Lemma write_file_root (d1 : disk) (content : list byte) :
  write_file d1 "/" content = None.
Proof. reflexivity. Qed.

Lemma write_file_trailing (d1 : disk) (l : list string) (content : list byte) :
  l <> [] -> Forall (fun n => valid_name n = true) l ->
  write_file d1 (render true l true) content = None.
Proof.
  intros Hn Hv. unfold write_file. rewrite render_nonempty.
  rewrite split_render_trail by (try apply Forall_valid_no_sep; auto).
  change ("" :: l ++ [""]) with (("" :: l) ++ [""]).
  now rewrite last_last.
Qed.

(** How a successful [write] went: the validated path is the rendering of
    a location with a last name, and the new disk holds there the bytes
    that reached the file. *)
Lemma write_success (self : Filesystem.t) (d d' : disk) (p : string)
    (content : list byte) (fate : stream_fate) :
  is_absolute (Filesystem.m_Root self) = true ->
  Filesystem.write self d p content fate = (d', Returns (Ok tt)) ->
  let s := join (Filesystem.m_Root self) p in
  (p =? "") = false
  /\ is_absolute s = true
  /\ location s <> []
  /\ Filesystem.validate_path self d p = Returns (Ok (render_abs (location s)))
  /\ lookup (root_node d') (location s)
     = Some (File (stored_bytes fate content))
  /\ (resolve d s <> None -> lexically_normal s = render_abs (location s)).
Proof.
  intros Hroot Hw s. unfold Filesystem.write in Hw.
  destruct (Filesystem.validate_path self d p) as [[a|m]|w] eqn:Hv;
    [|inversion Hw..].
  destruct (validate_path_ok _ _ _ _ Hv) as (Hp & Ha & Hpre).
  fold s in Ha.
  assert (Hs : is_absolute s = true) by now apply join_absolute_left.
  pose proof (location_valid s) as Hval.
  assert (Hform : a = render_abs (location s) /\ location s <> []).
  { destruct (weakly_canonical_forms d s Hs) as [Hf | (Hne & Hf)];
      rewrite Hf in Ha; subst a.
    - split; [reflexivity|]. intros El. rewrite El in Hw.
      destruct (if has_parent_path (render_abs [])
                then create_directories d (parent_path (render_abs []))
                else (d, Ok tt)) as [d1 [[]|m]]; [|inversion Hw].
      change (render_abs []) with "/" in Hw.
      rewrite write_file_root in Hw. inversion Hw.
    - exfalso.
      destruct (if has_parent_path (render true (location s) true)
                then create_directories d
                       (parent_path (render true (location s) true))
                else (d, Ok tt)) as [d1 [[]|m]]; [|inversion Hw].
      rewrite write_file_trailing in Hw by assumption. inversion Hw. }
  destruct Hform as [-> Hne].
  repeat split; try assumption.
  - (* the bytes are there *)
    destruct (if has_parent_path (render_abs (location s))
              then create_directories d (parent_path (render_abs (location s)))
              else (d, Ok tt)) as [d1 [[]|m]]; [|inversion Hw].
    destruct (write_file d1 (render_abs (location s))
                (stored_bytes fate content)) as [d2|] eqn:Ef;
      [|inversion Hw].
    destruct (write_fails fate content); inversion Hw; subst d2.
    rewrite (app_removelast_last "" Hne) in Ef, Hval |- *.
    now destruct (write_file_render _ _ _ _ _ Hval Ef).
  - (* the target was a regular file when the path named an entry *)
    intros Hr. destruct (resolve d s) as [c|] eqn:Er; [|congruence].
    pose proof (resolve_location d s c Hs Er) as Hc.
    unfold resolve, start in Er. rewrite (absolute_not_empty s Hs), Hs in Er.
    destruct (walk_exists_nonempty _ _ _ _ (split_not_nil s) Er) as [x Hx].
    assert (Er' : resolve d s = Some c).
    { unfold resolve, start. now rewrite (absolute_not_empty s Hs), Hs. }
    destruct x as [bytes|es]; [eapply lexically_normal_of_file; eauto|].
    exfalso. subst c.
    rewrite (app_removelast_last "" Hne) in Hw, Hval, Hx.
    destruct (lookup_below_dir (root_node d) (removelast (location s))
                [last (location s) ""] (Dir es)) as [es0 Hpar];
      [discriminate | exact Hx |].
    rewrite parent_path_render in Hw by assumption.
    apply Forall_app in Hval as Hval2. destruct Hval2 as [Hvp _].
    rewrite (create_directories_existing d _ es0 Hvp Hpar) in Hw.
    destruct (has_parent_path _);
      (destruct (write_file d _ (stored_bytes fate content)) as [d2|] eqn:Ef;
       [|inversion Hw];
       destruct (write_file_render _ _ _ _ _ Hval Ef) as [_ Hnd];
       eapply Hnd; exact Hx).
Qed.

End Updates.

(* ================================================================== *)
(** ** Lemmas on directory listings *)

Section Listing.

Import Path Disk Spec.

Lemma find_entry_In (n : string) (es : list (string * node)) (x : node) :
  find_entry n es = Some x -> In (n, x) es.
Proof.
  induction es as [|[m y] es IH]; simpl; [discriminate|].
  destruct (m =? n) eqn:E.
  - apply String.eqb_eq in E. subst m. intros H. inversion H. now left.
  - intros H. right. now apply IH.
Qed.


Lemma wf_lookup (t : node) (p : list string) (x : node) :
  wf_node t -> lookup t p = Some x -> wf_node x.
Proof.
  revert t. induction p as [|c p IH]; intros t Hwf H; simpl in H.
  - now inversion H; subst.
  - destruct t as [?|es]; [discriminate|].
    destruct (find_entry c es) as [m|] eqn:E; [|discriminate].
    apply (IH m); [|exact H].
    inversion Hwf as [|? _ _ Hsub]; subst.
    rewrite Forall_forall in Hsub.
    apply (Hsub (c, m)). now apply find_entry_In.
Qed.









Lemma lookup_entry_names (t : node) (names : list string) (x : node) :
  wf_node t -> lookup t names = Some x ->
  Forall (fun n => entry_name n = true) names.
Proof.
  revert t. induction names as [|c names IH]; intros t Hwf H; [constructor|].
  simpl in H. destruct t as [?|es]; [discriminate|].
  destruct (find_entry c es) as [m|] eqn:E; [|discriminate].
  apply find_entry_In in E. inversion Hwf as [|? _ Hn Hsub]; subst.
  rewrite Forall_forall in Hn, Hsub. constructor.
  - exact (Hn _ E).
  - apply (IH m); [exact (Hsub _ E) | exact H].
Qed.



(** *** Disks that hold the same entries *)





























End Listing.

(* ================================================================== *)
(** ** Paths that lead above the root *)

Section Containment.

Import Path Disk Spec.

Lemma length_append (a b : string) :
  String.length (a ++ b)%string = String.length a + String.length b.
Proof. induction a as [|c a IH]; simpl; [reflexivity | now rewrite IH]. Qed.

Lemma concat_app_cons (l : list string) (x : string) (t : list string) :
  l <> [] ->
  String.concat "/" (l ++ x :: t)
  = (String.concat "/" l ++ String sep (String.concat "/" (x :: t)))%string.
Proof.
  induction l as [|y l IH]; [congruence|]. intros _.
  destruct l as [|z l].
  - reflexivity.
  - change ((y :: z :: l) ++ x :: t) with (y :: ((z :: l) ++ x :: t)).
    change ((z :: l) ++ x :: t) with (z :: (l ++ x :: t)) at 1.
    rewrite concat_cons2.
    change (z :: l ++ x :: t) with ((z :: l) ++ x :: t).
    rewrite IH by discriminate. rewrite concat_cons2.
    now rewrite append_assoc.
Qed.

Lemma length_concat_cons (x : string) (t : list string) :
  String.length x <= String.length (String.concat "/" (x :: t)).
Proof.
  destruct t as [|y t]; [simpl; lia|].
  rewrite concat_cons2, length_append. lia.
Qed.

Lemma valid_name_length (x : string) :
  valid_name x = true -> 1 <= String.length x.
Proof.
  intros H. apply valid_name_plain, plain_name_inv in H as (H & _ & _).
  destruct x; [discriminate | simpl; lia].
Qed.

(** The string of a location is longer than the strings of the locations
    above it, with or without a final separator. *)
Lemma render_ancestor_shorter (l : list string) (x : string) (t : list string)
    (tr : bool) :
  valid_name x = true -> (tr = true -> l <> []) ->
  String.length (render true l tr)
  < String.length (render_abs (l ++ x :: t)).
Proof.
  intros Hx Htr. pose proof (valid_name_length x Hx) as Hl.
  pose proof (length_concat_cons x t) as Hc.
  destruct l as [|y l].
  - destruct tr; [now specialize (Htr eq_refl)|].
    simpl app. rewrite render_abs_eq.
    change (String.length (render true [] false)) with 1.
    change (String.length (String sep (String.concat "/" (x :: t))))
      with (S (String.length (String.concat "/" (x :: t)))).
    lia.
  - rewrite render_abs_eq, concat_app_cons by discriminate.
    remember (String.concat "/" (y :: l)) as cl.
    remember (String.concat "/" (x :: t)) as ct.
    destruct tr.
    + rewrite render_trail_eq, <- Heqcl. simpl.
      rewrite !length_append. simpl. lia.
    + change (render true (y :: l) false) with (render_abs (y :: l)).
      rewrite render_abs_eq, <- Heqcl. simpl.
      rewrite !length_append. simpl. lia.
Qed.

(** A path that leads to a directory above a canonical root is rejected on
    every disk. *)
Lemma validate_path_rejects_above (d : disk) (p x : string)
    (above below : list string) :
  Forall (fun n => valid_name n = true) (above ++ x :: below) ->
  (p =? "") = false ->
  location (join (render_abs (above ++ x :: below)) p) = above ->
  weakly_canonical_throws d (join (render_abs (above ++ x :: below)) p)
  = false ->
  Filesystem.validate_path (Filesystem.new (render_abs (above ++ x :: below)))
    d p = Returns (Err msg_escapes_root).
Proof.
  intros Hv Hp Hloc Hw. rewrite validate_path_returns by assumption.
  cbv zeta. simpl Filesystem.m_Root.
  set (root := render_abs (above ++ x :: below)) in *.
  assert (Hs : is_absolute (join root p) = true)
    by now apply join_absolute_left.
  assert (Hx : valid_name x = true).
  { apply Forall_app in Hv as [_ Hv]. now inversion Hv. }
  assert (Hshort : String.length (weakly_canonical d (join root p))
                   < String.length root).
  { destruct (weakly_canonical_forms d _ Hs) as [-> | (Hne & ->)];
      rewrite Hloc.
    - apply (render_ancestor_shorter above x below false Hx). discriminate.
    - rewrite Hloc in Hne.
      now apply (render_ancestor_shorter above x below true Hx). }
  destruct (prefix root (weakly_canonical d (join root p))) eqn:E;
    [|reflexivity].
  apply prefix_length in E. lia.
Qed.

End Containment.

(* ================================================================== *)
(** ** Removing twice *)

Section Removal.

Import Path Disk Spec.

Lemma find_entry_absent (n : string) (es : list (string * node)) :
  ~ In n (map fst es) -> find_entry n es = None.
Proof.
  induction es as [|[m x] es IH]; simpl; [reflexivity|]. intros H.
  destruct (m =? n) eqn:E.
  - apply String.eqb_eq in E. subst m. exfalso. apply H. now left.
  - apply IH. intros Hin. apply H. now right.
Qed.

Lemma find_del_same (n : string) (es : list (string * node)) :
  NoDup (map fst es) -> find_entry n (del_entry n es) = None.
Proof.
  induction es as [|[m x] es IH]; simpl; [reflexivity|]. intros Hnd.
  inversion Hnd as [|? ? Hm Hnd']; subst.
  destruct (m =? n) eqn:E.
  - apply String.eqb_eq in E. subst m. now apply find_entry_absent.
  - simpl. rewrite E. now apply IH.
Qed.

(** After an entry is deleted from a directory of a well-formed tree there
    is nothing under its name. *)
Lemma lookup_update_del (t : node) (p : list string) (n : string)
    (es : list (string * node)) :
  wf_node t ->
  lookup t p = Some (Dir es) ->
  lookup (update t p (del_entry n)) (p ++ [n]) = None.
Proof.
  revert t. induction p as [|c p IH]; intros t Hwf H; simpl in *.
  - inversion H; subst. simpl. inversion Hwf; subst.
    now rewrite find_del_same.
  - destruct t as [?|es0]; [discriminate|].
    destruct (find_entry c es0) as [m|] eqn:E; [|discriminate].
    simpl. rewrite find_set_same. apply IH; [|exact H].
    apply (wf_lookup (Dir es0) [c] m Hwf). simpl. now rewrite E.
Qed.

Lemma location_render (l : list string) (tr : bool) :
  Forall (fun n => valid_name n = true) l -> (tr = true -> l <> []) ->
  location (render true l tr) = l.
Proof.
  intros Hv Htr. unfold location. rewrite <- lex_filter.
  fold (names (render true l tr)).
  rewrite names_render by now apply Forall_valid_segment.
  rewrite lex_plain by now apply Forall_valid_plain. reflexivity.
Qed.

Lemma prefix_append (r a b : string) :
  prefix r a = true -> prefix r (a ++ b)%string = true.
Proof.
  revert a. induction r as [|c r IH]; intros a H; [now destruct a, b|].
  destruct a as [|c' a]; [discriminate|]. simpl in *.
  destruct (ascii_dec c c'); [now apply IH | discriminate].
Qed.

Lemma render_trail_append (l : list string) :
  render true l true = (render_abs l ++ "/")%string.
Proof. rewrite render_trail_eq, render_abs_eq. reflexivity. Qed.

(** A directory whose entries are updated is still a directory. *)
Lemma lookup_update_dir (t : node) (p : list string)
    (f : list (string * node) -> list (string * node))
    (es : list (string * node)) :
  lookup t p = Some (Dir es) -> lookup (update t p f) p = Some (Dir (f es)).
Proof.
  revert t. induction p as [|c p IH]; intros t H; simpl in *.
  - inversion H; subst. reflexivity.
  - destruct t as [?|es0]; [discriminate|].
    destruct (find_entry c es0) as [m|] eqn:E; [|discriminate].
    simpl. rewrite find_set_same. now apply IH.
Qed.

(** A name that a directory does not have is [ENOENT], with or without a
    trailing separator. *)
Lemma resolve_error_gone (d : disk) (l : list string) (tr : bool)
    (es : list (string * node)) :
  Forall (fun n => valid_name n = true) l -> l <> [] ->
  long_name (last l "") = false ->
  lookup (root_node d) (removelast l) = Some (Dir es) ->
  lookup (root_node d) l = None ->
  resolve_error d (render true l tr) = Some ENOENT.
Proof.
  intros Hv Hne Hshort Hpar Hgone. unfold resolve_error, start.
  assert (Habs : is_absolute (render true l tr) = true) by reflexivity.
  rewrite (absolute_not_empty _ Habs), Habs.
  assert (Hsplit : split (render true l tr)
                   = "" :: l ++ (if tr then [""] else [])).
  { destruct tr.
    - apply split_render_trail; [assumption | now apply Forall_valid_no_sep].
    - rewrite app_nil_r.
      apply split_render_abs; [assumption | now apply Forall_valid_no_sep]. }
  rewrite Hsplit.
  change (walk_error (root_node d) [] ("" :: l ++ (if tr then [""] else [])))
    with (walk_error (root_node d) [] (l ++ (if tr then [""] else []))).
  rewrite (app_removelast_last "" Hne) in Hv, Hgone |- *.
  set (pre := removelast l) in *. set (n := last l "") in *.
  apply Forall_app in Hv as [Hpre Hn]. inversion Hn as [|? ? Hn' _]; subst.
  rewrite <- app_assoc, walk_error_app.
  rewrite (walk_names (root_node d) pre [] (Dir es) (Forall_valid_plain _ Hpre)
             Hpar).
  simpl app. simpl walk_error. rewrite Hpar.
  destruct (plain_name_not_skip n (valid_name_plain n Hn')) as [-> ->].
  now rewrite Hgone, Hshort.
Qed.

(** What a removal that returns [true] did. *)
Lemma fs_remove_true (d d1 : disk) (a : string) :
  fs_remove d a = (d1, Ok true) ->
  exists c,
    resolve d a = Some c /\ c <> []
    /\ d1 = with_top d
              (update (root_node d) (removelast c) (del_entry (last c ""))).
Proof.
  unfold fs_remove. destruct (resolve d a) as [c|];
    [|destruct (resolve_error d a) as [[| |]|]; discriminate].
  destruct (is_dot (last (split a) "")); [discriminate|].
  destruct (is_dotdot (last (split a) "")); [discriminate|].
  destruct c as [|x c]; [discriminate|].
  intros H. exists (x :: c). split; [reflexivity|]. split; [discriminate|].
  destruct (lookup (root_node d) (x :: c)) as [[?|[|? ?]]|];
    inversion H; reflexivity.
Qed.

(** A removal answers [false] exactly when the path is [ENOENT]. *)
Lemma fs_remove_enoent (d : disk) (a : string) :
  resolve_error d a = Some ENOENT -> fs_remove d a = (d, Ok false).
Proof.
  intros H. unfold fs_remove. now rewrite (resolve_error_some d a _ H), H.
Qed.

Lemma fs_remove_enotdir (d : disk) (a : string) :
  resolve_error d a = Some ENOTDIR ->
  fs_remove d a = (d, Err (strerror ENOTDIR)).
Proof.
  intros H. unfold fs_remove. now rewrite (resolve_error_some d a _ H), H.
Qed.

Lemma fs_remove_enametoolong (d : disk) (a : string) :
  resolve_error d a = Some ENAMETOOLONG ->
  fs_remove d a = (d, Err (strerror ENAMETOOLONG)).
Proof.
  intros H. unfold fs_remove. now rewrite (resolve_error_some d a _ H), H.
Qed.

Lemma fs_remove_false (d d1 : disk) (a : string) :
  fs_remove d a = (d1, Ok false) ->
  d1 = d /\ resolve_error d a = Some ENOENT.
Proof.
  unfold fs_remove. destruct (resolve d a) as [c|] eqn:E.
  2:{ destruct (resolve_none_error d a E) as [e He]. rewrite He.
      destruct e; intros H; inversion H. now split. }
  destruct (is_dot (last (split a) "")); [discriminate|].
  destruct (is_dotdot (last (split a) "")); [discriminate|].
  destruct c as [|x c]; [discriminate|].
  destruct (lookup (root_node d) (x :: c)) as [[?|[|? ?]]|]; discriminate.
Qed.

End Removal.

(* ================================================================== *)
(** ** Facts about the sample disks *)

Section Samples.

Import Path Disk Spec.

Lemma sample_disk_wf : wf_disk sample_disk.
Proof. unfold wf_disk, sample_disk, root_node. simpl. solve_wf. Qed.



Lemma sample_disk_root : canonical_root sample_disk "/a/b" ["a"; "b"].
Proof.
  split; [reflexivity|]. split; [now repeat constructor|].
  eexists. reflexivity.
Qed.

End Samples.

(* ================================================================== *)
(** ** Lemmas on the state a write leaves *)

Section Written.

Import Path Disk Spec.

(** After a successful [write] the validated path names a regular file with
    the bytes that reached it; and the path validates as before, when
    [weakly_canonical] returns on the new disk. *)
Lemma written_status (self : Filesystem.t) (d d' : disk) (p : string)
    (b : list byte) (fate : stream_fate) :
  is_absolute (Filesystem.m_Root self) = true ->
  Filesystem.write self d p b fate = (d', Returns (Ok tt)) ->
  exists a,
    Filesystem.validate_path self d p = Returns (Ok a)
    /\ (weakly_canonical_throws d' (join (Filesystem.m_Root self) p) = false ->
        Filesystem.validate_path self d' p = Returns (Ok a))
    /\ status d' a = Some (File (stored_bytes fate b)).
Proof.
  intros Hroot Hw.
  destruct (write_success self d d' p b fate Hroot Hw)
    as (Hp & Hs & Hne & Hv & Hl & Hn).
  set (s := join (Filesystem.m_Root self) p) in *.
  pose proof (location_valid s) as Hval.
  destruct (validate_path_ok _ _ _ _ Hv) as (_ & Ha & Hpre).
  fold s in Ha.
  exists (render_abs (location s)). split; [exact Hv|]. split.
  - intros Hlim. rewrite validate_path_returns by assumption.
    cbv zeta. fold s.
    assert (Hwc : weakly_canonical d' s = render_abs (location s)).
    { rewrite weakly_canonical_absolute by assumption.
      destruct (resolve d' s) as [c|] eqn:E.
      - now rewrite (resolve_location d' s c Hs E).
      - rewrite weakly_canonical_absolute in Ha by assumption.
        destruct (resolve d s) as [c|] eqn:E0.
        + apply Hn. discriminate.
        + now symmetry. }
    now rewrite Hwc, Hpre.
  - unfold status.
    rewrite resolve_render_abs by now apply Forall_valid_segment.
    rewrite (walk_names (root_node d') (location s) []
               (File (stored_bytes fate b)))
      by (try apply Forall_valid_plain; assumption).
    simpl app. exact Hl.
Qed.

(** What [read] returns on a validated path, by the entry it names. *)
Lemma read_validated (self : Filesystem.t) (d : disk) (p a : string) :
  Filesystem.validate_path self d p = Returns (Ok a) ->
  Filesystem.read self d p =
  match status d a with
  | None => Returns (Err ("Failed to open file: " ++ a)%string)
  | Some (Dir _) => Throws "filesystem error: cannot get file size"
  | Some (File bytes) => Returns (Ok bytes)
  end.
Proof.
  intros Hv. unfold Filesystem.read. rewrite Hv.
  destruct (status d a) as [[bytes|es]|]; try reflexivity.
  now rewrite firstn_all, Nat.eqb_refl.
Qed.

End Written.

(* ================================================================== *)
(** ** Lemmas on what an update keeps, and on directory creation *)

Section Growth.

Import Path Disk Spec.

Lemma find_set_other (m n : string) (v : node) (es : list (string * node)) :
  m <> n -> find_entry m (set_entry n v es) = find_entry m es.
Proof.
  intros Hmn. induction es as [|[k x] es IH]; simpl.
  - destruct (n =? m) eqn:E; [|reflexivity].
    apply String.eqb_eq in E. congruence.
  - destruct (k =? n) eqn:E; simpl.
    + apply String.eqb_eq in E. subst k.
      destruct (n =? m) eqn:E2; [|reflexivity].
      apply String.eqb_eq in E2. congruence.
    + now rewrite IH.
Qed.

Lemma find_del_other (m n : string) (es : list (string * node)) :
  m <> n -> find_entry m (del_entry n es) = find_entry m es.
Proof.
  intros Hmn. induction es as [|[k x] es IH]; simpl; [reflexivity|].
  destruct (k =? n) eqn:E; simpl.
  - apply String.eqb_eq in E. subst k.
    destruct (n =? m) eqn:E2; [|reflexivity].
    apply String.eqb_eq in E2. congruence.
  - now rewrite IH.
Qed.

(** An update of the entry [n] of the directory at [p] leaves the kind of
    every entry that is not at or below [p ++ [n]]. *)
Lemma update_frame (f : list (string * node) -> list (string * node))
    (n : string) :
  (forall es m, m <> n -> find_entry m (f es) = find_entry m es) ->
  forall (p : list string) (t : node) (q : list string),
    (forall r, q <> p ++ n :: r) ->
    entry_kind (lookup (update t p f) q) = entry_kind (lookup t q).
Proof.
  intros Hf. induction p as [|c0 p IH]; intros t q Hq.
  - destruct t as [b|es]; [reflexivity|]. simpl update.
    destruct q as [|c q]; [reflexivity|]. simpl.
    rewrite Hf; [reflexivity|]. intros ->. now apply (Hq q).
  - destruct t as [b|es]; [reflexivity|]. simpl update.
    destruct (find_entry c0 es) as [m|] eqn:E; [|reflexivity].
    destruct q as [|c q]; [reflexivity|]. simpl.
    destruct (String.eqb_spec c c0) as [->|Hc].
    + rewrite find_set_same, E. apply IH.
      intros r ->. now apply (Hq r).
    + now rewrite find_set_other.
Qed.

Lemma keeps_refl (t : node) : keeps t t.
Proof. intros q _. reflexivity. Qed.

Lemma keeps_trans (t1 t2 t3 : node) : keeps t1 t2 -> keeps t2 t3 -> keeps t1 t3.
Proof.
  intros H12 H23 q Hq. rewrite <- (H12 q Hq). apply H23.
  intros Hn. specialize (H12 q Hq). rewrite Hn in H12. simpl in H12.
  destruct (lookup t1 q) as [[?|?]|]; [discriminate | discriminate | congruence].
Qed.

Lemma keeps_dir (t t' : node) (q : list string) (es : list (string * node)) :
  keeps t t' -> lookup t q = Some (Dir es) ->
  exists es', lookup t' q = Some (Dir es').
Proof.
  intros Hk H. specialize (Hk q). rewrite H in Hk.
  specialize (Hk ltac:(discriminate)). simpl in Hk.
  destruct (lookup t' q) as [[?|es']|]; try discriminate. eauto.
Qed.

Lemma keeps_file (t t' : node) (q : list string) (b : list byte) :
  keeps t t' -> lookup t q = Some (File b) -> lookup t' q = Some (File b).
Proof.
  intros Hk H. specialize (Hk q). rewrite H in Hk. simpl in Hk.
  specialize (Hk ltac:(discriminate)).
  destruct (lookup t' q) as [[?|es']|]; try discriminate.
  now inversion Hk.
Qed.

Lemma keeps_some (t t' : node) (q : list string) (x : node) :
  keeps t t' -> lookup t q = Some x -> exists y, lookup t' q = Some y.
Proof.
  intros Hk H. destruct x as [b|es].
  - exists (File b). now apply (keeps_file t).
  - destruct (keeps_dir t t' q es Hk H) as [es' He]. eauto.
Qed.

(** Setting an entry that was not there keeps everything. *)
Lemma update_set_keeps (t : node) (p : list string) (n : string) (v : node) :
  lookup t (p ++ [n]) = None ->
  keeps t (update t p (set_entry n v)).
Proof.
  intros Hnone q Hq. apply (update_frame (set_entry n v) n).
  - intros es m Hm. now apply find_set_other.
  - intros r ->. apply Hq.
    change (p ++ n :: r) with (p ++ [n] ++ r).
    now rewrite app_assoc, lookup_app, Hnone.
Qed.

(** [create_directories] keeps every entry, whatever it returns. *)
Lemma mkdirs_keeps (segs : list string) :
  forall (t t' : node) (cur : list string) (r : result unit),
    mkdirs t cur segs = (t', r) -> keeps t t'.
Proof.
  induction segs as [|c rest IH]; intros t t' cur r; simpl.
  - intros H. inversion H. apply keeps_refl.
  - destruct (lookup t cur) as [[?|es]|];
      try (intros H; inversion H; apply keeps_refl).
    destruct (skip_segment c); [apply IH|].
    destruct (is_dotdot c); [apply IH|].
    destruct (lookup t (cur ++ [c])) as [[?|es1]|] eqn:E;
      try (intros H; inversion H; apply keeps_refl).
    + apply IH.
    + destruct (long_name c); [intros H; inversion H; apply keeps_refl|].
      intros H. eapply keeps_trans; [|eapply IH; exact H].
      now apply update_set_keeps.
Qed.

(** After [create_directories] the path resolves, to a directory. *)
Lemma mkdirs_walk (segs : list string) :
  forall (t t' : node) (cur : list string) (es : list (string * node)),
    mkdirs t cur segs = (t', Ok tt) ->
    lookup t cur = Some (Dir es) ->
    exists c es', walk t' cur segs = Some c /\ lookup t' c = Some (Dir es').
Proof.
  induction segs as [|c rest IH]; intros t t' cur es Hm Hc.
  - simpl in Hm. inversion Hm; subst. exists cur, es. now split.
  - pose proof (mkdirs_keeps _ _ _ _ _ Hm) as Hk.
    destruct (keeps_dir t t' cur es Hk Hc) as [es' Hc'].
    simpl in Hm. rewrite Hc in Hm. simpl. rewrite Hc'.
    destruct (skip_segment c); [now apply (IH t t' cur es)|].
    destruct (is_dotdot c).
    + destruct (lookup_removelast_dir t cur es Hc) as [es0 H0].
      now apply (IH t t' (removelast cur) es0).
    + destruct (lookup t (cur ++ [c])) as [[?|es1]|] eqn:E; try discriminate.
      * destruct (keeps_dir t t' _ es1 Hk E) as [es2 ->].
        now apply (IH t t' (cur ++ [c]) es1).
      * destruct (long_name c); [discriminate|].
        set (t1 := update t cur (set_entry c (Dir []))) in *.
        assert (H1 : lookup t1 (cur ++ [c]) = Some (Dir [])).
        { unfold t1. eapply lookup_update_set. exact Hc. }
        destruct (keeps_dir t1 t' _ [] (mkdirs_keeps _ _ _ _ _ Hm) H1)
          as [es2 ->].
        now apply (IH t1 t' (cur ++ [c]) []).
Qed.

(** [create_directories] along a path that resolves to a directory changes
    nothing. *)
Lemma mkdirs_walked (segs : list string) :
  forall (t : node) (cur c : list string) (es : list (string * node)),
    walk t cur segs = Some c -> lookup t c = Some (Dir es) ->
    mkdirs t cur segs = (t, Ok tt).
Proof.
  induction segs as [|x rest IH]; intros t cur c es Hw Hc; simpl in *;
    [reflexivity|].
  destruct (lookup t cur) as [[?|es0]|]; try discriminate.
  destruct (skip_segment x); [now apply (IH t cur c es)|].
  destruct (is_dotdot x); [now apply (IH t _ c es)|].
  destruct (lookup t (cur ++ [x])) as [[b|es1]|] eqn:E; try discriminate.
  - exfalso. destruct rest as [|y rest]; simpl in Hw.
    + inversion Hw; subst. congruence.
    + rewrite E in Hw. discriminate.
  - now apply (IH t _ c es).
Qed.

(** Nothing is missing along a path that resolves. *)
Lemma missing_walked (segs : list string) :
  forall (t : node) (cur c : list string),
    walk t cur segs = Some c -> missing t cur segs = 0.
Proof.
  induction segs as [|x rest IH]; intros t cur c Hw; simpl in *;
    [reflexivity|].
  destruct (lookup t cur) as [[?|es0]|]; try discriminate.
  destruct (skip_segment x); [now apply (IH t cur c)|].
  destruct (is_dotdot x); [now apply (IH t _ c)|].
  destruct (lookup t (cur ++ [x])) as [y|] eqn:E; [|discriminate].
  now apply (IH t _ c).
Qed.

(** [create_directories] fails on a path that names a regular file or runs
    through one, and creates nothing. *)
Lemma mkdirs_file (segs : list string) :
  forall (t : node) (cur c : list string) (es : list (string * node))
         (b : list byte),
    lookup t cur = Some (Dir es) ->
    walk t cur segs = Some c -> lookup t c = Some (File b) ->
    mkdirs t cur segs = (t, Err (strerror ENOTDIR)).
Proof.
  induction segs as [|x rest IH]; intros t cur c es b Hc Hw Hf; simpl in *.
  - inversion Hw; subst. congruence.
  - rewrite Hc in *.
    destruct (skip_segment x); [now apply (IH t cur c es b)|].
    destruct (is_dotdot x).
    + destruct (lookup_removelast_dir t cur es Hc) as [es0 H0].
      now apply (IH t _ c es0 b).
    + destruct (lookup t (cur ++ [x])) as [[b1|es1]|] eqn:E;
        try discriminate; [reflexivity|].
      now apply (IH t _ c es1 b).
Qed.

Lemma mkdirs_enotdir (segs : list string) :
  forall (t : node) (cur : list string),
    walk_error t cur segs = Some ENOTDIR ->
    mkdirs t cur segs = (t, Err (strerror ENOTDIR)).
Proof.
  induction segs as [|x rest IH]; intros t cur; simpl; [discriminate|].
  destruct (lookup t cur) as [[?|es0]|]; try discriminate; [reflexivity|].
  destruct (skip_segment x); [apply IH|].
  destruct (is_dotdot x); [apply IH|].
  destruct (lookup t (cur ++ [x])) as [[b1|es1]|] eqn:E.
  - reflexivity.
  - apply IH.
  - now destruct (long_name x).
Qed.

Lemma mkdirs_first_dir (t t' : node) (cur segs : list string) :
  segs <> [] -> mkdirs t cur segs = (t', Ok tt) ->
  exists es, lookup t cur = Some (Dir es).
Proof.
  destruct segs as [|c rest]; [congruence|]. intros _. simpl.
  destruct (lookup t cur) as [[?|es]|]; try discriminate. eauto.
Qed.

(** [create_directories] keeps every entry and the working directory,
    whatever it returns. *)
Lemma create_directories_keeps (d d' : disk) (a : string) (r : result unit) :
  create_directories d a = (d', r) ->
  cwd d' = cwd d /\ keeps (root_node d) (root_node d').
Proof.
  unfold create_directories.
  destruct (a =? "");
    [intros H; inversion H; subst; split; [reflexivity | apply keeps_refl]|].
  destruct (Nat.ltb _ _);
    [intros H; inversion H; subst; split; [reflexivity | apply keeps_refl]|].
  destruct (mkdirs (root_node d) (start d a) (split a)) as [t r0] eqn:Hm.
  intros H. inversion H; subst d' r0. clear H.
  pose proof (mkdirs_keeps _ _ _ _ _ Hm) as Hk.
  destruct (keeps_dir _ _ [] (top d) Hk eq_refl) as [es' He].
  simpl in He. inversion He; subst t.
  split; [reflexivity | exact Hk].
Qed.

(** What a successful [create_directories] leaves: the path names a
    directory, the working directory is the same, and every entry is
    kept. *)
Lemma create_directories_ok (d d' : disk) (a : string) :
  create_directories d a = (d', Ok tt) ->
  is_directory d' a = true
  /\ cwd d' = cwd d
  /\ keeps (root_node d) (root_node d').
Proof.
  intros H. destruct (create_directories_keeps _ _ _ _ H) as [Hcwd Hkeep].
  split; [|now split].
  revert H. unfold create_directories. destruct (a =? "") eqn:Ea; [discriminate|].
  destruct (Nat.ltb _ _); [discriminate|].
  destruct (mkdirs (root_node d) (start d a) (split a)) as [t r0] eqn:Hm.
  intros H. inversion H; subst d' r0. clear H.
  pose proof (mkdirs_keeps _ _ _ _ _ Hm) as Hk.
  destruct (keeps_dir _ _ [] (top d) Hk eq_refl) as [es' He].
  simpl in He. inversion He; subst t.
  assert (Hroot : root_node (with_top d (Dir es')) = Dir es') by reflexivity.
  destruct (mkdirs_first_dir _ _ _ _ (split_not_nil a) Hm) as [es Hc].
  destruct (mkdirs_walk _ _ _ _ es Hm Hc) as (c & es1 & Hw & Hl).
  unfold is_directory, status, resolve. rewrite Ea, Hroot.
  change (start (with_top d (Dir es')) a) with (start d a).
  now rewrite Hw, Hl.
Qed.

(** Resolution finds in a tree that keeps every entry what it found
    before. *)
Lemma keeps_walk (t t' : node) (segs cur c : list string) :
  keeps t t' -> walk t cur segs = Some c -> walk t' cur segs = Some c.
Proof.
  intros Hk. revert cur. induction segs as [|x rest IH]; intros cur; simpl;
    [trivial|].
  destruct (lookup t cur) as [[?|es]|] eqn:Hc; try discriminate.
  destruct (keeps_dir t t' cur es Hk Hc) as [es' ->].
  destruct (skip_segment x); [apply IH|].
  destruct (is_dotdot x); [apply IH|].
  destruct (lookup t (cur ++ [x])) as [y|] eqn:E; [|discriminate].
  destruct (keeps_some t t' _ y Hk E) as [y' ->]. apply IH.
Qed.

(** Skipped segments create nothing. *)
Lemma mkdirs_skips (trl : list string) (t : node) (cur : list string)
    (es : list (string * node)) :
  Forall (fun c => skip_segment c = true) trl ->
  lookup t cur = Some (Dir es) ->
  mkdirs t cur trl = (t, Ok tt).
Proof.
  intros Hs Hc. induction Hs as [|c trl Hc0 _ IH]; simpl; [reflexivity|].
  now rewrite Hc, Hc0.
Qed.

(** Below a directory that is empty every name within the limit is
    created. *)
Lemma mkdirs_fresh (ns trl : list string) :
  Forall (fun n => plain_name n = true) ns ->
  Forall (fun n => long_name n = false) ns ->
  Forall (fun c => skip_segment c = true) trl ->
  forall (t : node) (cur : list string),
    lookup t cur = Some (Dir []) ->
    exists t', mkdirs t cur (ns ++ trl) = (t', Ok tt).
Proof.
  intros Hn Hl Hs. induction Hn as [|n ns Hn0 _ IH]; intros t cur Hc.
  - exists t. now apply (mkdirs_skips trl t cur []).
  - inversion Hl as [|? ? Hl0 Hl1]; subst.
    simpl. rewrite Hc. destruct (plain_name_not_skip n Hn0) as [-> ->].
    rewrite lookup_app, Hc. simpl. rewrite Hl0.
    apply IH; [exact Hl1|]. eapply lookup_update_set. exact Hc.
Qed.

(** On names within the limit, [create_directories] succeeds unless the
    path names a regular file or runs through one. *)
Lemma mkdirs_names (ns trl : list string) :
  Forall (fun n => plain_name n = true) ns ->
  Forall (fun n => long_name n = false) ns ->
  Forall (fun c => skip_segment c = true) trl ->
  forall (t : node) (cur : list string) (es : list (string * node)),
    lookup t cur = Some (Dir es) ->
    (exists t', mkdirs t cur (ns ++ trl) = (t', Ok tt))
    \/ walk_error t cur (ns ++ trl) = Some ENOTDIR
    \/ (exists c b, walk t cur (ns ++ trl) = Some c
                    /\ lookup t c = Some (File b)).
Proof.
  intros Hn Hl Hs. revert Hl.
  induction Hn as [|n ns Hn0 Hn IH]; intros Hl t cur es Hc.
  - left. exists t. now apply (mkdirs_skips trl t cur es).
  - inversion Hl as [|? ? Hl0 Hl1]; subst.
    simpl. rewrite Hc. destruct (plain_name_not_skip n Hn0) as [-> ->].
    destruct (lookup t (cur ++ [n])) as [[b|es1]|] eqn:E.
    + right. destruct (ns ++ trl) as [|x r] eqn:Er.
      * right. exists (cur ++ [n]), b. now split.
      * left. simpl. now rewrite E.
    + now apply (IH Hl1 t (cur ++ [n]) es1).
    + left. rewrite Hl0. apply (mkdirs_fresh ns trl Hn Hl1 Hs).
      eapply lookup_update_set. exact Hc.
Qed.

(** The two shapes of a validated path under an absolute root. *)
Lemma validated_forms (self : Filesystem.t) (d : disk) (p a : string) :
  is_absolute (Filesystem.m_Root self) = true ->
  Filesystem.validate_path self d p = Returns (Ok a) ->
  exists l tr,
    a = render true l tr
    /\ Forall (fun n => valid_name n = true) l
    /\ (tr = true -> l <> [])
    /\ l = location (join (Filesystem.m_Root self) p).
Proof.
  intros Hroot Hv.
  destruct (validate_path_ok _ _ _ _ Hv) as (Hp & Ha & _).
  assert (Hs : is_absolute (join (Filesystem.m_Root self) p) = true)
    by now apply join_absolute_left.
  pose proof (location_valid (join (Filesystem.m_Root self) p)) as Hval.
  destruct (weakly_canonical_forms d _ Hs) as [Hf | (Hne & Hf)];
    rewrite <- Ha in Hf.
  - exists (location (join (Filesystem.m_Root self) p)), false.
    split; [exact Hf|]. split; [exact Hval|]. split; [discriminate | reflexivity].
  - exists (location (join (Filesystem.m_Root self) p)), true.
    split; [exact Hf|]. split; [exact Hval|]. split; [now intros _ | reflexivity].
Qed.

Lemma split_render (l : list string) (tr : bool) :
  Forall (fun n => valid_name n = true) l -> (tr = true -> l <> []) ->
  exists trl,
    split (render true l tr) = "" :: l ++ trl
    /\ Forall (fun c => skip_segment c = true) trl.
Proof.
  intros Hv Htr. destruct tr.
  - exists [""]. split; [|now repeat constructor].
    apply split_render_trail; [now apply Htr | now apply Forall_valid_no_sep].
  - destruct l as [|n l].
    + exists [""]. split; [reflexivity | now repeat constructor].
    + exists []. split; [|constructor]. rewrite app_nil_r.
      apply split_render_abs; [discriminate | now apply Forall_valid_no_sep].
Qed.

End Growth.

(* ================================================================== *)
(** ** Lemmas on what the operations leave in place *)

Section Frames.

Import Path Disk Spec.

(** A path with a final separator never names a regular file. *)
Lemma status_trailing (d : disk) (l : list string) (b : list byte) :
  l <> [] -> Forall (fun n => valid_name n = true) l ->
  status d (render true l true) <> Some (File b).
Proof.
  intros Hne Hv. unfold status.
  rewrite resolve_render_trail by (auto; now apply Forall_valid_segment).
  destruct (walk (root_node d) [] (l ++ [""])) as [c|] eqn:E; [|discriminate].
  destruct (walk_last_dir _ _ _ _ _ E eq_refl) as [es ->]. discriminate.
Qed.

Lemma status_render_abs (d : disk) (l : list string) (x : node) :
  Forall (fun n => valid_name n = true) l ->
  lookup (root_node d) l = Some x ->
  status d (render_abs l) = Some x.
Proof.
  intros Hv Hl. unfold status.
  rewrite resolve_render_abs by now apply Forall_valid_segment.
  rewrite (walk_names (root_node d) l [] x)
    by (try apply Forall_valid_plain; assumption).
  exact Hl.
Qed.

Lemma status_render_abs_inv (d : disk) (l : list string) (x : node) :
  Forall (fun n => valid_name n = true) l ->
  status d (render_abs l) = Some x ->
  lookup (root_node d) l = Some x.
Proof.
  intros Hv. unfold status.
  rewrite resolve_render_abs by now apply Forall_valid_segment.
  destruct (walk (root_node d) [] l) as [c|] eqn:E; [|discriminate].
  apply walk_lex in E. rewrite lex_plain in E by now apply Forall_valid_plain.
  simpl in E. now subst c.
Qed.

Lemma read_ok_inv (self : Filesystem.t) (d : disk) (q : string)
    (b : list byte) :
  Filesystem.read self d q = Returns (Ok b) ->
  exists a, Filesystem.validate_path self d q = Returns (Ok a)
            /\ status d a = Some (File b).
Proof.
  destruct (Filesystem.validate_path self d q) as [[a|m]|w] eqn:Hv.
  - rewrite (read_validated self d q a Hv).
    destruct (status d a) as [[bytes|es]|] eqn:Hst; try discriminate.
    intros H. inversion H; subst. exists a. split; [reflexivity | exact Hst].
  - unfold Filesystem.read. rewrite Hv. discriminate.
  - unfold Filesystem.read. rewrite Hv. discriminate.
Qed.

(** Where the regular file lies that a validated path names. *)
Lemma file_location (self : Filesystem.t) (d : disk) (q a : string)
    (b : list byte) :
  is_absolute (Filesystem.m_Root self) = true ->
  Filesystem.validate_path self d q = Returns (Ok a) ->
  status d a = Some (File b) ->
  (q =? "") = false
  /\ a = render_abs (location (join (Filesystem.m_Root self) q))
  /\ lexically_normal (join (Filesystem.m_Root self) q) = a
  /\ prefix (Filesystem.m_Root self) a = true
  /\ lookup (root_node d) (location (join (Filesystem.m_Root self) q))
     = Some (File b).
Proof.
  intros Hroot Hv Hst.
  destruct (validate_path_ok _ _ _ _ Hv) as (Hp & Ha & Hpre).
  set (s := join (Filesystem.m_Root self) q) in *.
  assert (Hs : is_absolute s = true) by now apply join_absolute_left.
  pose proof (location_valid s) as Hval.
  assert (Hform : a = render_abs (location s)).
  { destruct (weakly_canonical_forms d s Hs) as [Hf | (Hne & Hf)];
      rewrite <- Ha in Hf; [exact Hf|].
    exfalso. rewrite Hf in Hst. now apply (status_trailing d _ b Hne Hval). }
  assert (Hl : lookup (root_node d) (location s) = Some (File b)).
  { apply status_render_abs_inv; [assumption | now rewrite <- Hform]. }
  repeat split; try assumption.
  rewrite weakly_canonical_absolute in Ha by assumption.
  destruct (resolve d s) as [c|] eqn:E; [|now symmetry].
  rewrite Hform. apply (lexically_normal_of_file d s c b Hs E).
  now rewrite (resolve_location d s c Hs E).
Qed.

(** A path whose location holds a regular file validates to that location
    and names the file. *)
Lemma read_at (self : Filesystem.t) (d' : disk) (q : string) (b : list byte) :
  is_absolute (Filesystem.m_Root self) = true ->
  (q =? "") = false ->
  weakly_canonical_throws d' (join (Filesystem.m_Root self) q) = false ->
  lexically_normal (join (Filesystem.m_Root self) q)
  = render_abs (location (join (Filesystem.m_Root self) q)) ->
  prefix (Filesystem.m_Root self)
    (render_abs (location (join (Filesystem.m_Root self) q))) = true ->
  lookup (root_node d') (location (join (Filesystem.m_Root self) q))
  = Some (File b) ->
  Filesystem.read self d' q = Returns (Ok b).
Proof.
  intros Hroot Hp Hthrow Hn Hpre Hl.
  set (s := join (Filesystem.m_Root self) q) in *.
  assert (Hs : is_absolute s = true) by now apply join_absolute_left.
  assert (Hv : Filesystem.validate_path self d' q
               = Returns (Ok (render_abs (location s)))).
  { rewrite validate_path_returns by assumption. cbv zeta. fold s.
    assert (Hwc : weakly_canonical d' s = render_abs (location s)).
    { rewrite weakly_canonical_absolute by assumption.
      destruct (resolve d' s) as [c|] eqn:E; [|exact Hn].
      now rewrite (resolve_location d' s c Hs E). }
    now rewrite Hwc, Hpre. }
  rewrite (read_validated self d' q _ Hv).
  now rewrite (status_render_abs d' (location s) (File b) (location_valid s) Hl).
Qed.

(** A file that is still at its location reads as before, when
    [weakly_canonical] returns on the new disk. *)
Lemma read_kept (self : Filesystem.t) (d d' : disk) (q : string)
    (b : list byte) :
  is_absolute (Filesystem.m_Root self) = true ->
  Filesystem.read self d q = Returns (Ok b) ->
  weakly_canonical_throws d' (join (Filesystem.m_Root self) q) = false ->
  lookup (root_node d') (location (join (Filesystem.m_Root self) q))
  = Some (File b) ->
  Filesystem.read self d' q = Returns (Ok b).
Proof.
  intros Hroot Hr Hthrow Hl.
  destruct (read_ok_inv self d q b Hr) as (a & Hv & Hst).
  destruct (file_location self d q a b Hroot Hv Hst)
    as (Hp & Ha & Hn & Hpre & _).
  apply read_at; try assumption; now rewrite <- Ha.
Qed.




(** A removal that does not return [true] changes nothing. *)
Lemma fs_remove_unchanged (d d1 : disk) (a : string) (r : result bool) :
  fs_remove d a = (d1, r) -> r <> Ok true -> d1 = d.
Proof.
  unfold fs_remove. destruct (resolve d a) as [c|].
  - destruct (is_dot (last (split a) "")); [intros H; now inversion H|].
    destruct (is_dotdot (last (split a) "")); [intros H; now inversion H|].
    destruct c as [|x c]; [intros H; now inversion H|].
    destruct (lookup (root_node d) (x :: c)) as [[?|[|? ?]]|];
      intros H; inversion H; subst; try reflexivity; congruence.
  - destruct (resolve_error d a) as [[| |]|]; intros H; now inversion H.
Qed.

(** A tree that lost entries of a tree with names within the limit: where
    resolution did not stop at a component over the limit, it does not
    either on the smaller tree. *)
Lemma walk_error_smaller (t t' : node) (segs : list string) :
  keeps t' t ->
  (forall q n x, lookup t (q ++ [n]) = Some x -> long_name n = false) ->
  forall cur,
    walk_error t cur segs <> Some ENAMETOOLONG ->
    walk_error t' cur segs <> Some ENAMETOOLONG.
Proof.
  intros Hk Hshort. induction segs as [|c rest IH]; intros cur; simpl;
    [trivial|].
  destruct (lookup t' cur) as [[?|es']|] eqn:Hc'; try discriminate.
  destruct (keeps_dir t' t cur es' Hk Hc') as [es ->].
  destruct (skip_segment c); [apply IH|].
  destruct (is_dotdot c); [apply IH|].
  destruct (lookup t' (cur ++ [c])) as [y'|] eqn:E'.
  - destruct (keeps_some t' t _ y' Hk E') as [y ->]. apply IH.
  - destruct (lookup t (cur ++ [c])) as [y|] eqn:E.
    + intros _. rewrite (Hshort cur c y E). discriminate.
    + destruct (long_name c); [congruence | discriminate].
Qed.

Lemma wf_short_names (t : node) :
  wf_node t ->
  forall q n x, lookup t (q ++ [n]) = Some x -> long_name n = false.
Proof.
  intros Hwf q n x H.
  pose proof (lookup_entry_names t _ x Hwf H) as Hn.
  apply Forall_app in Hn as [_ Hn]. inversion Hn; subst.
  now apply entry_name_short.
Qed.

(** The tree an entry was removed from holds every entry of the tree
    without it. *)
Lemma update_del_keeps (t : node) (p : list string) (n : string)
    (es : list (string * node)) :
  wf_node t -> lookup t p = Some (Dir es) ->
  keeps (update t p (del_entry n)) t.
Proof.
  intros Hwf Hp q Hq. symmetry.
  apply (update_frame (del_entry n) n).
  - intros es0 m Hm. now apply find_del_other.
  - intros r ->. apply Hq.
    change (p ++ n :: r) with (p ++ [n] ++ r).
    rewrite app_assoc, lookup_app.
    now rewrite (lookup_update_del t p n es Hwf Hp).
Qed.

(** After a [remove] that succeeded the path validates, and resolving the
    validated path finds no such entry. *)
Lemma remove_gone (self : Filesystem.t) (d d1 : disk) (p : string) :
  wf_disk d ->
  is_absolute (Filesystem.m_Root self) = true ->
  Filesystem.remove self d p = (d1, Returns (Ok tt)) ->
  exists a1, Filesystem.validate_path self d1 p = Returns (Ok a1)
             /\ resolve_error d1 a1 = Some ENOENT.
Proof.
  intros Hwf Hroot Hr. unfold Filesystem.remove in Hr.
  destruct (Filesystem.validate_path self d p) as [[a|m]|w] eqn:Hv;
    [|inversion Hr..].
  destruct (fs_remove d a) as [d' [b|m]] eqn:Hf; inversion Hr; subst d'.
  destruct b.
  - (* an entry was removed *)
    destruct (fs_remove_true d d1 a Hf) as (c & Hres & Hne & Hd1).
    destruct (validate_path_ok _ _ _ _ Hv) as (Hp & Ha & Hpre).
    pose proof (validate_path_returned _ _ _ _ Hp Hv) as Hthrow.
    set (s := join (Filesystem.m_Root self) p) in *.
    assert (Hs : is_absolute s = true) by now apply join_absolute_left.
    pose proof (location_valid s) as Hval.
    assert (Hc : c = location s
                 /\ (prefix (Filesystem.m_Root self) (render_abs (location s))
                     = true
                     \/ a = lexically_normal s)).
    { destruct (weakly_canonical_forms d s Hs) as [Hw | (Hn & Hw)];
        rewrite <- Ha in Hw.
      - split.
        + rewrite Hw in Hres. apply resolve_location in Hres; [|reflexivity].
          unfold render_abs in Hres.
          now rewrite location_render in Hres by (assumption || discriminate).
        + left. now rewrite <- Hw.
      - split.
        + rewrite Hw in Hres. apply resolve_location in Hres; [|reflexivity].
          now rewrite location_render in Hres by auto.
        + right. rewrite weakly_canonical_absolute in Ha by assumption.
          destruct (resolve d s) as [c0|] eqn:E; [|exact Ha].
          exfalso. rewrite (resolve_location d s c0 Hs E), Hw in Ha.
          apply (f_equal String.length) in Ha.
          rewrite render_trail_append, length_append in Ha. simpl in Ha. lia. }
    destruct Hc as [Hcl Hc]. subst c.
    (* the location is gone on the new disk *)
    destruct (walk_exists_nonempty (root_node d) (split a)
                (start d a) (location s)) as [x Hx].
    { apply split_not_nil. }
    { unfold resolve in Hres. destruct (a =? ""); [discriminate | exact Hres]. }
    rewrite (app_removelast_last "" Hne) in Hx.
    pose proof (wf_short_names _ Hwf _ _ _ Hx) as Hshort.
    destruct (lookup_below_dir (root_node d) (removelast (location s))
                [last (location s) ""] x) as [es Hpar];
      [discriminate | exact Hx |].
    destruct (update_dir (top d) (removelast (location s))
                (del_entry (last (location s) ""))) as [es' Hu].
    fold (root_node d) in Hu.
    assert (Hroot1 : root_node d1
                     = update (root_node d) (removelast (location s))
                         (del_entry (last (location s) ""))).
    { rewrite Hd1, Hu. reflexivity. }
    assert (Hgone : lookup (root_node d1) (location s) = None).
    { pose proof (lookup_update_del (root_node d) (removelast (location s))
                    (last (location s) "") es Hwf Hpar) as Hdel.
      rewrite <- (app_removelast_last "" Hne) in Hdel.
      now rewrite Hroot1. }
    assert (Hnone : forall s', is_absolute s' = true -> location s' = location s ->
                               resolve d1 s' = None).
    { intros s' Hs' Hl'. destruct (resolve d1 s') as [c'|] eqn:E; [|reflexivity].
      pose proof (resolve_location d1 s' c' Hs' E) as Hc'.
      unfold resolve in E. destruct (s' =? ""); [discriminate|].
      destruct (walk_exists_nonempty _ _ _ _ (split_not_nil s') E) as [y Hy].
      congruence. }
    (* weakly_canonical returns on the new disk *)
    assert (Hthrow1 : weakly_canonical_throws d1 s = false).
    { unfold weakly_canonical_throws in Hthrow |- *.
      apply orb_false_iff in Hthrow as [Hlen Hst]. rewrite Hlen. simpl.
      unfold status_throws, resolve_error in Hst |- *.
      rewrite (absolute_not_empty s Hs) in Hst |- *.
      unfold start in Hst |- *. rewrite Hs in Hst |- *.
      assert (Hw : walk_error (root_node d1) [] (split s)
                   <> Some ENAMETOOLONG).
      { rewrite Hroot1.
        apply (walk_error_smaller (root_node d)).
        - now apply (update_del_keeps _ _ _ es).
        - now apply wf_short_names.
        - intros Hw. now rewrite Hw in Hst. }
      destruct (walk_error (root_node d1) [] (split s)) as [[| |]|];
        congruence. }
    (* validation on the new disk *)
    assert (Hwc : weakly_canonical d1 s = lexically_normal s).
    { rewrite weakly_canonical_absolute by assumption.
      now rewrite (Hnone s Hs eq_refl). }
    assert (Hn : lexically_normal s = render_abs (location s)
                 \/ lexically_normal s = render true (location s) true).
    { rewrite lexically_normal_absolute by assumption.
      destruct (location s); [congruence|].
      destruct (snd _ || trailing s); [now right | now left]. }
    assert (Hpre' : prefix (Filesystem.m_Root self) (lexically_normal s) = true).
    { destruct Hc as [Hpl | Hal]; [|now rewrite <- Hal].
      destruct Hn as [-> | ->]; [exact Hpl|].
      rewrite render_trail_append. now apply prefix_append. }
    exists (lexically_normal s). split.
    { rewrite validate_path_returns by assumption. cbv zeta. fold s.
      now rewrite Hwc, Hpre'. }
    assert (Hpar1 : lookup (root_node d1) (removelast (location s))
                    = Some (Dir (del_entry (last (location s) "") es))).
    { rewrite Hroot1. now apply lookup_update_dir. }
    assert (He : resolve_error d1 (lexically_normal s) = Some ENOENT).
    { destruct Hn as [-> | ->];
        now apply (resolve_error_gone d1 (location s) _ _ Hval Hne Hshort
                     Hpar1). }
    exact He.
  - (* nothing was removed *)
    destruct (fs_remove_false d d1 a Hf) as [-> He].
    exists a. now split.
Qed.

(** A second [remove] of the same path succeeds and changes nothing. *)
Lemma remove_twice (self : Filesystem.t) (d d1 : disk) (p : string) :
  wf_disk d ->
  is_absolute (Filesystem.m_Root self) = true ->
  Filesystem.remove self d p = (d1, Returns (Ok tt)) ->
  Filesystem.remove self d1 p = (d1, Returns (Ok tt)).
Proof.
  intros Hwf Hroot Hr.
  destruct (remove_gone self d d1 p Hwf Hroot Hr) as (a1 & Hv & He).
  unfold Filesystem.remove. now rewrite Hv, (fs_remove_enoent d1 a1 He).
Qed.

(** [create_directories] leaves nothing below the directories it creates:
    a name that was not there after the path is not there after. *)
Lemma mkdirs_below_none (ns : list string) :
  Forall (fun n => plain_name n = true) ns ->
  forall (t t' : node) (cur : list string) (n : string) (r : result unit),
    mkdirs t cur ns = (t', r) ->
    lookup t (cur ++ ns ++ [n]) = None ->
    lookup t' (cur ++ ns ++ [n]) = None.
Proof.
  intros Hns. induction Hns as [|n0 ns Hn0 _ IH]; intros t t' cur n r Hm Hl.
  - simpl in Hm. now inversion Hm; subst.
  - simpl in Hm.
    destruct (lookup t cur) as [[?|es]|] eqn:Hc;
      try (inversion Hm; subst; exact Hl).
    destruct (plain_name_not_skip n0 Hn0) as [Hs Hd]. rewrite Hs, Hd in Hm.
    replace (cur ++ (n0 :: ns) ++ [n]) with ((cur ++ [n0]) ++ ns ++ [n]) in *
      by now rewrite <- app_assoc.
    destruct (lookup t (cur ++ [n0])) as [[?|es1]|] eqn:E;
      try (inversion Hm; subst; exact Hl).
    + now apply (IH t t' (cur ++ [n0]) n r).
    + destruct (long_name n0); [inversion Hm; subst; exact Hl|].
      apply (IH _ t' (cur ++ [n0]) n r Hm).
      rewrite lookup_app.
      rewrite (lookup_update_set t cur n0 (Dir []) es Hc).
      now destruct ns.
Qed.

(** [create_directories] on a canonical path succeeds unless the path names
    a regular file or runs through one, has a name over the limit, or lacks
    more directories than the library creates in one call. *)
Lemma create_directories_names (d : disk) (l : list string) :
  Forall (fun n => valid_name n = true) l ->
  Forall (fun n => long_name n = false) l ->
  missing_directories d (render_abs l) <= MAX_MISSING ->
  walk_error (root_node d) [] l <> Some ENOTDIR ->
  (forall b, lookup (root_node d) l <> Some (File b)) ->
  exists t',
    mkdirs (root_node d) [] l = (t', Ok tt)
    /\ create_directories d (render_abs l) = (with_top d t', Ok tt).
Proof.
  intros Hl Hshort Hmiss Hnd Hnf.
  destruct (mkdirs_names l [] (Forall_valid_plain _ Hl) Hshort (Forall_nil _)
              (root_node d) [] (top d) eq_refl)
    as [[t' Hm] | [He | (c & b & Hw & Hf)]]; rewrite app_nil_r in *.
  - exists t'. split; [exact Hm|]. unfold create_directories.
    change (render_abs l =? "") with false. cbv iota.
    apply Nat.ltb_ge in Hmiss. rewrite Hmiss.
    change (start d (render_abs l)) with (@nil string).
    destruct l as [|n l].
    + simpl in Hm. inversion Hm; subst. reflexivity.
    + rewrite split_render_abs
        by (try discriminate; now apply Forall_valid_no_sep).
      change (mkdirs (root_node d) [] ("" :: n :: l))
        with (mkdirs (root_node d) [] (n :: l)).
      now rewrite Hm.
  - contradiction.
  - exfalso. apply (Hnf b). apply walk_lex in Hw as Hc.
    rewrite lex_plain in Hc by now apply Forall_valid_plain.
    simpl in Hc. now subst c.
Qed.

(** [write_file] on a canonical path succeeds when the parent is a
    directory, the target is not one, and the name is within the limit. *)
Lemma write_file_ok (d1 : disk) (p : list string) (n : string)
    (content : list byte) (es : list (string * node)) :
  Forall (fun n => valid_name n = true) (p ++ [n]) ->
  long_name n = false ->
  lookup (root_node d1) p = Some (Dir es) ->
  (forall es', lookup (root_node d1) (p ++ [n]) <> Some (Dir es')) ->
  exists d2, write_file d1 (render_abs (p ++ [n])) content = Some d2.
Proof.
  intros Hv Hshort Hp Hn. unfold write_file.
  change (render_abs (p ++ [n]) =? "") with false. cbv iota.
  rewrite split_render_abs by (try apply Forall_valid_no_sep; auto; now destruct p).
  change ("" :: p ++ [n]) with (("" :: p) ++ [n]).
  rewrite last_last, removelast_last.
  apply Forall_app in Hv as [Hvp Hvn]. inversion Hvn as [|? ? Hn1 _]; subst.
  rewrite (valid_name_plain n Hn1). simpl negb. cbv iota.
  unfold start. change (is_absolute (render_abs (p ++ [n]))) with true.
  cbv iota.
  change (walk (root_node d1) [] ("" :: p)) with (walk (root_node d1) [] p).
  rewrite (walk_names (root_node d1) p [] (Dir es) (Forall_valid_plain _ Hvp) Hp).
  simpl app. rewrite Hp, Hshort.
  destruct (lookup (root_node d1) (p ++ [n])) as [[?|es']|] eqn:E; eauto.
  exfalso. now apply (Hn es').
Qed.

Lemma parent_path_trailing (l : list string) :
  l <> [] -> Forall (fun n => valid_name n = true) l ->
  parent_path (render true l true) = render_abs l.
Proof.
  intros Hne Hv. unfold parent_path.
  rewrite names_render, trailing_render
    by (try assumption; now apply Forall_valid_segment).
  now destruct l.
Qed.

End Frames.

(* ================================================================== *)
(** ** Lemmas on the prefix test between rendered locations *)

Section Acceptance.

Import Path Disk Spec.

Lemma prefix_cons_inv (a b : ascii) (s1 s2 : string) :
  prefix (String a s1) (String b s2) = true -> a = b /\ prefix s1 s2 = true.
Proof. simpl. destruct (ascii_dec a b); [auto | discriminate]. Qed.

Lemma prefix_cons_same (a : ascii) (s1 s2 : string) :
  prefix (String a s1) (String a s2) = prefix s1 s2.
Proof. simpl. destruct (ascii_dec a a); [reflexivity | congruence]. Qed.

Lemma prefix_app_same (a x y : string) :
  prefix (a ++ x) (a ++ y) = prefix x y.
Proof.
  induction a as [|c a IH]; [reflexivity|].
  change (prefix (String c (a ++ x)) (String c (a ++ y)) = prefix x y).
  now rewrite prefix_cons_same.
Qed.

Lemma concat_cons_ne (x : string) (l : list string) :
  l <> [] ->
  String.concat "/" (x :: l) = (x ++ String sep (String.concat "/" l))%string.
Proof. destruct l; [congruence | reflexivity]. Qed.

(** A name without separators that starts [m] followed by nothing or by a
    separator starts [m]. *)
Lemma prefix_no_sep_app (n m r : string) :
  no_sep n = true -> (r = "" \/ exists r', r = String sep r') ->
  prefix n (m ++ r) = true -> prefix n m = true.
Proof.
  revert m. induction n as [|c n IH]; intros m Hn Hr H; [now destruct m|].
  change (negb (Ascii.eqb c sep) && no_sep n = true) in Hn.
  apply andb_true_iff in Hn as [Hc Hn].
  destruct m as [|c' m].
  - exfalso. change (prefix (String c n) r = true) in H.
    destruct Hr as [-> | [r' ->]]; [discriminate|].
    apply prefix_cons_inv in H as [-> _].
    now rewrite Ascii.eqb_refl in Hc.
  - change (prefix (String c n) (String c' (m ++ r)) = true) in H.
    apply prefix_cons_inv in H as [-> H].
    rewrite prefix_cons_same. now apply IH.
Qed.

(** A name followed by a separator starts [m] followed by [r] only when it
    is [m] and [r] goes on with the separator. *)
Lemma prefix_name_sep (n m x r : string) :
  no_sep n = true -> no_sep m = true ->
  (r = "" \/ exists r', r = String sep r') ->
  prefix (n ++ String sep x) (m ++ r) = true ->
  n = m /\ exists r', r = String sep r' /\ prefix x r' = true.
Proof.
  revert m. induction n as [|c n IH]; intros m Hn Hm Hr H.
  - destruct m as [|c' m].
    + change (prefix (String sep x) r = true) in H.
      destruct Hr as [-> | [r' ->]]; [discriminate|].
      apply prefix_cons_inv in H as [_ H]. eauto.
    + exfalso. change (prefix (String sep x) (String c' (m ++ r)) = true) in H.
      apply prefix_cons_inv in H as [<- _].
      change (negb (Ascii.eqb sep sep) && no_sep m = true) in Hm.
      now rewrite Ascii.eqb_refl in Hm.
  - change (negb (Ascii.eqb c sep) && no_sep n = true) in Hn.
    apply andb_true_iff in Hn as [Hc Hn].
    destruct m as [|c' m].
    + exfalso. change (prefix (String c (n ++ String sep x)) r = true) in H.
      destruct Hr as [-> | [r' ->]]; [discriminate|].
      apply prefix_cons_inv in H as [-> _].
      now rewrite Ascii.eqb_refl in Hc.
    + change (prefix (String c (n ++ String sep x)) (String c' (m ++ r)) = true)
        in H.
      apply prefix_cons_inv in H as [<- H].
      change (negb (Ascii.eqb c sep) && no_sep m = true) in Hm.
      apply andb_true_iff in Hm as [_ Hm].
      destruct (IH m Hn Hm Hr H) as [-> Hx]. now split.
Qed.

Lemma concat_valid_head (n : string) (l : list string) :
  valid_name n = true ->
  exists c r, String.concat "/" (n :: l) = String c r
              /\ Ascii.eqb c sep = false.
Proof.
  intros Hv. pose proof (valid_name_no_sep n Hv) as Hs.
  apply valid_name_plain, plain_name_inv in Hv as (Hne & _ & _).
  destruct n as [|c n]; [discriminate|]. simpl in Hs.
  apply andb_true_iff in Hs as [Hc _]. apply negb_true_iff in Hc.
  exists c. destruct l as [|y l]; simpl; eauto.
Qed.

(** The string of a location starts the string of another, with or without
    a final separator, only when the second location is the first or lies
    below it, or when it is at or below a sibling whose name extends the
    last name of the first. *)
Lemma prefix_names (rc : list string) :
  rc <> [] -> Forall (fun n => valid_name n = true) rc ->
  forall (l : list string) (t : string),
    Forall (fun n => valid_name n = true) l ->
    (t = "" \/ t = "/") ->
    prefix (String.concat "/" rc) (String.concat "/" l ++ t) = true ->
    is_prefix rc l = true \/ sibling_extension rc l.
Proof.
  induction rc as [|n rc IH]; [congruence|]. intros _ Hrc l t Hl Ht H.
  inversion Hrc as [|? ? Hn Hrc']; subst.
  destruct l as [|m l].
  - exfalso. destruct (concat_valid_head n rc Hn) as (c & r & Hcat & Hc).
    rewrite Hcat in H. change (prefix (String c r) t = true) in H.
    destruct Ht as [-> | ->]; [discriminate|].
    apply prefix_cons_inv in H as [-> _].
    now rewrite Ascii.eqb_refl in Hc.
  - inversion Hl as [|? ? Hm Hl']; subst.
    set (r := match l with
              | [] => t
              | _ :: _ => String sep (String.concat "/" l ++ t)
              end).
    assert (Hcat : (String.concat "/" (m :: l) ++ t)%string = (m ++ r)%string).
    { destruct l as [|y l]; [reflexivity|].
      rewrite concat_cons2, append_assoc. reflexivity. }
    assert (Hr : r = "" \/ exists r', r = String sep r').
    { destruct l as [|y l]; [|right; eexists; reflexivity].
      destruct Ht as [-> | ->]; [now left | right; now exists ""]. }
    rewrite Hcat in H.
    destruct rc as [|n2 rc].
    + simpl in H.
      pose proof (prefix_no_sep_app n m r (valid_name_no_sep n Hn) Hr H) as Hp.
      destruct (String.eqb_spec n m) as [->|Hnm].
      * left. simpl. now rewrite String.eqb_refl.
      * right. exists [], n, m, l. repeat split; auto.
    + rewrite concat_cons2 in H.
      destruct (prefix_name_sep n m _ r (valid_name_no_sep n Hn)
                  (valid_name_no_sep m Hm) Hr H) as (-> & r' & Hr' & Hp).
      assert (Hrest : exists t', (t' = "" \/ t' = "/")
                                 /\ r' = (String.concat "/" l ++ t')%string).
      { unfold r in Hr'. destruct l as [|y l].
        - destruct Ht as [-> | ->]; [discriminate|].
          inversion Hr'; subst. exists "". split; [now left | reflexivity].
        - inversion Hr'; subst. now exists t. }
      destruct Hrest as (t' & Ht' & ->).
      destruct (IH ltac:(discriminate) Hrc' l t' Hl' Ht' Hp)
        as [Hi | (pre & x & x' & rest & Hpre & Hrest & Hpx & Hne)].
      * left. simpl. rewrite String.eqb_refl. exact Hi.
      * right. exists (m :: pre), x, x', rest.
        repeat split; auto; simpl; congruence.
Qed.

Lemma is_prefix_app (a b : list string) :
  is_prefix a b = true -> exists r, b = a ++ r.
Proof.
  revert b. induction a as [|x a IH]; intros b H; [now exists b|].
  destruct b as [|y b]; [discriminate|]. simpl in H.
  apply andb_true_iff in H as [Hx H]. apply String.eqb_eq in Hx. subst y.
  destruct (IH b H) as [r ->]. now exists r.
Qed.

Lemma is_prefix_refl_app (a r : list string) : is_prefix a (a ++ r) = true.
Proof.
  induction a as [|x a IH]; [reflexivity|]. simpl.
  now rewrite String.eqb_refl.
Qed.

(** The converse: the string of a location starts the strings of the
    locations below it and of the siblings that extend its last name. *)
Lemma names_prefix (rc l : list string) (t : string) :
  rc <> [] ->
  is_prefix rc l = true \/ sibling_extension rc l ->
  prefix (String.concat "/" rc) (String.concat "/" l ++ t) = true.
Proof.
  intros Hne [Hi | (pre & n & n' & rest & -> & -> & Hp & _)].
  - destruct (is_prefix_app rc l Hi) as [r ->]. clear Hi.
    induction rc as [|x rc IH]; [congruence|].
    destruct rc as [|y rc].
    + simpl app. destruct r as [|z r].
      * simpl. apply prefix_append, prefix_refl.
      * rewrite concat_cons2, append_assoc.
        apply prefix_append, prefix_refl.
    + change ((x :: y :: rc) ++ r) with (x :: (y :: rc) ++ r).
      rewrite concat_cons2.
      rewrite (concat_cons_ne x ((y :: rc) ++ r)) by discriminate.
      rewrite append_assoc, prefix_app_same.
      change (String sep (String.concat "/" ((y :: rc) ++ r)) ++ t)%string
        with (String sep (String.concat "/" ((y :: rc) ++ r) ++ t)).
      rewrite prefix_cons_same. apply IH. discriminate.
  - clear Hne. induction pre as [|x pre IH].
    + simpl app.
      assert (Hcat : exists r, (String.concat "/" (n' :: rest) ++ t)%string
                               = (n' ++ r)%string).
      { destruct rest as [|z rest]; [now exists t|].
        rewrite concat_cons2, append_assoc. eauto. }
      destruct Hcat as [r ->]. now apply prefix_append.
    + change ((x :: pre) ++ [n]) with (x :: (pre ++ [n])).
      change ((x :: pre) ++ n' :: rest) with (x :: (pre ++ n' :: rest)).
      rewrite (concat_cons_ne x (pre ++ [n])) by now destruct pre.
      rewrite (concat_cons_ne x (pre ++ n' :: rest)) by now destruct pre.
      rewrite append_assoc, prefix_app_same.
      change (String sep (String.concat "/" (pre ++ n' :: rest)) ++ t)%string
        with (String sep (String.concat "/" (pre ++ n' :: rest) ++ t)).
      rewrite prefix_cons_same. exact IH.
Qed.

(** The prefix test of [validate_path] between a root in canonical form and
    a candidate, by their locations. *)
Lemma prefix_render_iff (rc l : list string) (tr : bool) :
  Forall (fun n => valid_name n = true) rc ->
  Forall (fun n => valid_name n = true) l ->
  prefix (render_abs rc) (render true l tr) = true
  <-> is_prefix rc l = true \/ sibling_extension rc l.
Proof.
  intros Hrc Hl. destruct rc as [|n rc].
  - split; [now left|]. intros _.
    change (prefix (String sep "")
              (String sep (String.concat "/" l ++ (if tr then "/" else "")))
            = true).
    rewrite prefix_cons_same.
    now destruct (String.concat "/" l ++ (if tr then "/" else ""))%string.
  - rewrite render_abs_eq.
    change (render true l tr)
      with (String sep (String.concat "/" l ++ (if tr then "/" else ""))).
    rewrite prefix_cons_same.
    split.
    + apply prefix_names; try assumption; try discriminate.
      destruct tr; auto.
    + apply names_prefix. discriminate.
Qed.

(** The join of a root in canonical form with a relative path of names. *)
Lemma join_render_names (rc ns : list string) :
  Forall (fun n => valid_name n = true) rc ->
  Forall (fun n => valid_name n = true) ns ->
  ns <> [] ->
  join (render_abs rc) (String.concat "/" ns) = render_abs (rc ++ ns).
Proof.
  intros Hrc Hns Hne. destruct ns as [|n ns]; [congruence|].
  inversion Hns as [|? ? Hn _]; subst.
  destruct (concat_valid_head n ns Hn) as (c & r & Hcat & Hc).
  unfold join.
  assert (Habs : is_absolute (String.concat "/" (n :: ns)) = false).
  { rewrite Hcat. simpl. exact Hc. }
  rewrite Habs.
  destruct rc as [|x rc].
  - simpl app. rewrite (render_abs_eq (n :: ns)). reflexivity.
  - unfold render_abs at 1.
    rewrite has_filename_render
      by (try discriminate; now apply Forall_valid_segment).
    simpl negb. cbv iota.
    change (render true (x :: rc) false) with (render_abs (x :: rc)).
    rewrite !render_abs_eq, concat_app_cons by discriminate.
    reflexivity.
Qed.

Lemma lexically_normal_canonical (l : list string) :
  Forall (fun n => valid_name n = true) l ->
  lexically_normal (render_abs l) = render_abs l.
Proof.
  intros Hl. destruct l as [|n l]; [reflexivity|].
  unfold render_abs.
  rewrite lexically_normal_render
    by (try discriminate; now apply Forall_valid_segment).
  apply normal_form_valid; [discriminate | assumption].
Qed.

End Acceptance.

(* ================================================================== *)
(** ** Lemmas on well-formed disks *)

Section WellFormed.

Import Path Disk Spec.

Lemma wf_dir_inv (es : list (string * node)) :
  wf_node (Dir es) ->
  NoDup (map fst es)
  /\ Forall (fun e => entry_name (fst e) = true) es
  /\ Forall (fun e => wf_node (snd e)) es.
Proof. intros H. inversion H; auto. Qed.

Lemma set_entry_names (n : string) (v : node) (es : list (string * node)) :
  forall m, In m (map fst (set_entry n v es)) -> m = n \/ In m (map fst es).
Proof.
  induction es as [|[k x] es IH]; simpl; intros m H.
  - destruct H as [<-|[]]. now left.
  - destruct (k =? n) eqn:E; simpl in H.
    + destruct H as [<-|H]; auto.
    + destruct H as [<-|H]; auto. destruct (IH m H); auto.
Qed.

Lemma wf_set_entry (n : string) (v : node) (es : list (string * node)) :
  entry_name n = true -> wf_node v ->
  wf_node (Dir es) -> wf_node (Dir (set_entry n v es)).
Proof.
  intros Hn Hv Hwf. destruct (wf_dir_inv es Hwf) as (Hnd & Hnames & Hsub).
  clear Hwf. induction es as [|[k x] es IH]; simpl.
  - apply wf_Dir; repeat constructor; auto.
  - inversion Hnd as [|? ? Hk Hnd']; inversion Hnames as [|? ? Hk1 Hn'];
      inversion Hsub as [|? ? Hx Hs']; subst. simpl in *.
    destruct (k =? n) eqn:E.
    + apply wf_Dir; simpl; constructor; auto.
    + specialize (IH Hnd' Hn' Hs').
      destruct (wf_dir_inv _ IH) as (Hnd2 & Hnames2 & Hsub2).
      apply wf_Dir; simpl; constructor; auto.
      intros Hin. apply set_entry_names in Hin as [->|Hin]; [|contradiction].
      now rewrite String.eqb_refl in E.
Qed.

Lemma del_entry_names (n : string) (es : list (string * node)) :
  forall m, In m (map fst (del_entry n es)) -> In m (map fst es).
Proof.
  induction es as [|[k x] es IH]; simpl; intros m H; [exact H|].
  destruct (k =? n); simpl in *; [now right|].
  destruct H as [<-|H]; auto.
Qed.

Lemma wf_del_entry (n : string) (es : list (string * node)) :
  wf_node (Dir es) -> wf_node (Dir (del_entry n es)).
Proof.
  intros Hwf. destruct (wf_dir_inv es Hwf) as (Hnd & Hnames & Hsub).
  clear Hwf. induction es as [|[k x] es IH]; simpl.
  - apply wf_Dir; constructor.
  - inversion Hnd as [|? ? Hk Hnd']; inversion Hnames as [|? ? Hk1 Hn'];
      inversion Hsub as [|? ? Hx Hs']; subst. simpl in *.
    destruct (k =? n); [now apply wf_Dir|].
    specialize (IH Hnd' Hn' Hs').
    destruct (wf_dir_inv _ IH) as (Hnd2 & Hnames2 & Hsub2).
    apply wf_Dir; simpl; constructor; auto.
    intros Hin. now apply del_entry_names in Hin.
Qed.

Lemma find_entry_wf (n : string) (es : list (string * node)) (m : node) :
  wf_node (Dir es) -> find_entry n es = Some m ->
  entry_name n = true /\ wf_node m.
Proof.
  intros Hwf Hf. destruct (wf_dir_inv es Hwf) as (_ & Hnames & Hsub).
  apply find_entry_In in Hf. rewrite Forall_forall in Hnames, Hsub.
  split; [apply (Hnames _ Hf) | apply (Hsub _ Hf)].
Qed.

(** An update that keeps directories well formed keeps the tree well
    formed. *)
Lemma wf_update (f : list (string * node) -> list (string * node)) :
  (forall es, wf_node (Dir es) -> wf_node (Dir (f es))) ->
  forall (p : list string) (t : node), wf_node t -> wf_node (update t p f).
Proof.
  intros Hf. induction p as [|c p IH]; intros t Hwf.
  - destruct t as [b|es]; [exact Hwf | now apply Hf].
  - destruct t as [b|es]; [exact Hwf|]. simpl.
    destruct (find_entry c es) as [m|] eqn:E; [|exact Hwf].
    destruct (find_entry_wf c es m Hwf E) as [Hc Hm].
    apply wf_set_entry; auto.
Qed.

Lemma mkdirs_skips_tree (trl : list string) (t t' : node)
    (cur : list string) (r : result unit) :
  Forall (fun c => skip_segment c = true) trl ->
  mkdirs t cur trl = (t', r) -> t' = t.
Proof.
  intros Hs. induction Hs as [|c trl Hc _ IH]; simpl.
  - intros H. now inversion H.
  - destruct (lookup t cur) as [[?|?]|]; try (intros H; now inversion H).
    rewrite Hc. exact IH.
Qed.

(** [create_directories] on names keeps the tree well formed, whatever it
    returns: it creates no directory with a name over the limit. *)
Lemma mkdirs_wf (ns trl : list string) :
  Forall (fun n => valid_name n = true) ns ->
  Forall (fun c => skip_segment c = true) trl ->
  forall (t t' : node) (cur : list string) (r : result unit),
    wf_node t -> mkdirs t cur (ns ++ trl) = (t', r) -> wf_node t'.
Proof.
  intros Hns Hs. induction Hns as [|n ns Hn _ IH]; intros t t' cur r Hwf Hm.
  - simpl app in Hm. now rewrite (mkdirs_skips_tree trl t t' cur r Hs Hm).
  - simpl in Hm.
    destruct (lookup t cur) as [[?|es]|] eqn:Hc;
      try (inversion Hm; subst; exact Hwf).
    destruct (plain_name_not_skip n (valid_name_plain n Hn)) as [H1 H2].
    rewrite H1, H2 in Hm.
    destruct (lookup t (cur ++ [n])) as [[?|es1]|];
      try (inversion Hm; subst; exact Hwf).
    + now apply (IH t t' (cur ++ [n]) r).
    + destruct (long_name n) eqn:Hlong; [inversion Hm; subst; exact Hwf|].
      apply (IH (update t cur (set_entry n (Dir []))) t' (cur ++ [n]) r);
        [|exact Hm].
      apply wf_update; [|exact Hwf].
      intros es0 H0. apply wf_set_entry; auto.
      * unfold entry_name. now rewrite Hn, Hlong.
      * apply wf_Dir; constructor.
Qed.

Lemma create_directories_wf (d d' : disk) (l : list string) (tr : bool)
    (r : result unit) :
  Forall (fun n => valid_name n = true) l -> (tr = true -> l <> []) ->
  wf_disk d -> create_directories d (render true l tr) = (d', r) ->
  wf_disk d'.
Proof.
  intros Hl Htr Hwf. unfold create_directories. rewrite render_nonempty.
  destruct (Nat.ltb _ _); [now intros H; inversion H; subst|].
  change (start d (render true l tr)) with (@nil string).
  destruct (split_render l tr Hl Htr) as (trl & -> & Hsk).
  change (mkdirs (root_node d) [] ("" :: l ++ trl))
    with (mkdirs (root_node d) [] (l ++ trl)).
  destruct (mkdirs (root_node d) [] (l ++ trl)) as [t' r0] eqn:Hm.
  intros H. inversion H; subst d' r0. clear H.
  pose proof (mkdirs_wf l trl Hl Hsk _ _ _ _ Hwf Hm) as Hwf'.
  destruct (keeps_dir _ _ [] (top d) (mkdirs_keeps _ _ _ _ _ Hm) eq_refl)
    as [es' He]. simpl in He. inversion He; subst t'. exact Hwf'.
Qed.

Lemma with_top_update_wf (d : disk)
    (f : list (string * node) -> list (string * node)) (p : list string) :
  (forall es, wf_node (Dir es) -> wf_node (Dir (f es))) ->
  wf_disk d -> wf_disk (with_top d (update (root_node d) p f)).
Proof.
  intros Hf Hwf. destruct (update_dir (top d) p f) as [es' Hu].
  fold (root_node d) in Hu. unfold wf_disk. rewrite Hu.
  change (root_node (with_top d (Dir es'))) with (Dir es').
  rewrite <- Hu. now apply wf_update.
Qed.

Lemma write_file_wf (d1 d2 : disk) (p : list string) (n : string)
    (content : list byte) :
  Forall (fun n => valid_name n = true) (p ++ [n]) ->
  wf_disk d1 ->
  write_file d1 (render_abs (p ++ [n])) content = Some d2 -> wf_disk d2.
Proof.
  intros Hv Hwf. unfold write_file.
  change (render_abs (p ++ [n]) =? "") with false. cbv iota.
  rewrite split_render_abs by (try apply Forall_valid_no_sep; auto; now destruct p).
  change ("" :: p ++ [n]) with (("" :: p) ++ [n]).
  rewrite last_last, removelast_last.
  apply Forall_app in Hv as [Hp Hn]. inversion Hn as [|? ? Hn1 _]; subst.
  rewrite (valid_name_plain n Hn1). simpl negb. cbv iota.
  destruct (walk (root_node d1) (start d1 (render_abs (p ++ [n]))) ("" :: p))
    as [pc|]; [|discriminate].
  assert (Hres : entry_name n = true ->
                 wf_disk (with_top d1 (update (root_node d1) pc
                                         (set_entry n (File content))))).
  { intros He. apply with_top_update_wf; [|exact Hwf].
    intros es0 H0. apply wf_set_entry; auto. constructor. }
  destruct (lookup (root_node d1) pc) as [[?|?]|]; try discriminate.
  destruct (lookup (root_node d1) (pc ++ [n])) as [[?|?]|] eqn:En;
    try discriminate.
  - intros H; inversion H; subst. apply Hres.
    pose proof (lookup_entry_names _ _ _ Hwf En) as Hnames.
    apply Forall_app in Hnames as [_ Hnames]. now inversion Hnames.
  - destruct (long_name n) eqn:Hlong; [discriminate|].
    intros H; inversion H; subst. apply Hres.
    unfold entry_name. now rewrite Hn1, Hlong.
Qed.

Lemma fs_remove_wf (d d1 : disk) (a : string) (r : result bool) :
  wf_disk d -> fs_remove d a = (d1, r) -> wf_disk d1.
Proof.
  intros Hwf Hf. destruct r as [[|]|m].
  - destruct (fs_remove_true d d1 a Hf) as (c & _ & _ & ->).
    apply with_top_update_wf; [|exact Hwf].
    intros es0 H0. now apply wf_del_entry.
  - now rewrite (fs_remove_unchanged d d1 a _ Hf) by discriminate.
  - now rewrite (fs_remove_unchanged d d1 a _ Hf) by discriminate.
Qed.

Lemma parent_path_validated (l : list string) (tr : bool) :
  Forall (fun n => valid_name n = true) l -> (tr = true -> l <> []) ->
  exists l', parent_path (render true l tr) = render true l' false
             /\ Forall (fun n => valid_name n = true) l'.
Proof.
  intros Hl Htr. destruct tr.
  - exists l. split; [|exact Hl].
    now rewrite parent_path_trailing by auto.
  - destruct l as [|x l] using rev_ind.
    + exists []. split; [reflexivity | constructor].
    + exists l. apply Forall_app in Hl as Hl'. destruct Hl' as [Hl' _].
      split; [|exact Hl'].
      now apply (parent_path_render l x).
Qed.

(** [write] keeps the disk well formed, whatever it returns. *)
Lemma write_wf (self : Filesystem.t) (d d' : disk) (p : string)
    (c : list byte) (fate : stream_fate) (r : outcome (result unit)) :
  is_absolute (Filesystem.m_Root self) = true ->
  wf_disk d -> Filesystem.write self d p c fate = (d', r) -> wf_disk d'.
Proof.
  intros Hroot Hwf. unfold Filesystem.write.
  destruct (Filesystem.validate_path self d p) as [[a|m]|w] eqn:Hv;
    [|now intros H; inversion H; subst..].
  destruct (validated_forms self d p a Hroot Hv)
    as (l & tr & -> & Hval & Htr & _).
  destruct (parent_path_validated l tr Hval Htr) as (l' & Hpp & Hl').
  assert (H1 : forall d1 r1,
             (if has_parent_path (render true l tr)
              then create_directories d (parent_path (render true l tr))
              else (d, Ok tt)) = (d1, r1) -> wf_disk d1).
  { intros d1 r1. destruct (has_parent_path (render true l tr)).
    - rewrite Hpp. now apply create_directories_wf.
    - now intros H; inversion H; subst. }
  destruct (if has_parent_path (render true l tr)
            then create_directories d (parent_path (render true l tr))
            else (d, Ok tt)) as [d1 [[]|m]];
    [|now intros H; inversion H; subst; apply (H1 _ _ eq_refl)].
  specialize (H1 d1 _ eq_refl).
  destruct (write_file d1 (render true l tr) (stored_bytes fate c))
    as [d2|] eqn:Hwf2;
    [|intros H; inversion H; subst; exact H1].
  assert (Hd2 : wf_disk d2).
  { destruct tr; [now rewrite write_file_trailing in Hwf2 by auto|].
    destruct l as [|x l]; [now rewrite write_file_root in Hwf2|].
    assert (Hne : x :: l <> []) by discriminate.
    rewrite (app_removelast_last "" Hne) in Hwf2, Hval.
    exact (write_file_wf d1 d2 _ _ _ Hval H1 Hwf2). }
  destruct (write_fails fate c); intros H; inversion H; subst; exact Hd2.
Qed.

(** [remove] removes a regular file that a canonical path names. *)
Lemma fs_remove_file (d : disk) (l : list string) (b : list byte) :
  Forall (fun n => valid_name n = true) l ->
  lookup (root_node d) l = Some (File b) ->
  exists d2, fs_remove d (render_abs l) = (d2, Ok true).
Proof.
  intros Hl Hf. unfold fs_remove.
  rewrite resolve_render_abs by now apply Forall_valid_segment.
  rewrite (walk_names (root_node d) l [] (File b) (Forall_valid_plain _ Hl) Hf).
  simpl app.
  destruct l as [|x l]; [discriminate|].
  assert (Hne : x :: l <> []) by discriminate.
  rewrite split_render_abs by (try discriminate; now apply Forall_valid_no_sep).
  assert (Hlast : valid_name (last ("" :: x :: l) "") = true).
  { change (last ("" :: x :: l) "") with (last (x :: l) "").
    rewrite (app_removelast_last "" Hne) in Hl.
    apply Forall_app in Hl as [_ Hl]. now inversion Hl. }
  apply valid_name_plain, plain_name_inv in Hlast as (_ & -> & ->).
  rewrite Hf. eauto.
Qed.

End WellFormed.

(* ================================================================== *)
(** ** Lemmas on paths within the limits, and on writes that succeed *)

Section Writes.

Import Path Disk Spec.

Lemma lex_short (segs cur : list string) :
  Forall (fun c => long_name c = false) segs ->
  Forall (fun c => long_name c = false) cur ->
  Forall (fun c => long_name c = false) (lex cur segs).
Proof.
  revert cur. induction segs as [|c segs IH]; intros cur Hs Hc; [exact Hc|].
  inversion Hs as [|? ? Hc0 Hs']; subst. unfold lex. simpl fold_left.
  apply IH; [exact Hs'|]. unfold lex_step.
  destruct (skip_segment c); [exact Hc|].
  destruct (is_dotdot c); [now apply Forall_removelast|].
  apply Forall_app. split; [exact Hc | now constructor].
Qed.

Lemma skip_segment_short (c : string) :
  skip_segment c = true -> long_name c = false.
Proof.
  unfold skip_segment, is_dot. intros H.
  apply orb_true_iff in H as [H|H]; apply String.eqb_eq in H; now subst.
Qed.

(** The components of a validated path are within the limit when those of
    the joined path are. *)
Lemma validated_short (self : Filesystem.t) (d : disk) (p a : string) :
  is_absolute (Filesystem.m_Root self) = true ->
  Filesystem.validate_path self d p = Returns (Ok a) ->
  within_limits (join (Filesystem.m_Root self) p) = true ->
  Forall (fun c => long_name c = false) (split a).
Proof.
  intros Hroot Hv Hlim.
  destruct (validated_forms self d p a Hroot Hv)
    as (l & tr & -> & Hval & Htr & Hl).
  destruct (split_render l tr Hval Htr) as (trl & -> & Hsk).
  apply within_limits_parts in Hlim as [_ Hlim].
  constructor; [reflexivity|]. apply Forall_app. split.
  - subst l. apply lex_short; [exact Hlim | constructor].
  - eapply Forall_impl; [|exact Hsk]. apply skip_segment_short.
Qed.

(** Every byte reached the file: the stream reported no failure. *)
Lemma stored_all (fate : stream_fate) (c : list byte) :
  stored_bytes fate c = c -> write_fails fate c = false.
Proof.
  destruct fate as [|k|k]; simpl; try reflexivity.
  intros H. apply Nat.ltb_ge.
  apply (f_equal (@List.length byte)) in H. rewrite length_firstn in H. lia.
Qed.

(** With an absolute root, the stream of [write] opens, after the
    directories that are missing were created, whenever the validated path
    has its components within the limit, ends in a filename, does not name
    a directory, does not run through a regular file, and lacks no more
    directories than one call creates.  The file then holds the bytes that
    reached it, and [write] returns what the stream reports. *)
Lemma write_reaches_file (self : Filesystem.t) (d : disk) (p a : string)
    (c : list byte) (fate : stream_fate) :
  is_absolute (Filesystem.m_Root self) = true ->
  Filesystem.validate_path self d p = Returns (Ok a) ->
  Forall (fun n => long_name n = false) (split a) ->
  has_filename a = true ->
  is_directory d a = false ->
  resolve_error d a <> Some ENOTDIR ->
  missing_directories d (parent_path a) <= MAX_MISSING ->
  exists d',
    Filesystem.write self d p c fate
    = (d', Returns (if write_fails fate c then Err "Failed to write file"
                    else Ok tt))
    /\ status d' a = Some (File (stored_bytes fate c)).
Proof.
  intros Hroot Hv Hshort Hfn Hnd Hne Hmiss.
  destruct (validated_forms self d p a Hroot Hv)
    as (l & tr & Ha & Hval & Htr & _).
  assert (Hl : l <> [] /\ tr = false).
  { subst a. destruct l as [|x l].
    - destruct tr; [now specialize (Htr eq_refl) | discriminate].
    - split; [discriminate|].
      rewrite has_filename_render in Hfn
        by (try discriminate; now apply Forall_valid_segment).
      now destruct tr. }
  destruct Hl as [Hlne ->].
  rewrite (app_removelast_last "" Hlne) in Ha, Hval.
  set (par := removelast l) in *. set (n := last l "") in *.
  fold (render_abs (par ++ [n])) in Ha. subst a.
  apply Forall_app in Hval as Hsplit. destruct Hsplit as [Hvp Hvn].
  inversion Hvn as [|? ? Hn1 _]; subst.
  rewrite split_render_abs in Hshort
    by (try apply Forall_valid_no_sep; auto; now destruct par).
  inversion Hshort as [|? ? _ Hshort']; subst.
  apply Forall_app in Hshort' as [Hsp Hsn].
  inversion Hsn as [|? ? Hsn1 _]; subst.
  rewrite parent_path_render in Hmiss by assumption.
  (* the target is not a directory, the parent is not blocked *)
  assert (Htarget : forall es, lookup (root_node d) (par ++ [n])
                               <> Some (Dir es)).
  { intros es He. unfold is_directory in Hnd.
    now rewrite (status_render_abs d _ _ Hval He) in Hnd. }
  assert (Herr : walk_error (root_node d) [] (par ++ [n]) <> Some ENOTDIR).
  { intros He. apply Hne. unfold resolve_error.
    change (render_abs (par ++ [n]) =? "") with false. cbv iota.
    change (start d (render_abs (par ++ [n]))) with (@nil string).
    rewrite split_render_abs
      by (try apply Forall_valid_no_sep; auto; now destruct par).
    exact He. }
  rewrite walk_error_app in Herr.
  assert (Hpar : walk_error (root_node d) [] par <> Some ENOTDIR
                 /\ forall b, lookup (root_node d) par <> Some (File b)).
  { split.
    - intros He. rewrite (walk_error_some _ _ _ _ He) in Herr. contradiction.
    - intros b Hb.
      rewrite (walk_names (root_node d) par [] (File b)
                 (Forall_valid_plain _ Hvp) Hb) in Herr.
      simpl in Herr. rewrite Hb in Herr. now apply Herr. }
  destruct Hpar as [Hpe Hpf].
  destruct (create_directories_names d par Hvp Hsp Hmiss Hpe Hpf)
    as (t' & Hm & Hcd).
  pose proof (mkdirs_keeps _ _ _ _ _ Hm) as Hk.
  destruct (keeps_dir _ _ [] (top d) Hk eq_refl) as [es' He'].
  simpl in He'. inversion He'; subst t'.
  set (d1 := with_top d (Dir es')) in *.
  assert (Hroot1 : root_node d1 = Dir es') by reflexivity.
  destruct (mkdirs_walk _ _ _ _ (top d) Hm eq_refl) as (c0 & es1 & Hw & Hd1).
  apply walk_lex in Hw as Hc0.
  rewrite lex_plain in Hc0 by now apply Forall_valid_plain.
  simpl in Hc0. subst c0.
  assert (Htarget1 : forall es, lookup (root_node d1) (par ++ [n])
                                <> Some (Dir es)).
  { rewrite Hroot1. intros es He.
    destruct (lookup (root_node d) (par ++ [n])) as [[b|es0]|] eqn:E.
    - rewrite (keeps_file _ _ _ b Hk E) in He. discriminate.
    - now apply (Htarget es0).
    - pose proof (mkdirs_below_none par (Forall_valid_plain _ Hvp)
                    (root_node d) (Dir es') [] n _ Hm E) as Hnone.
      simpl in Hnone. congruence. }
  destruct (write_file_ok d1 par n (stored_bytes fate c) es1 Hval Hsn1 Hd1
              Htarget1) as [d2 Hwf].
  assert (Hhp : has_parent_path (render_abs (par ++ [n])) = true).
  { unfold has_parent_path. now rewrite parent_path_render. }
  exists d2. split.
  - unfold Filesystem.write.
    rewrite Hv, Hhp, parent_path_render, Hcd by assumption.
    fold d1. rewrite Hwf. now destruct (write_fails fate c).
  - apply status_render_abs; [exact Hval|].
    now destruct (write_file_render _ _ _ _ _ Hval Hwf).
Qed.

(** The same, for a stream that reports no failure: [write] succeeds. *)
Lemma write_succeeds (self : Filesystem.t) (d : disk) (p a : string)
    (c : list byte) (fate : stream_fate) :
  is_absolute (Filesystem.m_Root self) = true ->
  Filesystem.validate_path self d p = Returns (Ok a) ->
  Forall (fun n => long_name n = false) (split a) ->
  has_filename a = true ->
  is_directory d a = false ->
  resolve_error d a <> Some ENOTDIR ->
  missing_directories d (parent_path a) <= MAX_MISSING ->
  write_fails fate c = false ->
  exists d', Filesystem.write self d p c fate = (d', Returns (Ok tt)).
Proof.
  intros Hroot Hv Hshort Hfn Hnd Hne Hmiss Hfate.
  destruct (write_reaches_file self d p a c fate Hroot Hv Hshort Hfn Hnd Hne
              Hmiss) as (d' & Hw & _).
  rewrite Hfate in Hw. eauto.
Qed.


(** After a successful [write] of a path within the limits, [read] returns
    the bytes that reached the file. *)
Lemma read_written (self : Filesystem.t) (d d' : disk) (p : string)
    (c : list byte) (fate : stream_fate) :
  is_absolute (Filesystem.m_Root self) = true ->
  within_limits (join (Filesystem.m_Root self) p) = true ->
  Filesystem.write self d p c fate = (d', Returns (Ok tt)) ->
  Filesystem.read self d' p = Returns (Ok (stored_bytes fate c)).
Proof.
  intros Hroot Hlim Hw.
  destruct (written_status self d d' p c fate Hroot Hw) as (a & _ & Hv' & Hst).
  rewrite (read_validated self d' p a (Hv' (within_limits_returns d' _ Hlim))).
  now rewrite Hst.
Qed.

End Writes.

(* ================================================================== *)
(** ** The claims *)

Section Claims.

Import Path Disk Spec.

(** C1 (code defect).  The containment test of [validate_path] is a plain
    string-prefix test: with the root [/a/b], the inputs [../bc] and
    [../b-evil] are accepted on every disk, although neither candidate
    equals the root nor continues it after a separator. *)
Theorem C1_prefix_without_boundary_accepted (d : disk) :
  Filesystem.validate_path (Filesystem.new "/a/b") d "../bc"
  = Returns (Ok "/a/bc")
  /\ Filesystem.validate_path (Filesystem.new "/a/b") d "../b-evil"
     = Returns (Ok "/a/b-evil")
  /\ contained "/a/b" "/a/bc" = false
  /\ contained "/a/b" "/a/b-evil" = false.
Proof.
  repeat split.
  - now rewrite (validate_path_lexical d "/a/b" "../bc" "/a/bc").
  - now rewrite (validate_path_lexical d "/a/b" "../b-evil" "/a/b-evil").
Qed.

(** C2 (code defect).  With the root [/a/b], relative paths whose dot-dot
    segments climb out of the root and come down in the sibling [/a/b-evil]
    are accepted on every disk, whatever the nesting and whether or not the
    directories on the way exist; the same climb that ends in [/etc/passwd]
    is rejected. *)
Theorem C2_dotdot_into_sibling_accepted (d : disk) :
  Filesystem.validate_path (Filesystem.new "/a/b") d "../b-evil/secret"
  = Returns (Ok "/a/b-evil/secret")
  /\ Filesystem.validate_path (Filesystem.new "/a/b") d
       "x/y/../../../b-evil/secret"
     = Returns (Ok "/a/b-evil/secret")
  /\ inside "/a/b" "/a/b-evil/secret" = false
  /\ returns_error
       (Filesystem.validate_path (Filesystem.new "/a/b") d "../../etc/passwd")
       PathEscapesRoot.
Proof.
  repeat split.
  - now rewrite (validate_path_lexical d "/a/b" "../b-evil/secret"
                   "/a/b-evil/secret").
  - now rewrite (validate_path_lexical d "/a/b" "x/y/../../../b-evil/secret"
                   "/a/b-evil/secret").
  - now rewrite (validate_path_lexical d "/a/b" "../../etc/passwd"
                   "/etc/passwd").
Qed.

(** C3 (code defect).  An absolute input replaces the root in the join and
    is then tested like any other candidate: [/etc/passwd] is rejected, but
    [/a/b-evil/secret], which lies outside the root [/a/b], is accepted on
    every disk. *)
Theorem C3_absolute_sibling_accepted (d : disk) :
  is_absolute "/a/b-evil/secret" = true
  /\ inside "/a/b" "/a/b-evil/secret" = false
  /\ join "/a/b" "/a/b-evil/secret" = "/a/b-evil/secret"
  /\ Filesystem.validate_path (Filesystem.new "/a/b") d "/a/b-evil/secret"
     = Returns (Ok "/a/b-evil/secret")
  /\ returns_error
       (Filesystem.validate_path (Filesystem.new "/a/b") d "/etc/passwd")
       PathEscapesRoot.
Proof.
  repeat split.
  - now rewrite (validate_path_lexical d "/a/b" "/a/b-evil/secret"
                   "/a/b-evil/secret").
  - now rewrite (validate_path_lexical d "/a/b" "/etc/passwd" "/etc/passwd").
Qed.




(** C5 (code defect).  The empty input is rejected with [InvalidPath],
    whatever the root and the disk.  For a root in canonical form that
    names a directory of the disk, with a joined path within the limits of
    the platform, [validate_path(".")] returns the root itself.  Written
    with a final separator the same root names the same directory, and
    ["."] is rejected with [PathEscapesRoot]: the canonical path of the root
    is compared with the root's string as it was given, and lacks the final
    separator. *)
Theorem C5_dot_is_root_and_empty_is_invalid (d : disk) (root : string) :
  returns_error (Filesystem.validate_path (Filesystem.new root) d "")
    InvalidPath
  /\ (forall rc,
        canonical_root d root rc ->
        within_limits (join root ".") = true ->
        Filesystem.validate_path (Filesystem.new root) d "."
        = Returns (Ok root))
  /\ (forall rc,
        canonical_root d root rc -> rc <> [] ->
        within_limits (join (root ++ "/")%string ".") = true ->
        is_directory d (root ++ "/")%string = true
        /\ Filesystem.validate_path (Filesystem.new (root ++ "/")%string) d "."
           = Returns (Err msg_escapes_root)).
Proof.
  split; [reflexivity|].
  assert (Hcanon : forall rc, canonical_root d root rc ->
            resolve d (join root ".") = Some rc
            /\ weakly_canonical d (join root ".") = root
            /\ is_absolute (join root ".") = true).
  { intros rc (Hroot & Hv & es & Hes).
    pose proof (Forall_valid_segment _ Hv) as Hs. subst root.
    rewrite join_render_name by (assumption || reflexivity).
    assert (Hr : resolve d (render_abs (rc ++ ["."])) = Some rc).
    { rewrite resolve_render_abs
        by (apply Forall_app; split; [assumption | now repeat constructor]).
      rewrite walk_app.
      rewrite (walk_names (root_node d) rc [] (Dir es))
        by (try apply Forall_valid_plain; assumption).
      simpl app. simpl walk. now rewrite Hes. }
    split; [exact Hr|]. split; [|reflexivity].
    rewrite weakly_canonical_absolute by reflexivity. now rewrite Hr. }
  split.
  - intros rc Hc Hlim. destruct (Hcanon rc Hc) as (Hr & Hwc & _).
    rewrite validate_path_returns; simpl Filesystem.m_Root.
    + cbv zeta. now rewrite Hwc, prefix_refl.
    + reflexivity.
    + now apply within_limits_returns.
  - intros rc Hc Hne Hlim. destruct (Hcanon rc Hc) as (Hr & Hwc & _).
    destruct Hc as (Hroot & Hv & es & Hes).
    pose proof (Forall_valid_segment _ Hv) as Hs.
    assert (Htrail : (root ++ "/")%string = render true rc true)
      by (subst root; now rewrite render_trail_append).
    assert (Hjoin : join (root ++ "/")%string "." = join root ".").
    { rewrite Htrail. subst root. unfold join. simpl is_absolute. cbv iota.
      unfold render_abs.
      rewrite !has_filename_render by assumption. simpl negb. cbv iota.
      change (render true rc false) with (render_abs rc).
      now rewrite render_trail_append, append_assoc. }
    split.
    + rewrite Htrail. unfold is_directory, status.
      rewrite resolve_render_trail by assumption.
      rewrite walk_app.
      rewrite (walk_names (root_node d) rc [] (Dir es))
        by (try apply Forall_valid_plain; assumption).
      simpl app. simpl walk. rewrite Hes. simpl. now rewrite Hes.
    + rewrite validate_path_returns; simpl Filesystem.m_Root.
      * cbv zeta. rewrite Hjoin, Hwc.
        destruct (prefix (root ++ "/")%string root) eqn:E; [|reflexivity].
        apply prefix_length in E. rewrite length_append in E. simpl in E. lia.
      * reflexivity.
      * now apply within_limits_returns.
Qed.

(** On the sample disk, with the root [/a/b]: ["."] validates to the root;
    with the root written [/a/b/], which names the same directory, ["."] is
    rejected. *)
Lemma C5_witness :
  canonical_root sample_disk "/a/b" ["a"; "b"]
  /\ Filesystem.validate_path (Filesystem.new "/a/b") sample_disk "."
     = Returns (Ok "/a/b")
  /\ is_directory sample_disk "/a/b/" = true
  /\ Filesystem.validate_path (Filesystem.new "/a/b/") sample_disk "."
     = Returns (Err msg_escapes_root)
  /\ returns_error
       (Filesystem.validate_path (Filesystem.new "/a/b/") sample_disk "")
       InvalidPath.
Proof.
  destruct (C5_dot_is_root_and_empty_is_invalid sample_disk "/a/b")
    as (_ & H2 & H3).
  destruct (C5_dot_is_root_and_empty_is_invalid sample_disk "/a/b/")
    as (H1 & _).
  split; [exact sample_disk_root|].
  split; [apply (H2 ["a"; "b"] sample_disk_root); reflexivity|].
  split; [|split; [|exact H1]];
    apply (H3 ["a"; "b"] sample_disk_root); try discriminate;
    reflexivity.
Defined.

(** C6 (corrected).  With an absolute root and a joined path within the
    limits of the platform, let [p] pass validation.  When the validated
    path ends in a filename, does not name a directory, does not run
    through a regular file, lacks no more directories than one call of
    [create_directories] creates, and every byte given to the stream
    reaches the file, then [write(p, b)] returns success and [read(p)] on
    the resulting disk returns exactly [b], for every byte sequence [b].
    And whenever [write(p, b)] returns success, [read(p)] returns the bytes
    that reached the file. *)
Theorem C6_write_then_read
    (self : Filesystem.t) (d : disk) (p : string) (b : list byte)
    (fate : stream_fate) :
  is_absolute (Filesystem.m_Root self) = true ->
  within_limits (join (Filesystem.m_Root self) p) = true ->
  (forall a,
      Filesystem.validate_path self d p = Returns (Ok a) ->
      has_filename a = true ->
      is_directory d a = false ->
      resolve_error d a <> Some ENOTDIR ->
      missing_directories d (parent_path a) <= MAX_MISSING ->
      stored_bytes fate b = b ->
      exists d',
        Filesystem.write self d p b fate = (d', Returns (Ok tt))
        /\ Filesystem.read self d' p = Returns (Ok b))
  /\ (forall d',
        Filesystem.write self d p b fate = (d', Returns (Ok tt)) ->
        Filesystem.read self d' p = Returns (Ok (stored_bytes fate b))).
Proof.
  intros Hroot Hlim. split.
  - intros a Hv Hfn Hnd Hne Hmiss Hst.
    destruct (write_succeeds self d p a b fate Hroot Hv
                (validated_short self d p a Hroot Hv Hlim) Hfn Hnd Hne Hmiss
                (stored_all fate b Hst)) as [d' Hw].
    exists d'. split; [exact Hw|].
    pose proof (read_written self d d' p b fate Hroot Hlim Hw) as Hr.
    now rewrite Hst in Hr.
  - intros d'. now apply read_written.
Qed.

(** The round trip on the sample disk: through directories that do not
    exist yet with content that holds null bytes, and onto an existing file
    with empty content. *)
Lemma C6_witness :
  is_absolute "/a/b" = true
  /\ within_limits (join "/a/b" "new/dir/f.bin") = true
  /\ Filesystem.validate_path (Filesystem.new "/a/b") sample_disk
       "new/dir/f.bin" = Returns (Ok "/a/b/new/dir/f.bin")
  /\ (exists d',
        Filesystem.write (Filesystem.new "/a/b") sample_disk "new/dir/f.bin"
          [x00; x41; x00] Stored = (d', Returns (Ok tt))
        /\ Filesystem.read (Filesystem.new "/a/b") d' "new/dir/f.bin"
           = Returns (Ok [x00; x41; x00]))
  /\ Filesystem.read (Filesystem.new "/a/b")
       (fst (Filesystem.write (Filesystem.new "/a/b") sample_disk "x.txt" []
               Stored))
       "x.txt" = Returns (Ok []).
Proof.
  destruct (C6_write_then_read (Filesystem.new "/a/b") sample_disk
              "new/dir/f.bin" [x00; x41; x00] Stored eq_refl eq_refl)
    as [H1 _].
  destruct (C6_write_then_read (Filesystem.new "/a/b") sample_disk
              "x.txt" [] Stored eq_refl eq_refl) as [_ H2].
  split; [reflexivity|]. split; [reflexivity|]. split; [reflexivity|].
  split.
  - apply (H1 "/a/b/new/dir/f.bin");
      try reflexivity; [discriminate | apply Nat.leb_le; reflexivity].
  - apply H2. reflexivity.
Defined.

(** The claim as stated fails.  On the sample disk the input ["."] passes
    validation, and [write] on it fails because the path names a directory.
    And a [write] that returns success need not be read back: when the
    stream loses the bytes on its way to the file, which it does not
    report, [read] returns what reached the file. *)
Lemma C6_counterexample :
  ~ (forall (p : string) (b : list byte) (fate : stream_fate),
       (exists a, Filesystem.validate_path (Filesystem.new "/a/b")
                    sample_disk p = Returns (Ok a)) ->
       exists d',
         Filesystem.write (Filesystem.new "/a/b") sample_disk p b fate
         = (d', Returns (Ok tt))
         /\ Filesystem.read (Filesystem.new "/a/b") d' p = Returns (Ok b))
  /\ (forall fate,
        Filesystem.validate_path (Filesystem.new "/a/b") sample_disk "."
        = Returns (Ok "/a/b")
        /\ snd (Filesystem.write (Filesystem.new "/a/b") sample_disk "."
                  [x41] fate)
           = Returns (Err "Failed to open file for writing: /a/b"))
  /\ snd (Filesystem.write (Filesystem.new "/a/b") sample_disk "x.txt"
            [x41] (Lost 0)) = Returns (Ok tt)
  /\ Filesystem.read (Filesystem.new "/a/b")
       (fst (Filesystem.write (Filesystem.new "/a/b") sample_disk "x.txt"
               [x41] (Lost 0)))
       "x.txt" = Returns (Ok []).
Proof.
  split; [|split; [|split]]; try reflexivity.
  - intros H.
    destruct (H "." [] Stored (ex_intro _ "/a/b" eq_refl)) as (d' & Hw & _).
    vm_compute in Hw. discriminate.
  - intros fate. split; [reflexivity|]. now destruct fate.
Qed.

(** C7 (corrected).  On a validated path, [remove] succeeds when the target
    is absent, and leaves the disk as it is; it succeeds whenever the
    underlying removal reports that there was nothing to remove; and every
    error it returns is an [IoError].  Absent means that the platform finds
    no such entry ([ENOENT]): a path that runs through a regular file
    ([ENOTDIR]) or holds a component over the name limit where resolution
    stops ([ENAMETOOLONG]) is not a missing entry for the platform but a
    failure of its own, which the underlying removal reports and [remove]
    returns as an [IoError] like any other.  Removal is idempotent: on a
    well-formed disk with an absolute root, a [remove] that succeeded
    succeeds again on the disk it left, and leaves it as it is. *)
Theorem C7_remove_absent_succeeds
    (self : Filesystem.t) (d : disk) (p a : string) :
  Filesystem.validate_path self d p = Returns (Ok a) ->
  (fs_exists d a = false -> resolve_error d a <> Some ENOTDIR ->
   resolve_error d a <> Some ENAMETOOLONG ->
   Filesystem.remove self d p = (d, Returns (Ok tt)))
  /\ (forall d', fs_remove d a = (d', Ok false) ->
                 Filesystem.remove self d p = (d', Returns (Ok tt)))
  /\ (forall d' m, Filesystem.remove self d p = (d', Returns (Err m)) ->
                   kind_of m = Some IoError)
  /\ (resolve_error d a = Some ENOTDIR ->
      Filesystem.remove self d p
      = (d, Returns (Err "Failed to remove file: Not a directory")))
  /\ (resolve_error d a = Some ENAMETOOLONG ->
      Filesystem.remove self d p
      = (d, Returns (Err "Failed to remove file: File name too long")))
  /\ (wf_disk d -> is_absolute (Filesystem.m_Root self) = true ->
      forall d', Filesystem.remove self d p = (d', Returns (Ok tt)) ->
                 Filesystem.remove self d' p = (d', Returns (Ok tt))).
Proof.
  intros Hv. split; [|split; [|split; [|split; [|split]]]].
  - unfold Filesystem.remove. rewrite Hv, fs_exists_resolve.
    intros Hex Hnd Hnl.
    destruct (resolve d a) as [c|] eqn:E; [discriminate|].
    destruct (resolve_none_error d a E) as [[| |] He]; try contradiction.
    now rewrite (fs_remove_enoent d a He).
  - unfold Filesystem.remove. rewrite Hv. intros d' ->. reflexivity.
  - unfold Filesystem.remove. rewrite Hv.
    intros d' m. destruct (fs_remove d a) as [d1 [b|m1]]; intros H;
      inversion H; subst. reflexivity.
  - intros He. unfold Filesystem.remove.
    now rewrite Hv, (fs_remove_enotdir d a He).
  - intros He. unfold Filesystem.remove.
    now rewrite Hv, (fs_remove_enametoolong d a He).
  - intros Hwf Hroot d'. now apply remove_twice.
Qed.

(** On the sample disk: [gone] is absent and its removal succeeds; the
    directory [sub] is not empty and its removal is an [IoError]; a path
    below the regular file [x.txt] is an [IoError], and so is a name of 256
    bytes after a directory that is missing; [x.txt] is removed, and
    removing it again succeeds. *)
Lemma C7_witness :
  Filesystem.validate_path (Filesystem.new "/a/b") sample_disk "gone"
  = Returns (Ok "/a/b/gone")
  /\ fs_exists sample_disk "/a/b/gone" = false
  /\ Filesystem.remove (Filesystem.new "/a/b") sample_disk "gone"
     = (sample_disk, Returns (Ok tt))
  /\ Filesystem.remove (Filesystem.new "/a/b") sample_disk "sub"
     = (sample_disk,
        Returns (Err "Failed to remove file: Directory not empty"))
  /\ kind_of "Failed to remove file: Directory not empty" = Some IoError
  /\ Filesystem.remove (Filesystem.new "/a/b") sample_disk "x.txt/y"
     = (sample_disk, Returns (Err "Failed to remove file: Not a directory"))
  /\ Filesystem.remove (Filesystem.new "/a/b") sample_disk
       ("nx/../" ++ name_of_256)%string
     = (sample_disk,
        Returns (Err "Failed to remove file: File name too long"))
  /\ Filesystem.exists_ (Filesystem.new "/a/b")
       (fst (Filesystem.remove (Filesystem.new "/a/b") sample_disk "x.txt"))
       "x.txt" = Returns false
  /\ Filesystem.remove (Filesystem.new "/a/b")
       (fst (Filesystem.remove (Filesystem.new "/a/b") sample_disk "x.txt"))
       "x.txt"
     = (fst (Filesystem.remove (Filesystem.new "/a/b") sample_disk "x.txt"),
        Returns (Ok tt)).
Proof.
  pose proof (C7_remove_absent_succeeds (Filesystem.new "/a/b") sample_disk
                "gone" "/a/b/gone" eq_refl) as (H1 & _).
  pose proof (C7_remove_absent_succeeds (Filesystem.new "/a/b") sample_disk
                "sub" "/a/b/sub" eq_refl) as (_ & _ & H2 & _).
  pose proof (C7_remove_absent_succeeds (Filesystem.new "/a/b") sample_disk
                "x.txt/y" "/a/b/x.txt/y" eq_refl) as (_ & _ & _ & H4 & _).
  assert (Hlong : Filesystem.validate_path (Filesystem.new "/a/b") sample_disk
                    ("nx/../" ++ name_of_256)%string
                  = Returns (Ok ("/a/b/" ++ name_of_256)%string))
    by (vm_compute; reflexivity).
  pose proof (C7_remove_absent_succeeds (Filesystem.new "/a/b") sample_disk
                _ _ Hlong) as (_ & _ & _ & _ & H5 & _).
  pose proof (C7_remove_absent_succeeds (Filesystem.new "/a/b") sample_disk
                "x.txt" "/a/b/x.txt" eq_refl) as (_ & _ & _ & _ & _ & H3).
  split; [reflexivity|]. split; [reflexivity|].
  split; [apply H1; [reflexivity | discriminate | discriminate]|].
  split; [reflexivity|].
  split; [apply (H2 sample_disk); reflexivity|].
  split; [apply H4; reflexivity|].
  split; [apply H5; vm_compute; reflexivity|].
  split; [reflexivity|].
  apply (H3 sample_disk_wf eq_refl). reflexivity.
Defined.

(** The claim as stated fails: on the sample disk the path [x.txt/y] passes
    validation and names nothing, since [x.txt] is a regular file, and
    [remove] returns an error; so it does for a name of 256 bytes after a
    directory that is missing. *)
Lemma C7_counterexample :
  ~ (forall (p a : string),
       Filesystem.validate_path (Filesystem.new "/a/b") sample_disk p
       = Returns (Ok a) ->
       fs_exists sample_disk a = false ->
       Filesystem.remove (Filesystem.new "/a/b") sample_disk p
       = (sample_disk, Returns (Ok tt)))
  /\ Filesystem.validate_path (Filesystem.new "/a/b") sample_disk
       ("nx/../" ++ name_of_256)%string
     = Returns (Ok ("/a/b/" ++ name_of_256)%string)
  /\ fs_exists sample_disk ("/a/b/" ++ name_of_256)%string = false
  /\ Filesystem.remove (Filesystem.new "/a/b") sample_disk
       ("nx/../" ++ name_of_256)%string
     = (sample_disk,
        Returns (Err "Failed to remove file: File name too long")).
Proof.
  split; [|split; [|split]]; try (vm_compute; reflexivity).
  intros H. specialize (H "x.txt/y" "/a/b/x.txt/y" eq_refl eq_refl).
  vm_compute in H. discriminate.
Qed.






(** C10.  [absolute] is the platform join of the root and its argument, and
    an absolute argument comes back unchanged, without the root. *)
Theorem C10_absolute_is_plain_join (self : Filesystem.t) (p : string) :
  Filesystem.absolute self p = join (Filesystem.m_Root self) p
  /\ (is_absolute p = true -> Filesystem.absolute self p = p).
Proof.
  unfold Filesystem.absolute. split; [reflexivity|].
  unfold join. now intros ->.
Qed.

Lemma C10_witness :
  is_absolute "/etc/passwd" = true
  /\ Filesystem.absolute (Filesystem.new "/a/b") "/etc/passwd" = "/etc/passwd"
  /\ Filesystem.absolute (Filesystem.new "/a/b") "docs/x.txt"
     = "/a/b/docs/x.txt".
Proof.
  pose proof (C10_absolute_is_plain_join (Filesystem.new "/a/b") "/etc/passwd")
    as (_ & H).
  split; [reflexivity|]. split; [apply H; reflexivity | reflexivity].
Defined.

End Claims.

(* ================================================================== *)
(** ** Further properties of the accessor *)

Section Further.

Import Path Disk Spec.

(** X1.  The round trip on strings: with an absolute root and a joined path
    within the limits of the platform, after [write(p, s)] on a string has
    returned success, [read_string(p)] returns the characters that reached
    the file; it returns [s], whatever characters [s] holds, when every byte
    reached the file. *)
Theorem X1_string_round_trip
    (self : Filesystem.t) (d d' : disk) (p content : string)
    (fate : stream_fate) :
  is_absolute (Filesystem.m_Root self) = true ->
  within_limits (join (Filesystem.m_Root self) p) = true ->
  Filesystem.write_string self d p content fate = (d', Returns (Ok tt)) ->
  Filesystem.read_string self d' p
  = Returns (Ok (string_of_list_byte
                   (stored_bytes fate (list_byte_of_string content))))
  /\ (stored_bytes fate (list_byte_of_string content)
      = list_byte_of_string content ->
      Filesystem.read_string self d' p = Returns (Ok content)).
Proof.
  intros Hroot Hlim Hw. unfold Filesystem.write_string in Hw. cbv zeta in Hw.
  pose proof (read_written self d d' p _ fate Hroot Hlim Hw) as Hr.
  unfold Filesystem.read_string. rewrite Hr. split; [reflexivity|].
  intros ->. now rewrite string_of_list_byte_of_string.
Qed.

Lemma X1_witness :
  is_absolute "/a/b" = true
  /\ within_limits (join "/a/b" "notes/today.txt") = true
  /\ snd (Filesystem.write_string (Filesystem.new "/a/b") sample_disk
            "notes/today.txt" "hello, world" Stored) = Returns (Ok tt)
  /\ Filesystem.read_string (Filesystem.new "/a/b")
       (fst (Filesystem.write_string (Filesystem.new "/a/b") sample_disk
               "notes/today.txt" "hello, world" Stored))
       "notes/today.txt" = Returns (Ok "hello, world").
Proof.
  split; [reflexivity|]. split; [reflexivity|]. split; [reflexivity|].
  assert (Hw : Filesystem.write_string (Filesystem.new "/a/b") sample_disk
                 "notes/today.txt" "hello, world" Stored
               = (fst (Filesystem.write_string (Filesystem.new "/a/b")
                         sample_disk "notes/today.txt" "hello, world" Stored),
                  Returns (Ok tt))) by reflexivity.
  exact (proj2 (X1_string_round_trip (Filesystem.new "/a/b") sample_disk _
                  "notes/today.txt" "hello, world" Stored eq_refl eq_refl Hw)
           eq_refl).
Defined.

(** X2.  With an absolute root and a joined path within the limits of the
    platform, after [write(p, b)] has returned success the path exists and
    its size is the number of bytes that reached the file: the number of
    bytes written when every byte reached it. *)
Theorem X2_size_and_exists_after_write
    (self : Filesystem.t) (d d' : disk) (p : string) (b : list byte)
    (fate : stream_fate) :
  is_absolute (Filesystem.m_Root self) = true ->
  within_limits (join (Filesystem.m_Root self) p) = true ->
  Filesystem.write self d p b fate = (d', Returns (Ok tt)) ->
  Filesystem.exists_ self d' p = Returns true
  /\ Filesystem.size self d' p
     = Returns (Ok (List.length (stored_bytes fate b)))
  /\ (stored_bytes fate b = b ->
      Filesystem.size self d' p = Returns (Ok (List.length b))).
Proof.
  intros Hroot Hlim Hw.
  destruct (written_status self d d' p b fate Hroot Hw) as (a & _ & Hv & Hst).
  specialize (Hv (within_limits_returns d' _ Hlim)).
  assert (Hknown : status_throws d' a = false).
  { unfold status in Hst. destruct (resolve d' a) as [c|] eqn:E;
      [|discriminate]. now apply (status_throws_resolved d' a c). }
  unfold Filesystem.exists_, Filesystem.size, exists_or_throw, fs_exists,
    file_size.
  rewrite Hv, Hknown, Hst. split; [reflexivity|]. split; [reflexivity|].
  now intros ->.
Qed.

Lemma X2_witness :
  is_absolute "/a/b" = true
  /\ within_limits (join "/a/b" "new/f.bin") = true
  /\ snd (Filesystem.write (Filesystem.new "/a/b") sample_disk "new/f.bin"
            [x00; x41; x00] Stored) = Returns (Ok tt)
  /\ Filesystem.exists_ (Filesystem.new "/a/b")
       (fst (Filesystem.write (Filesystem.new "/a/b") sample_disk "new/f.bin"
               [x00; x41; x00] Stored)) "new/f.bin" = Returns true
  /\ Filesystem.size (Filesystem.new "/a/b")
       (fst (Filesystem.write (Filesystem.new "/a/b") sample_disk "new/f.bin"
               [x00; x41; x00] Stored)) "new/f.bin" = Returns (Ok 3).
Proof.
  split; [reflexivity|]. split; [reflexivity|]. split; [reflexivity|].
  assert (Hw : Filesystem.write (Filesystem.new "/a/b") sample_disk
                 "new/f.bin" [x00; x41; x00] Stored
               = (fst (Filesystem.write (Filesystem.new "/a/b") sample_disk
                         "new/f.bin" [x00; x41; x00] Stored),
                  Returns (Ok tt))) by reflexivity.
  destruct (X2_size_and_exists_after_write (Filesystem.new "/a/b") sample_disk
              _ "new/f.bin" [x00; x41; x00] Stored eq_refl eq_refl Hw)
    as (H1 & H2 & _).
  split; [exact H1 | exact H2].
Defined.

(** X3.  [size] and [read] agree on every disk: [size(p)] returns [n]
    exactly when [read(p)] returns a byte sequence of length [n]. *)
Theorem X3_size_is_length_of_read
    (self : Filesystem.t) (d : disk) (p : string) (n : nat) :
  Filesystem.size self d p = Returns (Ok n)
  <-> exists b, Filesystem.read self d p = Returns (Ok b) /\ List.length b = n.
Proof.
  unfold Filesystem.size.
  destruct (Filesystem.validate_path self d p) as [[a|m]|w] eqn:Hv.
  - rewrite (read_validated self d p a Hv). unfold file_size.
    destruct (status d a) as [[bytes|es]|].
    + split.
      * intros H. inversion H. now exists bytes.
      * intros (b & H & Hn). inversion H. now subst.
    + split; [discriminate | intros (b & H & _); discriminate].
    + split.
      * destruct (resolve_error d a); discriminate.
      * intros (b & H & _); discriminate.
  - unfold Filesystem.read. rewrite Hv.
    split; [discriminate | intros (b & H & _); discriminate].
  - unfold Filesystem.read. rewrite Hv.
    split; [discriminate | intros (b & H & _); discriminate].
Qed.

Lemma X3_witness :
  Filesystem.size (Filesystem.new "/a/b") sample_disk "x.txt" = Returns (Ok 2)
  /\ exists b, Filesystem.read (Filesystem.new "/a/b") sample_disk "x.txt"
               = Returns (Ok b)
               /\ List.length b = 2.
Proof.
  split; [reflexivity|].
  apply (X3_size_is_length_of_read (Filesystem.new "/a/b") sample_disk "x.txt").
  reflexivity.
Defined.

(** X4.  For a joined path without a NUL byte, [read] leaves through an
    exception exactly when [validate_path] does, or when the validated path
    names a directory: the stream opens on a directory and [file_size]
    without an error code throws.  [size] on a validated path that names a
    directory returns an [IoError]. *)
Theorem X4_read_throws_on_directory
    (self : Filesystem.t) (d : disk) (p : string) :
  (no_nul (join (Filesystem.m_Root self) p) = true ->
   (throws (Filesystem.read self d p) = true
    <-> throws (Filesystem.validate_path self d p) = true
        \/ exists a, Filesystem.validate_path self d p = Returns (Ok a)
                     /\ is_directory d a = true))
  /\ (forall a, Filesystem.validate_path self d p = Returns (Ok a) ->
                is_directory d a = true ->
                returns_error (Filesystem.size self d p) IoError).
Proof.
  split.
  - intros _.
    destruct (Filesystem.validate_path self d p) as [[a|m]|w] eqn:Hv.
    + rewrite (read_validated self d p a Hv). unfold is_directory.
      destruct (status d a) as [[bytes|es]|] eqn:Hst; simpl.
      * split; [discriminate|].
        intros [H | (a' & H & Hd)]; [discriminate|]. inversion H; subst a'.
        rewrite Hst in Hd. discriminate.
      * split; [|reflexivity].
        intros _. right. exists a. split; [reflexivity|]. now rewrite Hst.
      * split; [discriminate|].
        intros [H | (a' & H & Hd)]; [discriminate|]. inversion H; subst a'.
        rewrite Hst in Hd. discriminate.
    + unfold Filesystem.read. rewrite Hv. simpl.
      split; [discriminate | intros [H | (a & H & _)]; discriminate].
    + unfold Filesystem.read. rewrite Hv. simpl.
      split; [now left | reflexivity].
  - intros a Hv Hd. unfold Filesystem.size, file_size. rewrite Hv.
    unfold is_directory in Hd.
    destruct (status d a) as [[?|?]|]; try discriminate. reflexivity.
Qed.

Lemma X4_witness :
  Filesystem.validate_path (Filesystem.new "/a/b") sample_disk "sub"
  = Returns (Ok "/a/b/sub")
  /\ is_directory sample_disk "/a/b/sub" = true
  /\ returns_error (Filesystem.size (Filesystem.new "/a/b") sample_disk "sub")
       IoError
  /\ no_nul (join "/a/b" "sub") = true
  /\ throws (Filesystem.read (Filesystem.new "/a/b") sample_disk "sub") = true.
Proof.
  pose proof (X4_read_throws_on_directory (Filesystem.new "/a/b") sample_disk
                "sub") as [H1 H2].
  split; [reflexivity|]. split; [reflexivity|]. split; [|split].
  - apply (H2 "/a/b/sub"); reflexivity.
  - reflexivity.
  - apply (H1 eq_refl). right. exists "/a/b/sub". split; reflexivity.
Defined.

(** X5.  When [mkdir(p)] returns success the validated path names a
    directory on the disk it leaves, and every entry of the disk before is
    still there, each regular file with the bytes it had; with an absolute
    root, every [read] of a joined path within the limits of the platform
    that returned bytes returns the same bytes after. *)
Theorem X5_mkdir_creates_and_keeps
    (self : Filesystem.t) (d d' : disk) (p : string) :
  Filesystem.mkdir self d p = (d', Returns (Ok tt)) ->
  exists a,
    Filesystem.validate_path self d p = Returns (Ok a)
    /\ is_directory d' a = true
    /\ keeps (root_node d) (root_node d')
    /\ (is_absolute (Filesystem.m_Root self) = true ->
        forall q b,
          within_limits (join (Filesystem.m_Root self) q) = true ->
          Filesystem.read self d q = Returns (Ok b) ->
          Filesystem.read self d' q = Returns (Ok b)).
Proof.
  unfold Filesystem.mkdir.
  destruct (Filesystem.validate_path self d p) as [[a|m]|w];
    [|discriminate..].
  destruct (create_directories d a) as [d1 [[]|m]] eqn:Hc; [|discriminate].
  intros H. inversion H; subst d1. exists a.
  destruct (create_directories_ok d d' a Hc) as (Hd & _ & Hk).
  repeat split; try assumption.
  intros Hroot q b Hlim Hr.
  apply (read_kept self d d' q b Hroot Hr (within_limits_returns d' _ Hlim)).
  destruct (read_ok_inv self d q b Hr) as (aq & Hv & Hst).
  destruct (file_location self d q aq b Hroot Hv Hst) as (_ & _ & _ & _ & Hl).
  now apply (keeps_file (root_node d)).
Qed.

Lemma X5_witness :
  snd (Filesystem.mkdir (Filesystem.new "/a/b") sample_disk "new/deep/")
  = Returns (Ok tt)
  /\ is_directory
       (fst (Filesystem.mkdir (Filesystem.new "/a/b") sample_disk "new/deep/"))
       "/a/b/new/deep/" = true
  /\ Filesystem.read (Filesystem.new "/a/b")
       (fst (Filesystem.mkdir (Filesystem.new "/a/b") sample_disk "new/deep/"))
       "x.txt" = Returns (Ok [x00; x01]).
Proof.
  destruct (X5_mkdir_creates_and_keeps (Filesystem.new "/a/b") sample_disk
              (fst (Filesystem.mkdir (Filesystem.new "/a/b") sample_disk
                      "new/deep/")) "new/deep/" eq_refl)
    as (a & Hv & Hd & Hk & Hr).
  split; [reflexivity|]. split.
  - vm_compute in Hv. inversion Hv; subst a. exact Hd.
  - apply (Hr eq_refl); reflexivity.
Defined.

(** X6.  [mkdir] on a validated path that already names a directory returns
    success and leaves the disk as it is. *)
Theorem X6_mkdir_existing_directory
    (self : Filesystem.t) (d : disk) (p a : string) :
  Filesystem.validate_path self d p = Returns (Ok a) ->
  is_directory d a = true ->
  Filesystem.mkdir self d p = (d, Returns (Ok tt)).
Proof.
  intros Hv Hd. unfold Filesystem.mkdir. rewrite Hv.
  unfold is_directory, status, resolve in Hd.
  unfold create_directories, missing_directories.
  destruct (a =? ""); [discriminate|].
  destruct (walk (root_node d) (start d a) (split a)) as [c|] eqn:Hw;
    [|discriminate].
  destruct (lookup (root_node d) c) as [[?|es]|] eqn:Hl; try discriminate.
  rewrite (missing_walked _ _ _ _ Hw).
  change (Nat.ltb MAX_MISSING 0) with false. cbv iota.
  rewrite (mkdirs_walked _ _ _ _ es Hw Hl). now rewrite with_top_root.
Qed.

Lemma X6_witness :
  Filesystem.validate_path (Filesystem.new "/a/b") sample_disk "sub/../sub"
  = Returns (Ok "/a/b/sub")
  /\ is_directory sample_disk "/a/b/sub" = true
  /\ Filesystem.mkdir (Filesystem.new "/a/b") sample_disk "sub/../sub"
     = (sample_disk, Returns (Ok tt)).
Proof.
  split; [reflexivity|]. split; [reflexivity|].
  apply (X6_mkdir_existing_directory (Filesystem.new "/a/b") sample_disk
           "sub/../sub" "/a/b/sub"); reflexivity.
Defined.

(** X7.  [mkdir] on a validated path that names a regular file, or that
    runs through one, returns an [IoError] and leaves the disk as it
    is. *)
Theorem X7_mkdir_blocked_by_file
    (self : Filesystem.t) (d : disk) (p a : string) :
  Filesystem.validate_path self d p = Returns (Ok a) ->
  (exists b, status d a = Some (File b))
  \/ resolve_error d a = Some ENOTDIR ->
  exists m, Filesystem.mkdir self d p = (d, Returns (Err m))
            /\ kind_of m = Some IoError.
Proof.
  intros Hv Hb. unfold Filesystem.mkdir. rewrite Hv.
  assert (Hc : create_directories d a = (d, Err (strerror ENAMETOOLONG))
               \/ create_directories d a = (d, Err (strerror ENOTDIR))).
  { unfold create_directories.
    destruct (Nat.ltb MAX_MISSING (missing_directories d a));
      [left; destruct Hb as [[b Hb] | Hb];
       [unfold status, resolve in Hb | unfold resolve_error in Hb];
       destruct (a =? ""); try discriminate; reflexivity|].
    right. destruct Hb as [[b Hb] | Hb].
    - unfold status, resolve in Hb. destruct (a =? ""); [discriminate|].
      destruct (walk (root_node d) (start d a) (split a)) as [c|] eqn:Hw;
        [|discriminate].
      assert (Hd : exists es, lookup (root_node d) (start d a) = Some (Dir es)).
      { destruct (split a) as [|x r] eqn:Es; [now apply split_not_nil in Es|].
        simpl in Hw.
        destruct (lookup (root_node d) (start d a)) as [[?|es]|];
          try discriminate. eauto. }
      destruct Hd as [es Hd].
      rewrite (mkdirs_file _ _ _ _ es b Hd Hw Hb). now rewrite with_top_root.
    - unfold resolve_error in Hb. destruct (a =? ""); [discriminate|].
      rewrite (mkdirs_enotdir _ _ _ Hb). now rewrite with_top_root. }
  destruct Hc as [-> | ->]; eexists; split; reflexivity.
Qed.

Lemma X7_witness :
  Filesystem.validate_path (Filesystem.new "/a/b") sample_disk "x.txt/k"
  = Returns (Ok "/a/b/x.txt/k")
  /\ resolve_error sample_disk "/a/b/x.txt/k" = Some ENOTDIR
  /\ exists m,
       Filesystem.mkdir (Filesystem.new "/a/b") sample_disk "x.txt/k"
       = (sample_disk, Returns (Err m))
       /\ kind_of m = Some IoError.
Proof.
  split; [reflexivity|]. split; [reflexivity|].
  apply (X7_mkdir_blocked_by_file (Filesystem.new "/a/b") sample_disk
           "x.txt/k" "/a/b/x.txt/k"); [reflexivity | right; reflexivity].
Defined.

(** X8.  With an absolute root and a joined path within the limits of the
    platform, [mkdir] on a validated path returns success unless the path
    names a regular file or runs through one, or lacks more directories
    than the library creates in one call (1000 with libstdc++). *)
Theorem X8_mkdir_succeeds_unless_blocked
    (self : Filesystem.t) (d : disk) (p a : string) :
  is_absolute (Filesystem.m_Root self) = true ->
  within_limits (join (Filesystem.m_Root self) p) = true ->
  Filesystem.validate_path self d p = Returns (Ok a) ->
  (forall b, status d a <> Some (File b)) ->
  resolve_error d a <> Some ENOTDIR ->
  missing_directories d a <= MAX_MISSING ->
  exists d', Filesystem.mkdir self d p = (d', Returns (Ok tt)).
Proof.
  intros Hroot Hlim Hv Hnf Hnd Hmiss.
  pose proof (validated_short self d p a Hroot Hv Hlim) as Hshort.
  destruct (validated_forms self d p a Hroot Hv) as (l & tr & -> & Hl & Htr & _).
  unfold Filesystem.mkdir. rewrite Hv.
  assert (Hne : (render true l tr =? "") = false)
    by (apply absolute_not_empty; reflexivity).
  assert (Hst : start d (render true l tr) = []) by reflexivity.
  unfold create_directories. rewrite Hne.
  apply Nat.ltb_ge in Hmiss. rewrite Hmiss, Hst.
  unfold status, resolve, resolve_error in Hnf, Hnd.
  rewrite Hne, Hst in Hnf, Hnd.
  destruct (split_render l tr Hl Htr) as (trl & Hsp & Hsk).
  rewrite Hsp in *.
  inversion Hshort as [|? ? _ Hshort']; subst.
  apply Forall_app in Hshort' as [Hsl _].
  change (walk (root_node d) [] ("" :: l ++ trl))
    with (walk (root_node d) [] (l ++ trl)) in Hnf.
  change (walk_error (root_node d) [] ("" :: l ++ trl))
    with (walk_error (root_node d) [] (l ++ trl)) in Hnd.
  change (mkdirs (root_node d) [] ("" :: l ++ trl))
    with (mkdirs (root_node d) [] (l ++ trl)).
  destruct (mkdirs_names l trl (Forall_valid_plain _ Hl) Hsl Hsk (root_node d)
              [] (top d) eq_refl) as [[t' Hm] | [He | (c & b & Hw & Hf)]].
  - rewrite Hm. eauto.
  - exfalso. apply Hnd. exact He.
  - exfalso. apply (Hnf b). now rewrite Hw.
Qed.

Lemma X8_witness :
  is_absolute "/a/b" = true
  /\ within_limits (join "/a/b" "sub/n1/n2") = true
  /\ Filesystem.validate_path (Filesystem.new "/a/b") sample_disk "sub/n1/n2"
     = Returns (Ok "/a/b/sub/n1/n2")
  /\ missing_directories sample_disk "/a/b/sub/n1/n2" = 2
  /\ exists d', Filesystem.mkdir (Filesystem.new "/a/b") sample_disk "sub/n1/n2"
                = (d', Returns (Ok tt)).
Proof.
  split; [reflexivity|]. split; [reflexivity|]. split; [reflexivity|].
  split; [reflexivity|].
  apply (X8_mkdir_succeeds_unless_blocked (Filesystem.new "/a/b") sample_disk
           "sub/n1/n2" "/a/b/sub/n1/n2");
    [reflexivity | reflexivity | reflexivity | intros b; discriminate
    | discriminate | apply Nat.leb_le; reflexivity].
Defined.





(** X11.  On a well-formed disk and with an absolute root, after
    [remove(p)] has returned success the path names nothing: [exists(p)]
    answers [false], and [read(p)] and [size(p)] return an [IoError]. *)
Theorem X11_removed_path_is_gone
    (self : Filesystem.t) (d d' : disk) (p : string) :
  wf_disk d ->
  is_absolute (Filesystem.m_Root self) = true ->
  Filesystem.remove self d p = (d', Returns (Ok tt)) ->
  Filesystem.exists_ self d' p = Returns false
  /\ (exists m, Filesystem.read self d' p = Returns (Err m)
                /\ kind_of m = Some IoError)
  /\ returns_error (Filesystem.size self d' p) IoError.
Proof.
  intros Hwf Hroot Hr.
  destruct (remove_gone self d d' p Hwf Hroot Hr) as (a1 & Hv & He).
  pose proof (resolve_error_some d' a1 _ He) as Hnone.
  assert (Hst : status d' a1 = None) by (unfold status; now rewrite Hnone).
  split; [|split].
  - unfold Filesystem.exists_, exists_or_throw, status_throws, fs_exists.
    now rewrite Hv, He, Hst.
  - rewrite (read_validated self d' p a1 Hv), Hst.
    eexists. split; reflexivity.
  - unfold Filesystem.size, file_size. rewrite Hv, Hst, He. reflexivity.
Qed.

Lemma X11_witness :
  wf_disk sample_disk
  /\ is_absolute "/a/b" = true
  /\ Filesystem.exists_ (Filesystem.new "/a/b") sample_disk "x.txt"
     = Returns true
  /\ snd (Filesystem.remove (Filesystem.new "/a/b") sample_disk "x.txt")
     = Returns (Ok tt)
  /\ Filesystem.exists_ (Filesystem.new "/a/b")
       (fst (Filesystem.remove (Filesystem.new "/a/b") sample_disk "x.txt"))
       "x.txt" = Returns false.
Proof.
  split; [exact sample_disk_wf|]. split; [reflexivity|].
  split; [reflexivity|]. split; [reflexivity|].
  assert (Hr : Filesystem.remove (Filesystem.new "/a/b") sample_disk "x.txt"
               = (fst (Filesystem.remove (Filesystem.new "/a/b") sample_disk
                         "x.txt"), Returns (Ok tt))) by reflexivity.
  exact (proj1 (X11_removed_path_is_gone (Filesystem.new "/a/b") sample_disk
                  _ "x.txt" sample_disk_wf eq_refl Hr)).
Defined.

(** X12.  [remove] never removes a directory that has entries: on a
    validated path that names one it returns an [IoError]; and a [remove]
    that returns an error leaves the disk as it is. *)
Theorem X12_remove_keeps_nonempty_directory
    (self : Filesystem.t) (d : disk) (p : string) :
  (forall a e es, Filesystem.validate_path self d p = Returns (Ok a) ->
                  status d a = Some (Dir (e :: es)) ->
                  exists m, Filesystem.remove self d p = (d, Returns (Err m))
                            /\ kind_of m = Some IoError)
  /\ (forall d' m, Filesystem.remove self d p = (d', Returns (Err m)) ->
                   d' = d).
Proof.
  split.
  - intros a e es Hv Hst. unfold Filesystem.remove. rewrite Hv.
    unfold status in Hst. unfold fs_remove.
    destruct (resolve d a) as [c|]; [|discriminate].
    destruct (is_dot (last (split a) "")); [eexists; split; reflexivity|].
    destruct (is_dotdot (last (split a) "")); [eexists; split; reflexivity|].
    destruct c as [|x c]; [eexists; split; reflexivity|].
    rewrite Hst. eexists; split; reflexivity.
  - intros d' m. unfold Filesystem.remove.
    destruct (Filesystem.validate_path self d p) as [[a|m0]|w];
      [|intros H; now inversion H..].
    destruct (fs_remove d a) as [d1 rb] eqn:Hf.
    destruct rb as [bo|m1]; intros H; inversion H; subst.
    apply (fs_remove_unchanged d d' a _ Hf). discriminate.
Qed.

Lemma X12_witness :
  Filesystem.validate_path (Filesystem.new "/a/b") sample_disk "sub"
  = Returns (Ok "/a/b/sub")
  /\ status sample_disk "/a/b/sub" = Some (Dir [("y", File [])])
  /\ exists m, Filesystem.remove (Filesystem.new "/a/b") sample_disk "sub"
               = (sample_disk, Returns (Err m))
               /\ kind_of m = Some IoError.
Proof.
  destruct (X12_remove_keeps_nonempty_directory (Filesystem.new "/a/b")
              sample_disk "sub") as [H _].
  split; [reflexivity|]. split; [reflexivity|].
  apply (H "/a/b/sub" ("y", File []) []); reflexivity.
Defined.

(** X13.  With a root in canonical form, a relative path made of ordinary
    names is accepted on every disk, whether or not it names an entry, and
    validates to the root's path followed by these names, provided the
    joined path is within the limits of the platform: it is shorter than
    [PATH_MAX], none of its names is over [NAME_MAX] bytes, and it holds
    no NUL byte. *)
Theorem X13_paths_of_names_are_accepted
    (d : disk) (rc ns : list string) :
  Forall (fun n => valid_name n = true) rc ->
  Forall (fun n => valid_name n = true) ns ->
  ns <> [] ->
  within_limits (join (render_abs rc) (String.concat "/" ns)) = true ->
  Filesystem.validate_path (Filesystem.new (render_abs rc)) d
    (String.concat "/" ns)
  = Returns (Ok (render_abs (rc ++ ns))).
Proof.
  intros Hrc Hns Hne Hlim.
  assert (Hall : Forall (fun n => valid_name n = true) (rc ++ ns))
    by (apply Forall_app; now split).
  rewrite (validate_path_lexical d (render_abs rc) (String.concat "/" ns)
             (render_abs (rc ++ ns))).
  - unfold render_abs at 2.
    rewrite (proj2 (prefix_render_iff rc (rc ++ ns) false Hrc Hall));
      [reflexivity|].
    left. apply is_prefix_refl_app.
  - destruct ns as [|n ns]; [congruence|]. inversion Hns; subst.
    destruct (concat_valid_head n ns) as (c & r & -> & _); auto.
  - now rewrite join_render_names.
  - rewrite join_render_names by assumption.
    unfold render_abs.
    rewrite location_render by (assumption || discriminate). reflexivity.
  - rewrite join_render_names by assumption.
    now apply lexically_normal_canonical.
  - exact Hlim.
Qed.

Lemma X13_witness :
  within_limits (join "/a/b" "p/q.txt") = true
  /\ Filesystem.validate_path (Filesystem.new "/a/b") sample_disk "p/q.txt"
     = Returns (Ok "/a/b/p/q.txt").
Proof.
  split; [reflexivity|].
  apply (X13_paths_of_names_are_accepted sample_disk ["a"; "b"] ["p"; "q.txt"]);
    [repeat constructor | repeat constructor | discriminate | reflexivity].
Defined.

(** X14.  What [validate_path] accepts, for a root in canonical form and on
    every disk: a nonempty input whose joined path is within the limits of
    the platform is accepted exactly when the location it leads to, with dot
    and dot-dot resolved, is the root, lies below the root, or is or lies
    below a sibling of the root whose name starts with the root's last
    name.  The siblings are all that the prefix test lets through beyond
    the root.  (The disk has no symbolic links, so the location a path
    leads to is the one its segments spell.) *)
Theorem X14_accepted_locations
    (d : disk) (rc : list string) (p : string) :
  Forall (fun n => valid_name n = true) rc ->
  (p =? "") = false ->
  within_limits (join (render_abs rc) p) = true ->
  (exists a, Filesystem.validate_path (Filesystem.new (render_abs rc)) d p
             = Returns (Ok a))
  <-> is_prefix rc (location (join (render_abs rc) p)) = true
      \/ sibling_extension rc (location (join (render_abs rc) p)).
Proof.
  intros Hrc Hp Hlim.
  rewrite validate_path_returns
    by (assumption || now apply within_limits_returns).
  cbv zeta. simpl Filesystem.m_Root.
  set (s := join (render_abs rc) p).
  assert (Hs : is_absolute s = true)
    by (apply join_absolute_left; [reflexivity | assumption]).
  pose proof (location_valid s) as Hval.
  assert (Hwc : exists tr, weakly_canonical d s = render true (location s) tr).
  { destruct (weakly_canonical_forms d s Hs) as [-> | (_ & ->)];
      [now exists false | now exists true]. }
  destruct Hwc as [tr ->].
  rewrite <- (prefix_render_iff rc (location s) tr Hrc Hval).
  destruct (prefix (render_abs rc) (render true (location s) tr));
    split; eauto; try discriminate.
  intros [a H]. discriminate.
Qed.

Lemma X14_witness :
  ((exists a, Filesystem.validate_path (Filesystem.new "/a/b") sample_disk
                "../b-evil/secret" = Returns (Ok a))
   <-> is_prefix ["a"; "b"] ["a"; "b-evil"; "secret"] = true
       \/ sibling_extension ["a"; "b"] ["a"; "b-evil"; "secret"])
  /\ sibling_extension ["a"; "b"] ["a"; "b-evil"; "secret"]
  /\ ((exists a, Filesystem.validate_path (Filesystem.new "/a/b") sample_disk
                   "../c/x" = Returns (Ok a))
      <-> is_prefix ["a"; "b"] ["a"; "c"; "x"] = true
          \/ sibling_extension ["a"; "b"] ["a"; "c"; "x"]).
Proof.
  split; [|split].
  - apply (X14_accepted_locations sample_disk ["a"; "b"] "../b-evil/secret");
      [repeat constructor | reflexivity | reflexivity].
  - exists ["a"], "b", "b-evil", ["secret"].
    repeat split; try reflexivity. discriminate.
  - apply (X14_accepted_locations sample_disk ["a"; "b"] "../c/x");
      [repeat constructor | reflexivity | reflexivity].
Defined.





(** X17.  A [write] that fails is not undone.  When it fails before the
    stream has opened, every entry of the disk is kept, each regular file
    with its bytes, and so are the directories it created.  When the stream
    opened and reports a failure, the file was emptied at the opening and
    holds only the bytes that reached it: with an absolute root and a
    joined path within the limits, on a validated path that ends in a
    filename, does not name a directory, does not run through a regular
    file and lacks no more than 1000 directories, [write] returns the
    [IoError] of the stream and the file holds those bytes, whatever it
    held before.  And on a validated path that ends in a separator, names
    nothing, does not run through a regular file and lacks no more than
    1000 directories, [write] creates the directories of the path, the last
    one included, and then returns an [IoError] because the stream cannot
    be opened on a directory. *)
Theorem X17_failed_write_is_not_undone
    (self : Filesystem.t) (d : disk) (p : string) (c : list byte)
    (fate : stream_fate) :
  (forall d' m, Filesystem.write self d p c fate = (d', Returns (Err m)) ->
                m <> "Failed to write file" ->
                keeps (root_node d) (root_node d'))
  /\ (forall a, is_absolute (Filesystem.m_Root self) = true ->
                within_limits (join (Filesystem.m_Root self) p) = true ->
                Filesystem.validate_path self d p = Returns (Ok a) ->
                has_filename a = true ->
                is_directory d a = false ->
                resolve_error d a <> Some ENOTDIR ->
                missing_directories d (parent_path a) <= MAX_MISSING ->
                write_fails fate c = true ->
                exists d',
                  Filesystem.write self d p c fate
                  = (d', Returns (Err "Failed to write file"))
                  /\ kind_of "Failed to write file" = Some IoError
                  /\ status d' a = Some (File (stored_bytes fate c)))
  /\ (forall a, is_absolute (Filesystem.m_Root self) = true ->
                within_limits (join (Filesystem.m_Root self) p) = true ->
                Filesystem.validate_path self d p = Returns (Ok a) ->
                has_filename a = false -> a <> "/" ->
                resolve_error d a = Some ENOENT ->
                missing_directories d (parent_path a) <= MAX_MISSING ->
                exists d' m,
                  Filesystem.write self d p c fate = (d', Returns (Err m))
                  /\ kind_of m = Some IoError
                  /\ is_directory d' a = true).
Proof.
  split; [|split].
  - intros d' m. unfold Filesystem.write.
    destruct (Filesystem.validate_path self d p) as [[a|m0]|w];
      [|intros H; inversion H; intros _; apply keeps_refl
       |intros H; inversion H].
    destruct (if has_parent_path a
              then create_directories d (parent_path a)
              else (d, Ok tt)) as [d1 made] eqn:Hmade.
    assert (Hk : keeps (root_node d) (root_node d1)).
    { destruct (has_parent_path a).
      - now destruct (create_directories_keeps d d1 _ _ Hmade).
      - inversion Hmade; subst. apply keeps_refl. }
    destruct made as [[]|m1]; [|intros H; inversion H; subst; now intros _].
    destruct (write_file d1 a (stored_bytes fate c));
      [|intros H; inversion H; subst; now intros _].
    destruct (write_fails fate c); intros H; inversion H; subst.
    intros Hm. now contradiction Hm.
  - intros a Hroot Hlim Hv Hfn Hnd Hne Hmiss Hfate.
    destruct (write_reaches_file self d p a c fate Hroot Hv
                (validated_short self d p a Hroot Hv Hlim) Hfn Hnd Hne Hmiss)
      as (d' & Hw & Hst).
    rewrite Hfate in Hw. exists d'. split; [exact Hw|].
    split; [reflexivity | exact Hst].
  - intros a Hroot Hlim Hv Hfn Hnr He Hmiss.
    pose proof (validated_short self d p a Hroot Hv Hlim) as Hshort.
    destruct (validated_forms self d p a Hroot Hv)
      as (l & tr & Ha & Hval & Htr & _).
    assert (Hl : l <> [] /\ tr = true).
    { subst a. destruct l as [|x l].
      - destruct tr; [now specialize (Htr eq_refl) | now exfalso; apply Hnr].
      - split; [discriminate|].
        rewrite has_filename_render in Hfn
          by (try discriminate; now apply Forall_valid_segment).
        now destruct tr. }
    destruct Hl as [Hlne ->]. subst a.
    rewrite parent_path_trailing in Hmiss by assumption.
    rewrite split_render_trail in Hshort
      by (try assumption; now apply Forall_valid_no_sep).
    inversion Hshort as [|? ? _ Hshort']; subst.
    apply Forall_app in Hshort' as [Hsl _].
    (* the directories of the path can be created *)
    assert (Herr : walk_error (root_node d) [] (l ++ [""]) = Some ENOENT).
    { unfold resolve_error in He. rewrite render_nonempty in He.
      rewrite split_render_trail in He
        by (try assumption; now apply Forall_valid_no_sep).
      exact He. }
    rewrite walk_error_app in Herr.
    assert (Hpar : walk_error (root_node d) [] l <> Some ENOTDIR
                   /\ forall b, lookup (root_node d) l <> Some (File b)).
    { split.
      - intros E. rewrite (walk_error_some _ _ _ _ E) in Herr. congruence.
      - intros b Hb.
        rewrite (walk_names (root_node d) l [] (File b)
                   (Forall_valid_plain _ Hval) Hb) in Herr.
        simpl in Herr. rewrite Hb in Herr. discriminate. }
    destruct Hpar as [Hpe Hpf].
    destruct (create_directories_names d l Hval Hsl Hmiss Hpe Hpf)
      as (t' & _ & Hcd).
    set (d1 := with_top d t') in *.
    destruct (create_directories_ok d d1 _ Hcd) as (Hdir & _ & _).
    exists d1. eexists. unfold Filesystem.write. rewrite Hv.
    assert (Hhp : has_parent_path (render true l true) = true).
    { unfold has_parent_path. now rewrite parent_path_trailing. }
    rewrite Hhp, parent_path_trailing, Hcd by assumption.
    rewrite write_file_trailing by assumption.
    split; [reflexivity|]. split; [reflexivity|].
    (* the path with its final separator names the directory *)
    unfold is_directory, status in *.
    rewrite resolve_render_abs in Hdir by now apply Forall_valid_segment.
    rewrite resolve_render_trail
      by (try assumption; now apply Forall_valid_segment).
    rewrite walk_app.
    destruct (walk (root_node d1) [] l) as [c0|]; [|discriminate].
    simpl. destruct (lookup (root_node d1) c0) as [[?|es]|] eqn:E;
      try discriminate. simpl. now rewrite E.
Qed.

(** On the sample disk: the file [x.txt] holds two bytes; a write of three
    bytes whose stream fails after the first leaves it with one byte and
    returns an [IoError]; a write to [n1/n2/] creates both directories and
    returns an [IoError]. *)
Lemma X17_witness :
  is_absolute "/a/b" = true
  /\ Filesystem.read (Filesystem.new "/a/b") sample_disk "x.txt"
     = Returns (Ok [x00; x01])
  /\ (exists d',
        Filesystem.write (Filesystem.new "/a/b") sample_disk "x.txt"
          [x41; x42; x43] (Failed 1)
        = (d', Returns (Err "Failed to write file"))
        /\ kind_of "Failed to write file" = Some IoError
        /\ status d' "/a/b/x.txt" = Some (File [x41]))
  /\ Filesystem.validate_path (Filesystem.new "/a/b") sample_disk "n1/n2/"
     = Returns (Ok "/a/b/n1/n2/")
  /\ fs_exists sample_disk "/a/b/n1" = false
  /\ exists d' m,
       Filesystem.write (Filesystem.new "/a/b") sample_disk "n1/n2/" [x41]
         Stored
       = (d', Returns (Err m))
       /\ kind_of m = Some IoError
       /\ is_directory d' "/a/b/n1/n2/" = true.
Proof.
  destruct (X17_failed_write_is_not_undone (Filesystem.new "/a/b") sample_disk
              "x.txt" [x41; x42; x43] (Failed 1)) as (_ & H1 & _).
  destruct (X17_failed_write_is_not_undone (Filesystem.new "/a/b") sample_disk
              "n1/n2/" [x41] Stored) as (_ & _ & H2).
  split; [reflexivity|]. split; [reflexivity|]. split.
  - apply (H1 "/a/b/x.txt"); try reflexivity;
      [discriminate | apply Nat.leb_le; reflexivity].
  - split; [reflexivity|]. split; [reflexivity|].
    apply (H2 "/a/b/n1/n2/"); try reflexivity;
      [discriminate | apply Nat.leb_le; reflexivity].
Defined.

(** X18.  The containment that holds.  For a root in canonical form and a
    nonempty input whose joined path is within the limits of the platform
    and leads to a location which is not the root, not below the root, and
    not at or below a sibling whose name starts with the root's last name:
    no operation reads or changes anything.  All of them fail with
    [PathEscapesRoot] ([exists] answers [false]), and [write], [remove] and
    [mkdir] leave the disk as it is. *)
Theorem X18_outside_paths_touch_nothing
    (d : disk) (rc : list string) (p : string) :
  Forall (fun n => valid_name n = true) rc ->
  (p =? "") = false ->
  within_limits (join (render_abs rc) p) = true ->
  is_prefix rc (location (join (render_abs rc) p)) = false ->
  ~ sibling_extension rc (location (join (render_abs rc) p)) ->
  let self := Filesystem.new (render_abs rc) in
  kind_of msg_escapes_root = Some PathEscapesRoot
  /\ Filesystem.validate_path self d p = Returns (Err msg_escapes_root)
  /\ Filesystem.exists_ self d p = Returns false
  /\ Filesystem.read self d p = Returns (Err msg_escapes_root)
  /\ Filesystem.read_string self d p = Returns (Err msg_escapes_root)
  /\ Filesystem.size self d p = Returns (Err msg_escapes_root)
  /\ (forall c fate,
        Filesystem.write self d p c fate
        = (d, Returns (Err msg_escapes_root)))
  /\ (forall c fate,
        Filesystem.write_string self d p c fate
        = (d, Returns (Err msg_escapes_root)))
  /\ Filesystem.remove self d p = (d, Returns (Err msg_escapes_root))
  /\ Filesystem.mkdir self d p = (d, Returns (Err msg_escapes_root))
  /\ Filesystem.list self d p = Returns (Err msg_escapes_root)
  /\ Filesystem.list_recursive self d p = Returns (Err msg_escapes_root).
Proof.
  intros Hrc Hp Hlim Hin Hsib self.
  assert (Hv : Filesystem.validate_path self d p
               = Returns (Err msg_escapes_root)).
  { rewrite validate_path_returns
      by (assumption || now apply within_limits_returns).
    cbv zeta. simpl Filesystem.m_Root.
    set (s := join (render_abs rc) p) in *.
    assert (Hs : is_absolute s = true)
      by (apply join_absolute_left; [reflexivity | assumption]).
    pose proof (location_valid s) as Hval.
    assert (Hwc : exists tr, weakly_canonical d s = render true (location s) tr).
    { destruct (weakly_canonical_forms d s Hs) as [-> | (_ & ->)];
        [now exists false | now exists true]. }
    destruct Hwc as [tr ->].
    destruct (prefix (render_abs rc) (render true (location s) tr)) eqn:E;
      [|reflexivity].
    apply (prefix_render_iff rc (location s) tr Hrc Hval) in E.
    destruct E as [E | E]; [congruence | contradiction]. }
  unfold Filesystem.exists_, Filesystem.read_string, Filesystem.read,
    Filesystem.size, Filesystem.write_string, Filesystem.write,
    Filesystem.remove, Filesystem.mkdir, Filesystem.list,
    Filesystem.list_recursive, Filesystem.listing_target.
  rewrite Hv, Hp. repeat split.
Qed.

Lemma X18_witness :
  Forall (fun n => valid_name n = true) ["a"; "b"]
  /\ within_limits (join "/a/b" "../../etc/passwd") = true
  /\ Filesystem.read (Filesystem.new "/a/b") sample_disk "../../etc/passwd"
     = Returns (Err msg_escapes_root)
  /\ Filesystem.remove (Filesystem.new "/a/b") sample_disk "../../etc/passwd"
     = (sample_disk, Returns (Err msg_escapes_root))
  /\ Filesystem.read (Filesystem.new "/") sample_disk "/etc/passwd"
     = Returns (Ok [x42]).
Proof.
  assert (Hv : Forall (fun n => valid_name n = true) ["a"; "b"])
    by repeat constructor.
  assert (Hs : ~ sibling_extension ["a"; "b"] ["etc"; "passwd"]).
  { intros (pre & n & n' & rest & H1 & H2 & _).
    destruct pre as [|x pre]; [discriminate|].
    inversion H1; inversion H2; subst. discriminate. }
  destruct (X18_outside_paths_touch_nothing sample_disk ["a"; "b"]
              "../../etc/passwd" Hv eq_refl eq_refl eq_refl Hs)
    as (_ & _ & _ & Hr & _ & _ & _ & _ & Hrm & _).
  split; [exact Hv|]. split; [reflexivity|].
  split; [exact Hr|]. split; [exact Hrm | reflexivity].
Defined.

(** X19.  With an absolute root, [write], [mkdir] and [remove] keep the
    disk well formed, whatever they return and whatever becomes of the
    bytes written: every entry they create has a name that is not empty,
    not a dot or a dot-dot, free of separators and within the name limit,
    and no directory gets two entries of one name. *)
Theorem X19_operations_keep_well_formed
    (self : Filesystem.t) (d : disk) (p : string) :
  is_absolute (Filesystem.m_Root self) = true ->
  wf_disk d ->
  (forall c fate d' r, Filesystem.write self d p c fate = (d', r) ->
                       wf_disk d')
  /\ (forall d' r, Filesystem.mkdir self d p = (d', r) -> wf_disk d')
  /\ (forall d' r, Filesystem.remove self d p = (d', r) -> wf_disk d').
Proof.
  intros Hroot Hwf. split; [|split].
  - intros c fate d' r. now apply write_wf.
  - intros d' r. unfold Filesystem.mkdir.
    destruct (Filesystem.validate_path self d p) as [[a|m]|w] eqn:Hv;
      [|now intros H; inversion H; subst..].
    destruct (validated_forms self d p a Hroot Hv)
      as (l & tr & -> & Hval & Htr & _).
    destruct (create_directories d (render true l tr)) as [d1 r1] eqn:Hc.
    pose proof (create_directories_wf d d1 l tr r1 Hval Htr Hwf Hc) as H1.
    destruct r1 as [[]|m]; intros H; inversion H; subst; exact H1.
  - intros d' r. unfold Filesystem.remove.
    destruct (Filesystem.validate_path self d p) as [[a|m]|w];
      [|now intros H; inversion H; subst..].
    destruct (fs_remove d a) as [d1 rb] eqn:Hf.
    pose proof (fs_remove_wf d d1 a rb Hwf Hf) as H1.
    destruct rb; intros H; inversion H; subst; exact H1.
Qed.

Lemma X19_witness :
  is_absolute "/a/b" = true
  /\ wf_disk sample_disk
  /\ wf_disk (fst (Filesystem.write (Filesystem.new "/a/b") sample_disk
                     "n1/n2/f.txt" [x41] Stored))
  /\ wf_disk (fst (Filesystem.remove (Filesystem.new "/a/b") sample_disk
                     "x.txt")).
Proof.
  destruct (X19_operations_keep_well_formed (Filesystem.new "/a/b")
              sample_disk "n1/n2/f.txt" eq_refl sample_disk_wf) as (Hw & _ & _).
  destruct (X19_operations_keep_well_formed (Filesystem.new "/a/b")
              sample_disk "x.txt" eq_refl sample_disk_wf) as (_ & _ & Hr).
  split; [reflexivity|]. split; [exact sample_disk_wf|]. split.
  - apply (Hw [x41] Stored _
             (snd (Filesystem.write (Filesystem.new "/a/b")
                     sample_disk "n1/n2/f.txt" [x41] Stored))).
    reflexivity.
  - apply (Hr _ (snd (Filesystem.remove (Filesystem.new "/a/b") sample_disk
                        "x.txt"))).
    reflexivity.
Defined.

(** X20.  On a well-formed disk, with an absolute root and a joined path
    within the limits of the platform, a file that was written can be
    removed: after [write(p, c)] has returned success, [remove(p)] returns
    success, and [exists(p)] is [true] before the removal and [false] after
    it. *)
Theorem X20_written_file_can_be_removed
    (self : Filesystem.t) (d d1 : disk) (p : string) (c : list byte)
    (fate : stream_fate) :
  wf_disk d ->
  is_absolute (Filesystem.m_Root self) = true ->
  within_limits (join (Filesystem.m_Root self) p) = true ->
  Filesystem.write self d p c fate = (d1, Returns (Ok tt)) ->
  Filesystem.exists_ self d1 p = Returns true
  /\ exists d2,
       Filesystem.remove self d1 p = (d2, Returns (Ok tt))
       /\ Filesystem.exists_ self d2 p = Returns false.
Proof.
  intros Hwf Hroot Hlim Hw.
  pose proof (write_wf self d d1 p c fate _ Hroot Hwf Hw) as Hwf1.
  destruct (written_status self d d1 p c fate Hroot Hw) as (a & _ & Hv1 & Hst).
  specialize (Hv1 (within_limits_returns d1 _ Hlim)).
  destruct (file_location self d1 p a _ Hroot Hv1 Hst)
    as (_ & Ha & _ & _ & Hl).
  assert (Hknown : status_throws d1 a = false).
  { unfold status in Hst. destruct (resolve d1 a) as [c0|] eqn:E;
      [|discriminate]. now apply (status_throws_resolved d1 a c0). }
  split.
  - unfold Filesystem.exists_, exists_or_throw, fs_exists.
    now rewrite Hv1, Hknown, Hst.
  - destruct (fs_remove_file d1 _ _ (location_valid _) Hl) as [d2 Hrm].
    rewrite <- Ha in Hrm.
    assert (Hr : Filesystem.remove self d1 p = (d2, Returns (Ok tt))).
    { unfold Filesystem.remove. now rewrite Hv1, Hrm. }
    exists d2. split; [exact Hr|].
    destruct (remove_gone self d1 d2 p Hwf1 Hroot Hr) as (a2 & Hv2 & He).
    unfold Filesystem.exists_, exists_or_throw, status_throws, fs_exists,
      status.
    now rewrite Hv2, He, (resolve_error_some d2 a2 _ He).
Qed.

Lemma X20_witness :
  wf_disk sample_disk
  /\ is_absolute "/a/b" = true
  /\ within_limits (join "/a/b" "n/f") = true
  /\ Filesystem.exists_ (Filesystem.new "/a/b")
       (fst (Filesystem.write (Filesystem.new "/a/b") sample_disk "n/f" [x41]
               Stored))
       "n/f" = Returns true
  /\ exists d2,
       Filesystem.remove (Filesystem.new "/a/b")
         (fst (Filesystem.write (Filesystem.new "/a/b") sample_disk "n/f" [x41]
                 Stored))
         "n/f" = (d2, Returns (Ok tt))
       /\ Filesystem.exists_ (Filesystem.new "/a/b") d2 "n/f" = Returns false.
Proof.
  assert (Hw : Filesystem.write (Filesystem.new "/a/b") sample_disk "n/f" [x41]
                 Stored
               = (fst (Filesystem.write (Filesystem.new "/a/b") sample_disk
                         "n/f" [x41] Stored), Returns (Ok tt)))
    by reflexivity.
  split; [exact sample_disk_wf|]. split; [reflexivity|].
  split; [reflexivity|].
  exact (X20_written_file_can_be_removed (Filesystem.new "/a/b") sample_disk
           _ "n/f" [x41] Stored sample_disk_wf eq_refl eq_refl Hw).
Defined.

End Further.
